(** * structraw: a reflection-driven binary struct codec

    Shallow embedding of the Go package [structraw] (errors.go,
    serializer.go, struct_len.go) and the properties its specification
    states about it.

    Conventions of the embedding:
    - a Go [int] or [uint64] is a [Z]; the conversions [byte(x)],
      [uint16(x)], [uint32(x)] are written out as reductions modulo
      [2^8], [2^16], [2^32];
    - a [[]byte] is a [list byte]; a nil slice and an empty slice are the
      same list, as they are for [bytes.Equal];
    - a Go function returning [(T, error)] returns a pair whose second
      component is an [option error] ([None] is [nil]); a function that may
      panic returns an [outcome];
    - an [io.Writer] and an [io.Reader] are state machines; a call that
      uses one threads its state. *)

From Stdlib Require Import ZArith List String Ascii Bool Lia.
From Stdlib.Strings Require Import Byte.
From stdpp Require Import base decidable countable gmap strings list.
Import ListNotations.
Local Open Scope string_scope.
Local Open Scope list_scope.
Local Open Scope Z_scope.

(** ** errors.go *)

Module Errors.

(** An error value.  The four sentinels are the package's own;
    [EOF] is [io.EOF]; [IOError] stands for any other error value produced
    by a sink or a source; [Wrapf] is [fmt.Errorf] with a single [%w]
    verb, which keeps the wrapped error reachable through [Unwrap]. *)
Inductive error : Type :=
| ErrTagFormat
| ErrReadData
| ErrInvalidType
| ErrWriteDataLen
| EOF
| IOError (msg : string)
| Wrapf (format : string) (inner : error).

#[global] Instance error_eq_dec : EqDecision error.
Proof. solve_decision. Defined.

(** [errors.Is err target]: [err] or an error in its [Unwrap] chain is
    [target]. *)
Fixpoint Is (err target : error) : bool :=
  if decide (err = target) then true
  else match err with
       | Wrapf _ inner => Is inner target
       | _ => false
       end.

(** The four error kinds of the package's taxonomy. *)
Definition sentinel (e : error) : bool :=
  match e with
  | ErrTagFormat | ErrReadData | ErrInvalidType | ErrWriteDataLen => true
  | _ => false
  end.

End Errors.
Export Errors.

(** ** reflect: kinds, types, values *)

Module Reflect.

(** [reflect.Kind]. *)
Inductive Kind : Set :=
| Invalid | Bool | Int | Int8 | Int16 | Int32 | Int64
| Uint | Uint8 | Uint16 | Uint32 | Uint64 | Uintptr
| Float32 | Float64 | Complex64 | Complex128
| Array | Chan | Func | Interface | Map | Pointer | Slice
| String_ | Struct | UnsafePointer.

#[global] Instance Kind_eq_dec : EqDecision Kind.
Proof. solve_decision. Defined.

(** The type of a struct field, as far as the codec looks into it: its
    kind, and for an array or a slice the kind of its elements and (for an
    array) its length. *)
Inductive rtype : Set :=
| TBasic (k : Kind)
| TArray (n : nat) (elem : Kind)
| TSlice (elem : Kind).

#[global] Instance rtype_eq_dec : EqDecision rtype.
Proof. solve_decision. Defined.

(** [t.Kind()] *)
Definition KindOf (t : rtype) : Kind :=
  match t with
  | TBasic k => k
  | TArray _ _ => Array
  | TSlice _ => Slice
  end.

(** [t.Elem().Kind()]; the codec calls it on arrays and slices only. *)
Definition ElemKind (t : rtype) : Kind :=
  match t with
  | TBasic _ => Invalid
  | TArray _ e => e
  | TSlice e => e
  end.

(** [reflect.StructField]: [PkgPath] is empty exactly for an exported
    field; [Tag] is [field.Tag.Get(FieldTagName)], the value of the
    [structraw] key of the struct tag; [Index] is the position of the field
    in the struct. *)
Record StructField : Set := mkField {
  Name : string;
  PkgPath : string;
  Type_ : rtype;
  Tag : string;
}.

#[global] Instance StructField_eq_dec : EqDecision StructField.
Proof. solve_decision. Defined.

(** A struct type is the sequence of its fields in declaration order:
    [typ.NumField()] is its length and [typ.Field(i)] its [i]-th entry. *)
Definition StructType : Set := list StructField.

Definition exported (f : StructField) : bool :=
  if decide (PkgPath f = EmptyString) then true else false.

End Reflect.
Export Reflect.

(** ** errors.go: tags *)

(** [encoding/binary.ByteOrder], as far as the codec uses it. *)
Inductive ByteOrder : Set := BigEndian | LittleEndian.

#[global] Instance ByteOrder_eq_dec : EqDecision ByteOrder.
Proof. solve_decision. Defined.

(** [strings.Split(s, sep)] for a one-byte separator: the substrings
    between the separators; an input without separator gives one
    substring, the input itself (also when it is empty). *)
Fixpoint Split (sep : ascii) (s : string) : list string :=
  match s with
  | EmptyString => [EmptyString]
  | String c rest =>
      if Ascii.eqb c sep then EmptyString :: Split sep rest
      else match Split sep rest with
           | [] => [String c EmptyString]
           | tok :: toks => String c tok :: toks
           end
  end.

Record uintOptions : Set := mkUintOptions {
  NeedEndian : bool;
  BitSize : Z;
}.

Record fieldTag : Set := mkFieldTag {
  endian : option ByteOrder;
}.

(** [x == nil] for a value of an interface or pointer type. *)
Definition isNil {A : Type} (x : option A) : bool :=
  match x with
  | None => true
  | Some _ => false
  end.

Definition parseUintOptions (kind : Kind) : option uintOptions :=
  match kind with
  | Uint8 => Some (mkUintOptions false 1)
  | Uint16 => Some (mkUintOptions true 2)
  | Uint32 => Some (mkUintOptions true 4)
  | Uint64 => Some (mkUintOptions true 8)
  | _ => None
  end.

(** A Go function returning [(p, err)] with [p] a pointer returns either
    [(p, nil)] with [p] non-nil or [(nil, err)]. *)
Inductive result (A : Type) : Type :=
| Ok (a : A)
| Err (e : error).
Arguments Ok {A} a.
Arguments Err {A} e.

(** The loop of [newFieldTag] over the tokens of the tag; [t] is the tag
    built so far. *)
Fixpoint newFieldTag_loop (fieldName : string) (ls : list string) (t : fieldTag)
  : result fieldTag :=
  match ls with
  | [] => Ok t
  | l :: ls' =>
      if decide (l = EmptyString) then newFieldTag_loop fieldName ls' t
      else if decide (l = "be" \/ l = "le") then
        if negb (isNil (endian t))
        then Err (Wrapf "%w: Endian duplicate" ErrTagFormat)
        else if decide (l = "be")
        then newFieldTag_loop fieldName ls' (mkFieldTag (Some BigEndian))
        else newFieldTag_loop fieldName ls' (mkFieldTag (Some LittleEndian))
      else Err (Wrapf "%w: field:%s tag: %s not support" ErrTagFormat)
  end.

Definition newFieldTag (fieldName tag : string) (uo : option uintOptions)
  : result fieldTag :=
  let ls := Split "," tag in
  match newFieldTag_loop fieldName ls (mkFieldTag None) with
  | Err err => Err err
  | Ok t =>
      match uo with
      | Some o =>
          if NeedEndian o && isNil (endian t)
          then Err (Wrapf "%w: Endian not found" ErrTagFormat)
          else Ok t
      | None => Ok t
      end
  end.

(** ** Bytes and fixed-width integers *)

#[global] Instance byte_eq_dec : EqDecision byte := Byte.byte_eq_dec.

(** [byte(x)]: the low eight bits of [x]. *)
Definition byte_of_Z (x : Z) : byte :=
  match Byte.of_N (Z.to_N (x mod 256)) with
  | Some b => b
  | None => x00
  end.

(** [uint64(b)] for a byte [b]. *)
Definition Z_of_byte (b : byte) : Z := Z.of_N (Byte.to_N b).

Definition uint16 (x : Z) : Z := x mod 2 ^ 16.
Definition uint32 (x : Z) : Z := x mod 2 ^ 32.
Definition uint64 (x : Z) : Z := x mod 2 ^ 64.

(** [b[i]] for a slice that is long enough. *)
Definition at_ (b : list byte) (i : nat) : Z := Z_of_byte (nth i b x00).

(** [encoding/binary]: the methods of [binary.BigEndian] and
    [binary.LittleEndian] that the codec calls.  The [Put] methods give the
    bytes they store at the front of their destination. *)
Module binary.

Definition PutUint16 (o : ByteOrder) (v : Z) : list byte :=
  match o with
  | LittleEndian => [byte_of_Z v; byte_of_Z (Z.shiftr v 8)]
  | BigEndian => [byte_of_Z (Z.shiftr v 8); byte_of_Z v]
  end.

Definition PutUint32 (o : ByteOrder) (v : Z) : list byte :=
  match o with
  | LittleEndian =>
      [byte_of_Z v; byte_of_Z (Z.shiftr v 8);
       byte_of_Z (Z.shiftr v 16); byte_of_Z (Z.shiftr v 24)]
  | BigEndian =>
      [byte_of_Z (Z.shiftr v 24); byte_of_Z (Z.shiftr v 16);
       byte_of_Z (Z.shiftr v 8); byte_of_Z v]
  end.

Definition PutUint64 (o : ByteOrder) (v : Z) : list byte :=
  match o with
  | LittleEndian =>
      [byte_of_Z v; byte_of_Z (Z.shiftr v 8);
       byte_of_Z (Z.shiftr v 16); byte_of_Z (Z.shiftr v 24);
       byte_of_Z (Z.shiftr v 32); byte_of_Z (Z.shiftr v 40);
       byte_of_Z (Z.shiftr v 48); byte_of_Z (Z.shiftr v 56)]
  | BigEndian =>
      [byte_of_Z (Z.shiftr v 56); byte_of_Z (Z.shiftr v 48);
       byte_of_Z (Z.shiftr v 40); byte_of_Z (Z.shiftr v 32);
       byte_of_Z (Z.shiftr v 24); byte_of_Z (Z.shiftr v 16);
       byte_of_Z (Z.shiftr v 8); byte_of_Z v]
  end.

Definition Uint16 (o : ByteOrder) (b : list byte) : Z :=
  match o with
  | LittleEndian => Z.lor (at_ b 0) (Z.shiftl (at_ b 1) 8)
  | BigEndian => Z.lor (at_ b 1) (Z.shiftl (at_ b 0) 8)
  end.

Definition Uint32 (o : ByteOrder) (b : list byte) : Z :=
  match o with
  | LittleEndian =>
      Z.lor (Z.lor (Z.lor (at_ b 0) (Z.shiftl (at_ b 1) 8))
                   (Z.shiftl (at_ b 2) 16))
            (Z.shiftl (at_ b 3) 24)
  | BigEndian =>
      Z.lor (Z.lor (Z.lor (at_ b 3) (Z.shiftl (at_ b 2) 8))
                   (Z.shiftl (at_ b 1) 16))
            (Z.shiftl (at_ b 0) 24)
  end.

Definition Uint64 (o : ByteOrder) (b : list byte) : Z :=
  match o with
  | LittleEndian =>
      Z.lor (Z.lor (Z.lor (Z.lor (Z.lor (Z.lor (Z.lor
        (at_ b 0) (Z.shiftl (at_ b 1) 8)) (Z.shiftl (at_ b 2) 16))
        (Z.shiftl (at_ b 3) 24)) (Z.shiftl (at_ b 4) 32))
        (Z.shiftl (at_ b 5) 40)) (Z.shiftl (at_ b 6) 48))
        (Z.shiftl (at_ b 7) 56)
  | BigEndian =>
      Z.lor (Z.lor (Z.lor (Z.lor (Z.lor (Z.lor (Z.lor
        (at_ b 7) (Z.shiftl (at_ b 6) 8)) (Z.shiftl (at_ b 5) 16))
        (Z.shiftl (at_ b 4) 24)) (Z.shiftl (at_ b 3) 32))
        (Z.shiftl (at_ b 2) 40)) (Z.shiftl (at_ b 1) 48))
        (Z.shiftl (at_ b 0) 56)
  end.

End binary.

(** ** Panics, sinks and sources *)

(** The ways a call can panic: the two explicit panics of [putUint] and
    [getUint], a panic raised by package [reflect] (a method called on a
    value of the wrong kind, [Addr] of an unaddressable value, an index
    out of range), and a run-time panic (nil dereference, slice bounds). *)
Inductive panic : Set :=
| PanicEndian
| PanicBitSize
| PanicReflect
| PanicRuntime.

Inductive outcome (A : Type) : Type :=
| Ret (a : A)
| Panic (p : panic).
Arguments Ret {A} a.
Arguments Panic {A} p.

(** An [io.Writer]: [Write st p] is the call [w.Write(p)] in state [st];
    it gives the next state and the pair [(n, err)] that the call
    returns. *)
Record Writer : Type := mkWriter {
  wstate : Type;
  Write : wstate -> list byte -> wstate * (Z * option error);
}.

(** An [io.Reader]: [Read st k] is the call [r.Read(p)] with [len(p) = k]
    in state [st]; it gives the next state, the bytes that the call stored
    at the front of [p] (their number is the [n] it returns) and the error
    it returns. *)
Record Reader : Type := mkReader {
  rstate : Type;
  Read : rstate -> nat -> rstate * (list byte * option error);
}.

(** [bytes.Buffer] as a sink: [Write] appends all of [p]. *)
Definition BufferWriter : Writer :=
  {| wstate := list byte;
     Write := fun buf p => (buf ++ p, (Z.of_nat (length p), None)) |}.

(** [bytes.Buffer] as a source: the state is the unread part.  [Read] on
    an empty buffer returns [io.EOF], unless [len(p)] is zero; otherwise
    it hands out as many bytes as are there and fit. *)
Definition BufferReader : Reader :=
  {| rstate := list byte;
     Read := fun buf k =>
       match buf with
       | [] => match k with
               | O => ([], ([], None))
               | S _ => ([], ([], Some EOF))
               end
       | _ :: _ => (drop k buf, (take k buf, None))
       end |}.

(** ** errors.go: [putUint] and [getUint] *)

(** [p] stored at the front of the array [b]. *)
Definition store (p b : list byte) : list byte := p ++ drop (length p) b.

Definition putUint (ui : Z) (endian : option ByteOrder) (bitSize : Z)
    (W : Writer) (w : wstate W) : outcome (Z * option error) * wstate W :=
  if (1 <? bitSize) && isNil endian then (Panic PanicEndian, w)
  else
    let b := repeat x00 8 in
    let filled : outcome (list byte) :=
      if bitSize =? 1 then Ret (store [byte_of_Z ui] b)
      else if bitSize =? 2 then
        match endian with
        | Some o => Ret (store (binary.PutUint16 o (uint16 ui)) b)
        | None => Panic PanicRuntime
        end
      else if bitSize =? 4 then
        match endian with
        | Some o => Ret (store (binary.PutUint32 o (uint32 ui)) b)
        | None => Panic PanicRuntime
        end
      else if bitSize =? 8 then
        match endian with
        | Some o => Ret (store (binary.PutUint64 o ui) b)
        | None => Panic PanicRuntime
        end
      else Panic PanicBitSize in
    match filled with
    | Panic p => (Panic p, w)
    | Ret b =>
        let '(w', (n, err)) := Write W w (take (Z.to_nat bitSize) b) in
        match err with
        | Some e => (Ret (0, Some (Wrapf "write data error:%w" e)), w')
        | None =>
            if negb (n =? bitSize)
            then (Ret (0, Some (Wrapf "%w:write data len[%d] not equal to bit size[%d]"
                                      ErrWriteDataLen)), w')
            else (Ret (n, None), w')
        end
    end.

(** [getUint] returns [(value, n, err)]. *)
Definition getUint (endian : option ByteOrder) (bitSize : Z)
    (R : Reader) (r : rstate R) : outcome (Z * Z * option error) * rstate R :=
  if (1 <? bitSize) && isNil endian then (Panic PanicEndian, r)
  else if (bitSize <? 0) || (8 <? bitSize) then (Panic PanicRuntime, r)
  else
    let '(r', (b, err)) := Read R r (Z.to_nat bitSize) in
    let n := Z.of_nat (length b) in
    match err with
    | Some e => (Ret (0, 0, Some (Wrapf "read data error:%w" e)), r')
    | None =>
        if negb (n =? bitSize)
        then (Ret (0, 0, Some (Wrapf "%w:read bit size[%d] not equal to bit size[%d]"
                                     ErrReadData)), r')
        else if bitSize =? 1 then (Ret (at_ b 0, bitSize, None), r')
        else if bitSize =? 2 then
          match endian with
          | Some o => (Ret (binary.Uint16 o b, bitSize, None), r')
          | None => (Panic PanicRuntime, r')
          end
        else if bitSize =? 4 then
          match endian with
          | Some o => (Ret (binary.Uint32 o b, bitSize, None), r')
          | None => (Panic PanicRuntime, r')
          end
        else if bitSize =? 8 then
          match endian with
          | Some o => (Ret (binary.Uint64 o b, bitSize, None), r')
          | None => (Panic PanicRuntime, r')
          end
        else (Panic PanicBitSize, r')
    end.

(** ** reflect: values *)

(** What a field holds: an unsigned integer, the bytes of a byte array or
    byte slice, a sequence of other elements (only its length matters to
    the codec), or something the codec never looks into. *)
Inductive data : Set :=
| DUint (u : Z)
| DBytes (b : list byte)
| DSeq (n : nat)
| DOpaque.

#[global] Instance data_eq_dec : EqDecision data.
Proof. solve_decision. Defined.

(** A [reflect.Value] for a field: its type, what it holds, and whether it
    is addressable. *)
Record Value : Set := mkValue {
  vtype : rtype;
  vdata : data;
  CanAddr : bool;
}.

(** A [reflect.Value] of kind [Struct]: a field is addressable iff the
    struct is, that is iff it was reached through a pointer. *)
Record StructValue : Set := mkStruct {
  stype : StructType;
  sfields : list data;
  saddr : bool;
}.

(** [value.FieldByIndex(field.Index)], for the one-element index of a
    direct field. *)
Definition FieldByIndex (value : StructValue) (index : nat) : outcome Value :=
  match stype value !! index, sfields value !! index with
  | Some f, Some d => Ret (mkValue (Type_ f) d (saddr value))
  | _, _ => Panic PanicReflect
  end.

(** [v.Uint()] *)
Definition Value_Uint (v : Value) : outcome Z :=
  match vdata v with
  | DUint u => Ret u
  | _ => Panic PanicReflect
  end.

(** [v.Len()]: the length of an array is part of its type. *)
Definition Value_Len (v : Value) : outcome Z :=
  match vtype v, vdata v with
  | TArray n _, _ => Ret (Z.of_nat n)
  | TSlice _, DBytes b => Ret (Z.of_nat (length b))
  | TSlice _, DSeq n => Ret (Z.of_nat n)
  | _, _ => Panic PanicReflect
  end.

(** [v.Bytes()] *)
Definition Value_Bytes (v : Value) : outcome (list byte) :=
  match vdata v with
  | DBytes b => Ret b
  | _ => Panic PanicReflect
  end.

(** [v.SetUint(x)]: the value must be assignable; [x] is cut to the
    width of the kind. *)
Definition Value_SetUint (v : Value) (x : Z) : outcome Value :=
  if negb (CanAddr v) then Panic PanicReflect
  else match KindOf (vtype v) with
       | Uint8 => Ret (mkValue (vtype v) (DUint (x mod 2 ^ 8)) (CanAddr v))
       | Uint16 => Ret (mkValue (vtype v) (DUint (uint16 x)) (CanAddr v))
       | Uint32 => Ret (mkValue (vtype v) (DUint (uint32 x)) (CanAddr v))
       | Uint64 | Uint | Uintptr =>
           Ret (mkValue (vtype v) (DUint (uint64 x)) (CanAddr v))
       | _ => Panic PanicReflect
       end.

(** [v.SetBytes(b)] *)
Definition Value_SetBytes (v : Value) (b : list byte) : outcome Value :=
  if negb (CanAddr v) then Panic PanicReflect
  else match vtype v with
       | TSlice Uint8 => Ret (mkValue (vtype v) (DBytes b) (CanAddr v))
       | _ => Panic PanicReflect
       end.

(** [valueByteArrayToByteSlice]: a slice over the storage of a byte array.
    [value.Index(0)] panics on an array of length zero and [Addr] panics on
    a value that is not addressable. *)
Definition valueByteArrayToByteSlice (value : Value) : outcome (list byte) :=
  match Value_Len value with
  | Panic p => Panic p
  | Ret len =>
      if len =? 0 then Panic PanicReflect
      else if negb (CanAddr value) then Panic PanicReflect
      else match vdata value with
           | DBytes b => Ret b
           | _ => Panic PanicReflect
           end
  end.

(** [copy(valueByteArrayToByteSlice(v), b)]: the array holds [b]
    afterwards ([b] has the length of the array). *)
Definition copyToByteArray (v : Value) (b : list byte) : outcome Value :=
  match valueByteArrayToByteSlice v with
  | Panic p => Panic p
  | Ret dst => Ret (mkValue (vtype v) (DBytes (store (take (length dst) b) dst)) (CanAddr v))
  end.

(** ** errors.go: field operations *)

Definition marshalFunc : Type :=
  forall W : Writer, Value -> wstate W -> outcome (Z * option error) * wstate W.

(** A decoding operation also gives the field as it is after the call. *)
Definition unmarshalFunc : Type :=
  forall R : Reader, Value -> rstate R ->
    outcome (Z * option error) * rstate R * Value.

Record fieldMarshaler : Type := mkFieldMarshaler {
  fm_field : StructField;
  fm_tag : fieldTag;
  fm_marshalFunc : marshalFunc;
}.

Record fieldUnmarshaler : Type := mkFieldUnmarshaler {
  fu_field : StructField;
  fu_tag : fieldTag;
  fu_unmarshalFunc : unmarshalFunc;
}.

(** The closure that [newMarshalFunc] returns for an integer field. *)
Definition marshalUint (uo : option uintOptions) (tag : fieldTag) : marshalFunc :=
  fun W v w =>
    match Value_Uint v with
    | Panic p => (Panic p, w)
    | Ret ui =>
        match uo with
        | None => (Panic PanicRuntime, w)
        | Some o => putUint ui (endian tag) (BitSize o) W w
        end
    end.

(** The closure that [newMarshalFunc] returns for a byte array or a byte
    slice. *)
Definition marshalBytes (field : StructField) : marshalFunc :=
  fun W v w =>
    let p := if decide (KindOf (Type_ field) = Array)
             then valueByteArrayToByteSlice v
             else Value_Bytes v in
    match p with
    | Panic pn => (Panic pn, w)
    | Ret p =>
        let '(w', (n, err)) := Write W w p in
        match err with
        | Some e => (Ret (0, Some e), w')
        | None =>
            match Value_Len v with
            | Panic pn => (Panic pn, w')
            | Ret len =>
                if negb (n =? len)
                then (Ret (0, Some (Wrapf "%w:write data len[%d] not equal to data len[%d]"
                                          ErrWriteDataLen)), w')
                else (Ret (n, None), w')
            end
        end
    end.

Definition errNotSupport : error :=
  Wrapf "%w: field:%s kind:%s not support" ErrInvalidType.

Definition newMarshalFunc (field : StructField) (uo : option uintOptions)
    (tag : fieldTag) : result marshalFunc :=
  match KindOf (Type_ field) with
  | Uint8 | Uint16 | Uint32 | Uint64 => Ok (marshalUint uo tag)
  | Array | Slice =>
      if negb (bool_decide (ElemKind (Type_ field) = Uint8))
      then Err errNotSupport
      else Ok (marshalBytes field)
  | _ => Err errNotSupport
  end.

Definition newFieldMarshaler (field : StructField) : result fieldMarshaler :=
  let uo := parseUintOptions (KindOf (Type_ field)) in
  match newFieldTag (Name field) (Tag field) uo with
  | Err err => Err err
  | Ok tag =>
      match newMarshalFunc field uo tag with
      | Err err => Err err
      | Ok f => Ok (mkFieldMarshaler field tag f)
      end
  end.

(** The closure that [newUnmarshalFunc] returns for an integer field. *)
Definition unmarshalUint (uo : option uintOptions) (tag : fieldTag) : unmarshalFunc :=
  fun R v r =>
    match uo with
    | None => (Panic PanicRuntime, r, v)
    | Some o =>
        match getUint (endian tag) (BitSize o) R r with
        | (Panic p, r') => (Panic p, r', v)
        | (Ret (_, _, Some err), r') => (Ret (0, Some err), r', v)
        | (Ret (u, n, None), r') =>
            match Value_SetUint v u with
            | Panic p => (Panic p, r', v)
            | Ret v' => (Ret (n, None), r', v')
            end
        end
    end.

(** The closure that [newUnmarshalFunc] returns for a byte array or a
    byte slice. *)
Definition unmarshalBytes (field : StructField) : unmarshalFunc :=
  fun R v r =>
    match Value_Len v with
    | Panic p => (Panic p, r, v)
    | Ret len =>
        let '(r', (b, err)) := Read R r (Z.to_nat len) in
        let n := Z.of_nat (length b) in
        match err with
        | Some e => (Ret (0, Some e), r', v)
        | None =>
            if negb (n =? len) then (Ret (0, Some ErrReadData), r', v)
            else
              let set := if decide (KindOf (Type_ field) = Array)
                         then copyToByteArray v b
                         else Value_SetBytes v b in
              match set with
              | Panic p => (Panic p, r', v)
              | Ret v' =>
                  match Value_Len v' with
                  | Panic p => (Panic p, r', v')
                  | Ret len' => (Ret (len', None), r', v')
                  end
              end
        end
    end.

Definition newUnmarshalFunc (field : StructField) (uo : option uintOptions)
    (tag : fieldTag) : result unmarshalFunc :=
  match KindOf (Type_ field) with
  | Uint8 | Uint16 | Uint32 | Uint64 => Ok (unmarshalUint uo tag)
  | Array | Slice =>
      if negb (bool_decide (ElemKind (Type_ field) = Uint8))
      then Err errNotSupport
      else Ok (unmarshalBytes field)
  | _ => Err errNotSupport
  end.

Definition newFieldUnmarshaler (field : StructField) : result fieldUnmarshaler :=
  let uo := parseUintOptions (KindOf (Type_ field)) in
  match newFieldTag (Name field) (Tag field) uo with
  | Err err => Err err
  | Ok tag =>
      match newUnmarshalFunc field uo tag with
      | Err err => Err err
      | Ok f => Ok (mkFieldUnmarshaler field tag f)
      end
  end.

(** ** serializer.go: plans *)

Record marshaler : Type := mkMarshaler {
  m_fieldIndex : list nat;
  m_fieldMarshaler : list fieldMarshaler;
}.

Record unmarshaler : Type := mkUnmarshaler {
  u_fieldIndex : list nat;
  u_fieldUnmarshaler : list fieldUnmarshaler;
}.

(** The loop of [newMarshaler]: [fields] are the fields from position [i]
    on, [mc] is the plan built so far. *)
Fixpoint newMarshaler_loop (fields : list StructField) (i : nat) (mc : marshaler)
  : result marshaler :=
  match fields with
  | [] => Ok mc
  | field :: rest =>
      if negb (bool_decide (PkgPath field = EmptyString))
      then newMarshaler_loop rest (S i) mc
      else match newFieldMarshaler field with
           | Err err => Err err
           | Ok fm =>
               newMarshaler_loop rest (S i)
                 (mkMarshaler (m_fieldIndex mc ++ [i]) (m_fieldMarshaler mc ++ [fm]))
           end
  end.

Definition newMarshaler (typ : StructType) : result marshaler :=
  newMarshaler_loop typ 0%nat (mkMarshaler [] []).

Fixpoint newUnmarshaler_loop (fields : list StructField) (i : nat) (uc : unmarshaler)
  : result unmarshaler :=
  match fields with
  | [] => Ok uc
  | field :: rest =>
      if negb (bool_decide (PkgPath field = EmptyString))
      then newUnmarshaler_loop rest (S i) uc
      else match newFieldUnmarshaler field with
           | Err err => Err err
           | Ok fu =>
               newUnmarshaler_loop rest (S i)
                 (mkUnmarshaler (u_fieldIndex uc ++ [i]) (u_fieldUnmarshaler uc ++ [fu]))
           end
  end.

Definition newUnmarshaler (typ : StructType) : result unmarshaler :=
  newUnmarshaler_loop typ 0%nat (mkUnmarshaler [] []).

(** The loop of [marshaler.marshal]: [idx] is what is left of
    [mc.fieldIndex], [i] the position reached in it and [n] the bytes
    counted so far. *)
Fixpoint marshal_loop (mc : marshaler) (value : StructValue) (W : Writer)
    (idx : list nat) (i : nat) (n : Z) (w : wstate W)
  : outcome (Z * option error) * wstate W :=
  match idx with
  | [] => (Ret (n, None), w)
  | index :: rest =>
      match m_fieldMarshaler mc !! i with
      | None => (Panic PanicRuntime, w)
      | Some fm =>
          match FieldByIndex value index with
          | Panic p => (Panic p, w)
          | Ret fv =>
              match fm_marshalFunc fm W fv w with
              | (Panic p, w') => (Panic p, w')
              | (Ret (_, Some err), w') => (Ret (0, Some err), w')
              | (Ret (num, None), w') =>
                  marshal_loop mc value W rest (S i) (n + num) w'
              end
          end
      end
  end.

Definition marshaler_marshal (mc : marshaler) (value : StructValue) (W : Writer)
    (w : wstate W) : outcome (Z * option error) * wstate W :=
  marshal_loop mc value W (m_fieldIndex mc) 0%nat 0 w.

(** The loop of [unmarshaler.unmarshal]; [fs] is the record's field storage,
    which the field operations update in place. *)
Fixpoint unmarshal_loop (uc : unmarshaler) (typ : StructType) (R : Reader)
    (idx : list nat) (i : nat) (n : Z) (r : rstate R) (fs : list data)
  : outcome (Z * option error) * rstate R * list data :=
  match idx with
  | [] => (Ret (n, None), r, fs)
  | index :: rest =>
      match u_fieldUnmarshaler uc !! i with
      | None => (Panic PanicRuntime, r, fs)
      | Some fu =>
          match FieldByIndex (mkStruct typ fs true) index with
          | Panic p => (Panic p, r, fs)
          | Ret fv =>
              match fu_unmarshalFunc fu R fv r with
              | (Panic p, r', fv') => (Panic p, r', <[index := vdata fv']> fs)
              | (Ret (_, Some err), r', fv') =>
                  (Ret (0, Some err), r', <[index := vdata fv']> fs)
              | (Ret (num, None), r', fv') =>
                  unmarshal_loop uc typ R rest (S i) (n + num) r'
                    (<[index := vdata fv']> fs)
              end
          end
      end
  end.

Definition unmarshaler_unmarshal (uc : unmarshaler) (typ : StructType)
    (R : Reader) (r : rstate R) (fs : list data)
  : outcome (Z * option error) * rstate R * list data :=
  unmarshal_loop uc typ R (u_fieldIndex uc) 0%nat 0 r fs.

(** ** serializer.go: [SafeMap] *)

(** [SafeMap[K, V]]: every method runs under the map's mutex, so each is
    one atomic step on the map it guards. *)
Module SafeMap.
Section SafeMap.
Context {K : Type} `{Countable K} {V : Type}.

Definition NewSafeMap : gmap K V := ∅.

(** [Load] returns [(val, ok)]; [None] is [ok = false]. *)
Definition Load (sm : gmap K V) (key : K) : option V := sm !! key.

Definition Store (sm : gmap K V) (key : K) (val : V) : gmap K V :=
  <[key := val]> sm.

(** [LoadOrStore] returns [(actual, loaded)] and leaves the map. *)
Definition LoadOrStore (sm : gmap K V) (key : K) (val : V)
  : (V * bool) * gmap K V :=
  match sm !! key with
  | Some existing => ((existing, true), sm)
  | None => ((val, false), <[key := val]> sm)
  end.
End SafeMap.
End SafeMap.

(** ** Type identity as a map key *)

(** [reflect.Type] values are comparable and serve as keys of the caches;
    the instances below make struct types usable as keys of a [gmap]. *)
Definition Kind_to_nat (k : Kind) : nat :=
  match k with
  | Invalid => 0 | Bool => 1 | Int => 2 | Int8 => 3 | Int16 => 4
  | Int32 => 5 | Int64 => 6 | Uint => 7 | Uint8 => 8 | Uint16 => 9
  | Uint32 => 10 | Uint64 => 11 | Uintptr => 12 | Float32 => 13
  | Float64 => 14 | Complex64 => 15 | Complex128 => 16 | Array => 17
  | Chan => 18 | Func => 19 | Interface => 20 | Map => 21 | Pointer => 22
  | Slice => 23 | String_ => 24 | Struct => 25 | UnsafePointer => 26
  end%nat.

Definition Kind_of_nat (n : nat) : Kind :=
  match n with
  | 0 => Invalid | 1 => Bool | 2 => Int | 3 => Int8 | 4 => Int16
  | 5 => Int32 | 6 => Int64 | 7 => Uint | 8 => Uint8 | 9 => Uint16
  | 10 => Uint32 | 11 => Uint64 | 12 => Uintptr | 13 => Float32
  | 14 => Float64 | 15 => Complex64 | 16 => Complex128 | 17 => Array
  | 18 => Chan | 19 => Func | 20 => Interface | 21 => Map | 22 => Pointer
  | 23 => Slice | 24 => String_ | 25 => Struct | _ => UnsafePointer
  end%nat.

#[global] Program Instance Kind_countable : Countable Kind :=
  inj_countable' Kind_to_nat Kind_of_nat _.
Next Obligation. intros []; reflexivity. Qed.

#[global] Program Instance rtype_countable : Countable rtype :=
  inj_countable'
    (fun t => match t with
              | TBasic k => inl k
              | TArray n e => inr (inl (n, e))
              | TSlice e => inr (inr e)
              end)
    (fun x => match x with
              | inl k => TBasic k
              | inr (inl (n, e)) => TArray n e
              | inr (inr e) => TSlice e
              end) _.
Next Obligation. intros []; reflexivity. Qed.

#[global] Program Instance StructField_countable : Countable StructField :=
  inj_countable'
    (fun f => (Name f, PkgPath f, Type_ f, Tag f))
    (fun x => match x with (n, p, t, g) => mkField n p t g end) _.
Next Obligation. intros []; reflexivity. Qed.

(** ** serializer.go: the caches and the entry points *)

(** [getMarshaler] with the cache it reads and updates. *)
Definition getMarshaler (typ : StructType) (marshalCache : gmap (list StructField) marshaler)
  : result marshaler * gmap (list StructField) marshaler :=
  match SafeMap.Load marshalCache typ with
  | Some c => (Ok c, marshalCache)
  | None =>
      match newMarshaler typ with
      | Err err => (Err err, marshalCache)
      | Ok m =>
          let '((c, _), cache') := SafeMap.LoadOrStore marshalCache typ m in
          (Ok c, cache')
      end
  end.

Definition getUnmarshaler (typ : StructType)
    (unmarshalCache : gmap (list StructField) unmarshaler)
  : result unmarshaler * gmap (list StructField) unmarshaler :=
  match SafeMap.Load unmarshalCache typ with
  | Some c => (Ok c, unmarshalCache)
  | None =>
      match newUnmarshaler typ with
      | Err err => (Err err, unmarshalCache)
      | Ok u =>
          let '((c, _), cache') := SafeMap.LoadOrStore unmarshalCache typ u in
          (Ok c, cache')
      end
  end.

(** The package function [marshal]. *)
Definition marshal (value : StructValue) (W : Writer) (w : wstate W)
    (marshalCache : gmap (list StructField) marshaler)
  : outcome (Z * option error) * wstate W * gmap (list StructField) marshaler :=
  match getMarshaler (stype value) marshalCache with
  | (Err err, cache') => (Ret (0, Some err), w, cache')
  | (Ok m, cache') =>
      let '(res, w') := marshaler_marshal m value W w in (res, w', cache')
  end.

(** The package function [unmarshal]; the record is given by its type and
    its field storage. *)
Definition unmarshal (R : Reader) (r : rstate R) (typ : StructType) (fs : list data)
    (unmarshalCache : gmap (list StructField) unmarshaler)
  : outcome (Z * option error) * rstate R * list data
    * gmap (list StructField) unmarshaler :=
  match getUnmarshaler typ unmarshalCache with
  | (Err err, cache') => (Ret (0, Some err), r, fs, cache')
  | (Ok u, cache') => (unmarshaler_unmarshal u typ R r fs, cache')
  end.

(** The argument [s interface{}] of the entry points: a struct passed by
    value, a non-nil pointer to a struct, or anything else (nil, a value
    that is no struct, a pointer to something that is no struct; [isPtr]
    says whether its kind is [Ptr]). *)
Inductive iface : Set :=
| StructVal (typ : StructType) (fs : list data)
| StructPtr (typ : StructType) (fs : list data)
| NonStruct (isPtr : bool).

Definition MarshalToWriter (s : iface) (W : Writer) (w : wstate W)
    (marshalCache : gmap (list StructField) marshaler)
  : outcome (Z * option error) * wstate W * gmap (list StructField) marshaler :=
  match s with
  | StructVal typ fs => marshal (mkStruct typ fs false) W w marshalCache
  | StructPtr typ fs => marshal (mkStruct typ fs true) W w marshalCache
  | NonStruct _ => (Ret (0, Some ErrInvalidType), w, marshalCache)
  end.

(** [Marshal] returns [(bytes, nil)] or [(nil, err)]. *)
Definition Marshal (s : iface) (marshalCache : gmap (list StructField) marshaler)
  : outcome (result (list byte)) * gmap (list StructField) marshaler :=
  match MarshalToWriter s BufferWriter [] marshalCache with
  | (Panic p, _, cache') => (Panic p, cache')
  | (Ret (_, Some err), _, cache') => (Ret (Err err), cache')
  | (Ret (_, None), bb, cache') => (Ret (Ok bb), cache')
  end.

(** [UnmarshalFromReader] also gives the record [s] points to as it is
    after the call ([s] itself when it is no pointer to a struct). *)
Definition UnmarshalFromReader (R : Reader) (r : rstate R) (s : iface)
    (unmarshalCache : gmap (list StructField) unmarshaler)
  : outcome (Z * option error) * rstate R * iface
    * gmap (list StructField) unmarshaler :=
  match s with
  | StructPtr typ fs =>
      let '(res, r', fs', cache') := unmarshal R r typ fs unmarshalCache in
      (res, r', StructPtr typ fs', cache')
  | _ => (Ret (0, Some ErrInvalidType), r, s, unmarshalCache)
  end.

Definition Unmarshal (data_ : list byte) (s : iface)
    (unmarshalCache : gmap (list StructField) unmarshaler)
  : outcome (option error) * iface * gmap (list StructField) unmarshaler :=
  match UnmarshalFromReader BufferReader data_ s unmarshalCache with
  | (Panic p, _, s', cache') => (Panic p, s', cache')
  | (Ret (_, err), _, s', cache') => (Ret err, s', cache')
  end.

(** ** struct_len.go *)

Definition fieldLen (field : StructField) (value : Value)
  : outcome (Z * option error) :=
  match KindOf (Type_ field) with
  | Uint8 => Ret (1, None)
  | Uint16 => Ret (2, None)
  | Uint32 => Ret (4, None)
  | Uint64 => Ret (8, None)
  | Array | Slice =>
      match Value_Len value with
      | Panic p => Panic p
      | Ret l => Ret (l, None)
      end
  | _ => Ret (0, Some (Wrapf "%w: field:%s type kind:%s not support" ErrInvalidType))
  end.

(** The loop of [structLen]: [fields] are the fields from position [i] on
    and [fl] the length counted so far. *)
Fixpoint structLen_loop (value : StructValue) (fields : list StructField)
    (i : nat) (fl : Z) : outcome (Z * option error) :=
  match fields with
  | [] => Ret (fl, None)
  | field :: rest =>
      if negb (bool_decide (PkgPath field = EmptyString))
      then structLen_loop value rest (S i) fl
      else match FieldByIndex value i with
           | Panic p => Panic p
           | Ret fv =>
               match fieldLen field fv with
               | Panic p => Panic p
               | Ret (_, Some err) => Ret (0, Some err)
               | Ret (l, None) => structLen_loop value rest (S i) (fl + l)
               end
           end
  end.

Definition structLen (value : StructValue) : outcome (Z * option error) :=
  structLen_loop value (stype value) 0%nat 0.

Definition StructLen (s : iface) : outcome (Z * option error) :=
  match s with
  | StructVal typ fs => structLen (mkStruct typ fs false)
  | StructPtr typ fs => structLen (mkStruct typ fs true)
  | NonStruct _ => Ret (0, Some ErrInvalidType)
  end.

(** ** errors.go: [marshalField] and [unmarshalField] *)

Definition marshalField (field : StructField) (value : Value) (W : Writer)
    (w : wstate W) : outcome (Z * option error) * wstate W :=
  match newFieldMarshaler field with
  | Err err => (Ret (0, Some err), w)
  | Ok marshaller => fm_marshalFunc marshaller W value w
  end.

Definition unmarshalField (field : StructField) (value : Value) (R : Reader)
    (r : rstate R) : outcome (Z * option error) * rstate R * Value :=
  match newFieldUnmarshaler field with
  | Err err => (Ret (0, Some err), r, value)
  | Ok unmarshaler => fu_unmarshalFunc unmarshaler R value r
  end.

(** ** Vocabulary of the properties *)

(** *** Types and well-typed records *)

(** The field types the codec has an operation for. *)
Definition supported (t : rtype) : bool :=
  match KindOf t with
  | Uint8 | Uint16 | Uint32 | Uint64 => true
  | Array | Slice => bool_decide (ElemKind t = Uint8)
  | _ => false
  end.

(** What a field of type [t] can hold: Go's type system guarantees it of
    every value the codec is handed. *)
Definition has_type (t : rtype) (d : data) : Prop :=
  match t, d with
  | TBasic Uint8, DUint u => 0 <= u < 2 ^ 8
  | TBasic Uint16, DUint u => 0 <= u < 2 ^ 16
  | TBasic Uint32, DUint u => 0 <= u < 2 ^ 32
  | TBasic (Uint64 | Uint | Uintptr), DUint u => 0 <= u < 2 ^ 64
  | TBasic (Uint8 | Uint16 | Uint32 | Uint64 | Uint | Uintptr | Array | Slice), _ => False
  | TBasic _, DOpaque => True
  | TArray n Uint8, DBytes b => length b = n
  | TSlice Uint8, DBytes _ => True
  | TArray _ Uint8, _ | TSlice Uint8, _ => False
  | TArray n _, DSeq m => m = n
  | TSlice _, DSeq _ => True
  | _, _ => False
  end.

(** A record of struct type [typ]: one well-typed entry per field. *)
Definition has_struct_type (typ : StructType) (fs : list data) : Prop :=
  Forall2 (fun f d => has_type (Type_ f) d) typ fs.

(** Two field contents of the same size: the same number of bytes or of
    elements for sequences. *)
Definition same_size (src dst : data) : Prop :=
  match src, dst with
  | DUint _, DUint _ => True
  | DBytes a, DBytes b => length a = length b
  | DSeq n, DSeq m => n = m
  | DOpaque, DOpaque => True
  | _, _ => False
  end.

(** The destination [dst] is sized like the source [src]. *)
Definition presized (src dst : list data) : Prop := Forall2 same_size src dst.

(** The struct value an argument of the entry points denotes: what
    [MarshalToWriter] hands to [marshal]. *)
Definition value_of (s : iface) : option StructValue :=
  match s with
  | StructVal typ fs => Some (mkStruct typ fs false)
  | StructPtr typ fs => Some (mkStruct typ fs true)
  | NonStruct _ => None
  end.

(** *** Caches *)

(** The caches are filled by [getMarshaler] and [getUnmarshaler] only: what
    they hold for a type is what the builder gives for it. *)
Definition marshalCache_ok (cache : gmap (list StructField) marshaler) : Prop :=
  forall typ m, cache !! typ = Some m -> newMarshaler typ = Ok m.

Definition unmarshalCache_ok (cache : gmap (list StructField) unmarshaler) : Prop :=
  forall typ u, cache !! typ = Some u -> newUnmarshaler typ = Ok u.

(** *** The loops of a plan, field by field *)

(** Running the plan of [typ] is running [marshalField] on the exported
    fields in declaration order: [fields] are the fields from position [i]
    on. *)
Fixpoint marshal_fields (value : StructValue) (W : Writer)
    (fields : list StructField) (i : nat) (n : Z) (w : wstate W)
  : outcome (Z * option error) * wstate W :=
  match fields with
  | [] => (Ret (n, None), w)
  | field :: rest =>
      if negb (bool_decide (PkgPath field = EmptyString))
      then marshal_fields value W rest (S i) n w
      else match FieldByIndex value i with
           | Panic p => (Panic p, w)
           | Ret fv =>
               match marshalField field fv W w with
               | (Panic p, w') => (Panic p, w')
               | (Ret (_, Some err), w') => (Ret (0, Some err), w')
               | (Ret (num, None), w') =>
                   marshal_fields value W rest (S i) (n + num) w'
               end
           end
  end.

Fixpoint unmarshal_fields (typ : StructType) (R : Reader)
    (fields : list StructField) (i : nat) (n : Z) (r : rstate R) (fs : list data)
  : outcome (Z * option error) * rstate R * list data :=
  match fields with
  | [] => (Ret (n, None), r, fs)
  | field :: rest =>
      if negb (bool_decide (PkgPath field = EmptyString))
      then unmarshal_fields typ R rest (S i) n r fs
      else match FieldByIndex (mkStruct typ fs true) i with
           | Panic p => (Panic p, r, fs)
           | Ret fv =>
               match unmarshalField field fv R r with
               | (Panic p, r', fv') => (Panic p, r', <[i := vdata fv']> fs)
               | (Ret (_, Some err), r', fv') =>
                   (Ret (0, Some err), r', <[i := vdata fv']> fs)
               | (Ret (num, None), r', fv') =>
                   unmarshal_fields typ R rest (S i) (n + num) r'
                     (<[i := vdata fv']> fs)
               end
           end
  end.


(** *** Tags *)

Definition tokens (tag : string) : list string := Split "," tag.

(** A token that names a byte order. *)
Definition isByteOrder (l : string) : bool := bool_decide (l = "be" \/ l = "le").

(** A token that is neither empty nor a byte order. *)
Definition isUnknown (l : string) : bool :=
  negb (bool_decide (l = EmptyString)) && negb (isByteOrder l).

(** How many of the tokens [ls] name a byte order. *)
Definition countByteOrders (ls : list string) : nat :=
  length (filter (fun l => isByteOrder l = true) ls).

(** How many times the tag gives a byte order. *)
Definition byteOrders (tag : string) : nat := countByteOrders (tokens tag).

(** Whether a tag under construction has its byte order set (1) or not (0). *)
Definition orderSet (t : fieldTag) : nat :=
  if isNil (endian t) then 0%nat else 1%nat.

(** The kinds that need a byte order. *)
Definition needsByteOrder (k : Kind) : bool :=
  match k with
  | Uint16 | Uint32 | Uint64 => true
  | _ => false
  end.

Definition tag_resolves (f : StructField) : bool :=
  match newFieldTag (Name f) (Tag f) (parseUintOptions (KindOf (Type_ f))) with
  | Ok _ => true
  | Err _ => false
  end.

(** *** Sinks and sources that move fewer bytes than asked *)

(** A sink that takes at most [k] bytes of each [Write] and reports how
    many it took, without an error. *)
Definition ShortWriter (k : nat) : Writer :=
  {| wstate := list byte;
     Write := fun buf p => (buf ++ take k p, (Z.of_nat (length (take k p)), None)) |}.


(** A source whose [Read] fails with the error [e]. *)
Definition FailingReader (e : error) : Reader :=
  {| rstate := list byte;
     Read := fun buf k => (buf, ([], Some e)) |}.



(** *** Concurrent calls of [getMarshaler] and [getUnmarshaler] *)

(** A call of [getMarshaler] (or [getUnmarshaler]) touches the cache in two
    atomic steps, [Load] and [LoadOrStore], each under the mutex of the
    [SafeMap]; the plan is built in between, outside of any lock.  Calls of
    several goroutines interleave at these steps. *)
Module Concurrent.
Section Concurrent.
Context {K : Type} `{Countable K} {V : Type}.
(** [newMarshaler] or [newUnmarshaler] *)
Variable build : K -> result V.

(** Where a call is: not started, past a [Load] that missed with the
    candidate it built, or returned. *)
Inductive call : Type :=
| Idle
| Candidate (m : V)
| Returned (r : result V).

(** The next atomic step of a call for [key]. *)
Definition step_call (key : K) (c : call) (sm : gmap K V) : call * gmap K V :=
  match c with
  | Idle =>
      match SafeMap.Load sm key with
      | Some v => (Returned (Ok v), sm)
      | None =>
          match build key with
          | Err err => (Returned (Err err), sm)
          | Ok m => (Candidate m, sm)
          end
      end
  | Candidate m =>
      let '((c, _), sm') := SafeMap.LoadOrStore sm key m in
      (Returned (Ok c), sm')
  | Returned r => (Returned r, sm)
  end.

(** A call run to its end without interference. *)
Definition run_call (key : K) (sm : gmap K V) : result V * gmap K V :=
  match step_call key Idle sm with
  | (Returned r, sm') => (r, sm')
  | (c, sm') =>
      match step_call key c sm' with
      | (Returned r, sm'') => (r, sm'')
      | (_, sm'') => (Err ErrInvalidType, sm'')
      end
  end.

(** The goroutines, each in a call for some key, and the cache. *)
Definition state : Type := list (K * call) * gmap K V.

(** One goroutine takes its next step. *)
Inductive step : state -> state -> Prop :=
| step_thread ts sm i key c c' sm' :
    ts !! i = Some (key, c) ->
    step_call key c sm = (c', sm') ->
    step (ts, sm) (<[i := (key, c')]> ts, sm').

(** Every call that has returned a plan returned the one the cache
    holds. *)
Definition consistent (st : state) : Prop :=
  forall i key v, st.1 !! i = Some (key, Returned (Ok v)) -> st.2 !! key = Some v.
End Concurrent.
End Concurrent.

(** ** Example records *)

(** [struct { A uint8; B uint16 `structraw:"le"` }] *)
Definition exampleAB : StructType :=
  [mkField "A" EmptyString (TBasic Uint8) EmptyString;
   mkField "B" EmptyString (TBasic Uint16) "le"].

(** [struct { A uint32 }], without byte order. *)
Definition exampleU32NoOrder : StructType :=
  [mkField "A" EmptyString (TBasic Uint32) EmptyString].




(** [struct { A []uint32 }] *)
Definition exampleSliceU32 : StructType :=
  [mkField "A" EmptyString (TSlice Uint32) EmptyString].

(** The struct of the package's test:
    [AByteArray [4]byte; AUInt8 uint8; AUInt16, AUInt32, AUInt64 with "le";
     AType (a named uint16) with "le"; AByteSlice []byte]. *)
Definition testStruct : StructType :=
  [mkField "AByteArray" EmptyString (TArray 4 Uint8) EmptyString;
   mkField "AUInt8" EmptyString (TBasic Uint8) EmptyString;
   mkField "AUInt16" EmptyString (TBasic Uint16) "le";
   mkField "AUInt32" EmptyString (TBasic Uint32) "le";
   mkField "AUInt64" EmptyString (TBasic Uint64) "le";
   mkField "AType" EmptyString (TBasic Uint16) "le";
   mkField "AByteSlice" EmptyString (TSlice Uint8) EmptyString].

Definition ts1 : list data :=
  [DBytes [x01; x02; x03; x04]; DUint 255; DUint 65280; DUint 4294901760;
   DUint 18446744069414584320; DUint 1234;
   DBytes [x0a; x0b; x0c; x0d; x0e; x0f; x10; x11; x12; x13]].

Definition ts2 : list data :=
  [DBytes [x00; x00; x00; x00]; DUint 0; DUint 0; DUint 0; DUint 0; DUint 0;
   DBytes [x00; x00; x00; x00; x00; x00; x00; x00; x00; x00]].

(** *** Integer fields *)

(** The sizes [parseUintOptions] hands to the closures. *)
Definition goodBitSize (o : uintOptions) (t : fieldTag) : Prop :=
  (BitSize o = 1 \/ BitSize o = 2 \/ BitSize o = 4 \/ BitSize o = 8) /\
  (1 < BitSize o -> isNil (endian t) = false).


(** The bytes [putUint] hands to [Write], when it gets that far. *)
Definition putUint_payload (ui : Z) (o : option ByteOrder) (bitSize : Z) : list byte :=
  take (Z.to_nat bitSize)
    (if bitSize =? 1 then store [byte_of_Z ui] (repeat x00 8)
     else match o with
          | Some o =>
              if bitSize =? 2 then store (binary.PutUint16 o (uint16 ui)) (repeat x00 8)
              else if bitSize =? 4 then store (binary.PutUint32 o (uint32 ui)) (repeat x00 8)
              else store (binary.PutUint64 o ui) (repeat x00 8)
          | None => []
          end).


(** The value [getUint] decodes from the bytes [b] it has read. *)
Definition getUint_value (o : option ByteOrder) (bitSize : Z) (b : list byte) : Z :=
  if bitSize =? 1 then at_ b 0
  else match o with
       | Some o =>
           if bitSize =? 2 then binary.Uint16 o b
           else if bitSize =? 4 then binary.Uint32 o b
           else binary.Uint64 o b
       | None => 0
       end.

(** *** Plans and the types they are built from *)

(** [plan_of fields i idx fms]: for the fields [fields], declared from
    position [i] on, [newMarshaler] adds the indices [idx] and the
    operations [fms] to the plan: one entry per exported field, in
    declaration order. *)
Inductive plan_of : list StructField -> nat -> list nat -> list fieldMarshaler -> Prop :=
| plan_nil i : plan_of [] i [] []
| plan_skip f rest i idx fms :
    PkgPath f <> EmptyString ->
    plan_of rest (S i) idx fms ->
    plan_of (f :: rest) i idx fms
| plan_field f rest i idx fms fm :
    PkgPath f = EmptyString ->
    newFieldMarshaler f = Ok fm ->
    plan_of rest (S i) idx fms ->
    plan_of (f :: rest) i (i :: idx) (fm :: fms).

Inductive uplan_of : list StructField -> nat -> list nat -> list fieldUnmarshaler -> Prop :=
| uplan_nil i : uplan_of [] i [] []
| uplan_skip f rest i idx fus :
    PkgPath f <> EmptyString ->
    uplan_of rest (S i) idx fus ->
    uplan_of (f :: rest) i idx fus
| uplan_field f rest i idx fus fu :
    PkgPath f = EmptyString ->
    newFieldUnmarshaler f = Ok fu ->
    uplan_of rest (S i) idx fus ->
    uplan_of (f :: rest) i (i :: idx) (fu :: fus).

(** The error of the first exported field of [fields] for which no
    operation can be built, if there is one. *)
Fixpoint first_error (fields : list StructField) : option error :=
  match fields with
  | [] => None
  | f :: rest =>
      if negb (bool_decide (PkgPath f = EmptyString)) then first_error rest
      else match newFieldMarshaler f with
           | Err e => Some e
           | Ok _ => first_error rest
           end
  end.

(** A struct type with an exported field the codec has no operation for. *)
Definition has_unsupported (typ : StructType) : Prop :=
  exists f, f ∈ typ /\ PkgPath f = EmptyString /\ supported (Type_ f) = false.


(** *** Struct types the codec accepts *)

(** The exported fields are of supported types and their annotations
    resolve: the types both builders accept. *)
Definition codec_type (typ : StructType) : Prop :=
  forall f, f ∈ typ -> PkgPath f = EmptyString ->
    supported (Type_ f) = true /\ tag_resolves f = true.

(** No exported field is an array of length zero. *)
Definition no_empty_array (typ : StructType) : Prop :=
  forall f, f ∈ typ -> PkgPath f = EmptyString -> forall e, Type_ f <> TArray 0 e.

(** The positions of the exported fields among [fields], which are
    declared from position [i] on. *)
Fixpoint exported_indices (fields : list StructField) (i : nat) : list nat :=
  match fields with
  | [] => []
  | f :: rest =>
      if exported f then i :: exported_indices rest (S i)
      else exported_indices rest (S i)
  end.


(** A byte array that [valueByteArrayToByteSlice] cannot make a slice of:
    it is not addressable ([a] is false), or it has no element. *)
Definition array_panics (a : bool) (t : rtype) : bool :=
  match t with
  | TArray n _ => negb a || (n =? 0)%nat
  | _ => false
  end.

(** The error of [fieldLen]. *)
Definition errLenNotSupport : error :=
  Wrapf "%w: field:%s type kind:%s not support" ErrInvalidType.

(** The kinds [fieldLen] has a case for. *)
Definition len_kind (k : Kind) : bool :=
  match k with
  | Uint8 | Uint16 | Uint32 | Uint64 | Array | Slice => true
  | _ => false
  end.

(** [struct { A uint8; hidden uint32; C uint16 `structraw:"be"` }] of a
    package [main]: the second field is not exported. *)
Definition exampleHidden : StructType :=
  [mkField "A" EmptyString (TBasic Uint8) EmptyString;
   mkField "hidden" "main" (TBasic Uint32) EmptyString;
   mkField "C" EmptyString (TBasic Uint16) "be"].

(** *** The wire format *)

(** The [n] low base-256 digits of [u], least significant first. *)
Fixpoint le_bytes (n : nat) (u : Z) : list byte :=
  match n with
  | O => []
  | S k => byte_of_Z u :: le_bytes k (u / 256)
  end.

(** The number of bytes of an unsigned integer of kind [k]. *)
Definition uint_width (k : Kind) : nat :=
  match k with
  | Uint8 => 1
  | Uint16 => 2
  | Uint32 => 4
  | Uint64 => 8
  | _ => 0
  end.

(** A field on the wire: an integer as its base-256 digits, least
    significant first when the annotation says [le] and most significant
    first otherwise; a byte array or byte slice as it is. *)
Definition wire (f : StructField) (d : data) : list byte :=
  match d with
  | DUint u =>
      if bool_decide ("le" ∈ tokens (Tag f))
      then le_bytes (uint_width (KindOf (Type_ f))) u
      else rev (le_bytes (uint_width (KindOf (Type_ f))) u)
  | DBytes b => b
  | _ => []
  end.

(** A record on the wire: its exported fields, in declaration order,
    with nothing in between. *)
Fixpoint wire_fields (typ : list StructField) (fs : list data) : list byte :=
  match typ, fs with
  | f :: typ', d :: fs' => (if exported f then wire f d else []) ++ wire_fields typ' fs'
  | _, _ => []
  end.

(** * Properties *)

Example Marshal_ts1 :
  (Marshal (StructPtr testStruct ts1) ∅).1 =
  Ret (Ok [x01; x02; x03; x04; xff; x00; xff; x00; x00; xff; xff;
           x00; x00; x00; x00; xff; xff; xff; xff; xd2; x04;
           x0a; x0b; x0c; x0d; x0e; x0f; x10; x11; x12; x13]).
Proof. vm_compute. reflexivity. Qed.

Example Unmarshal_ts1 :
  match Marshal (StructPtr testStruct ts1) ∅ with
  | (Ret (Ok b), _) => (Unmarshal b (StructPtr testStruct ts2) ∅).1
  | _ => (Panic PanicRuntime, NonStruct false)
  end = (Ret None, StructPtr testStruct ts1).
Proof. vm_compute. reflexivity. Qed.

Example StructLen_ts1 : StructLen (StructPtr testStruct ts1) = Ret (31, None).
Proof. vm_compute. reflexivity. Qed.

Example Marshal_ts1_by_value :
  (Marshal (StructVal testStruct ts1) ∅).1 = Panic PanicReflect.
Proof. vm_compute. reflexivity. Qed.

Example Split_examples :
  Split "," EmptyString = [EmptyString] /\
  Split "," "be" = ["be"] /\
  Split "," "be,le" = ["be"; "le"] /\
  Split "," "be," = ["be"; EmptyString] /\
  Split "," ",be" = [EmptyString; "be"].
Proof. repeat split. Qed.

Example newFieldTag_examples :
  newFieldTag "A" "be,le" None = Err (Wrapf "%w: Endian duplicate" ErrTagFormat) /\
  newFieldTag "A" "le,le" None = Err (Wrapf "%w: Endian duplicate" ErrTagFormat) /\
  newFieldTag "A" ",be," None = Ok (mkFieldTag (Some BigEndian)) /\
  newFieldTag "A" " be" None =
    Err (Wrapf "%w: field:%s tag: %s not support" ErrTagFormat) /\
  newFieldTag "A" EmptyString (parseUintOptions Uint32) =
    Err (Wrapf "%w: Endian not found" ErrTagFormat) /\
  newFieldTag "A" EmptyString (parseUintOptions Uint8) = Ok (mkFieldTag None).
Proof. repeat split. Qed.

Example has_type_examples :
  has_type (TBasic Uint8) (DUint 255) /\ ~ has_type (TBasic Uint8) (DUint 256) /\
  has_type (TBasic Int32) DOpaque /\ ~ has_type (TBasic Int32) (DUint 1) /\
  has_type (TArray 2 Uint8) (DBytes [x00; x01]) /\
  ~ has_type (TArray 2 Uint8) (DBytes [x00]) /\
  has_type (TSlice Uint8) (DBytes []) /\ has_type (TSlice Uint32) (DSeq 3) /\
  ~ has_type (TSlice Uint32) (DBytes []).
Proof. simpl. repeat split; try lia; try tauto; try discriminate. Qed.

(** Byte-order fidelity: [0x0102] as a [uint16]. *)
Example byte_order_fidelity :
  (putUint 258 (Some BigEndian) 2 BufferWriter []).2 = [x01; x02] /\
  (putUint 258 (Some LittleEndian) 2 BufferWriter []).2 = [x02; x01].
Proof. repeat split. Qed.

(** ** Errors *)

Lemma Is_refl (e : error) : Is e e = true.
Proof. destruct e; cbn [Is]; destruct (decide _); congruence. Qed.

Lemma Is_Wrapf_sentinel (fmt : string) (e t : error) :
  sentinel t = true -> Is (Wrapf fmt e) t = Is e t.
Proof.
  intros Ht. cbn [Is]. destruct (decide _) as [Heq|]; [|reflexivity].
  subst t. discriminate Ht.
Qed.

Lemma Is_Wrapf_inner (fmt : string) (e : error) : Is (Wrapf fmt e) e = true.
Proof. cbn [Is]. destruct (decide _); [reflexivity | apply Is_refl]. Qed.

(** ** Tags *)

Section TagLoop.

Lemma countByteOrders_cons (l : string) (ls : list string) :
  countByteOrders (l :: ls) = ((if isByteOrder l then 1 else 0) + countByteOrders ls)%nat.
Proof.
  unfold countByteOrders. rewrite filter_cons.
  destruct (isByteOrder l); destruct (decide _); simpl; congruence.
Qed.

Lemma newFieldTag_loop_spec (name : string) (ls : list string) (t : fieldTag) :
  match newFieldTag_loop name ls t with
  | Err e =>
      Is e ErrTagFormat = true /\
      (Exists (fun l => isUnknown l = true) ls \/ (2 <= countByteOrders ls + orderSet t)%nat)
  | Ok t' =>
      Forall (fun l => isUnknown l = false) ls /\
      (countByteOrders ls + orderSet t <= 1)%nat /\
      orderSet t' = (countByteOrders ls + orderSet t)%nat
  end.
Proof.
  revert t. induction ls as [|l ls IH]; intros t.
  - simpl. repeat split; [constructor | unfold orderSet; destruct (isNil _); simpl; lia].
  - cbn [newFieldTag_loop]. rewrite countByteOrders_cons.
    destruct (decide (l = EmptyString)) as [He|He].
    + assert (Hbo : isByteOrder l = false).
      { subst l. apply bool_decide_eq_false_2. intros [?|?]; discriminate. }
      assert (Hun : isUnknown l = false).
      { unfold isUnknown. rewrite (bool_decide_eq_true_2 _ He). reflexivity. }
      rewrite Hbo. specialize (IH t). destruct (newFieldTag_loop name ls t).
      * destruct IH as (HF & Hc & Hp). repeat split; [constructor|..]; auto.
      * destruct IH as (HI & [HE|Hc]); split; auto.
    + destruct (decide (l = "be" \/ l = "le")) as [Hbo|Hbo].
      * assert (Hbo' : isByteOrder l = true) by (apply bool_decide_eq_true_2; exact Hbo).
        assert (Hun : isUnknown l = false).
        { unfold isUnknown. rewrite Hbo'. apply andb_false_r. }
        rewrite Hbo'.
        destruct (isNil (endian t)) eqn:Hnil; simpl negb; cbv iota.
        -- assert (Hpre : orderSet t = 0%nat) by (unfold orderSet; rewrite Hnil; reflexivity).
           assert (HIH : forall t1, orderSet t1 = 1%nat ->
             match newFieldTag_loop name ls t1 with
             | Err e => Is e ErrTagFormat = true /\
                 (Exists (fun l0 => isUnknown l0 = true) (l :: ls) \/
                  (2 <= 1 + countByteOrders ls + orderSet t)%nat)
             | Ok t' => Forall (fun l0 => isUnknown l0 = false) (l :: ls) /\
                 (1 + countByteOrders ls + orderSet t <= 1)%nat /\
                 orderSet t' = (1 + countByteOrders ls + orderSet t)%nat
             end).
           { intros t1 Ht1. specialize (IH t1).
             destruct (newFieldTag_loop name ls t1).
             - destruct IH as (HF & Hc & Hp). rewrite Ht1 in *. rewrite Hpre.
               repeat split; [|lia|lia].
               constructor; [exact Hun|exact HF].
             - destruct IH as (HI & [HE|Hc]); split; auto.
               right. rewrite Ht1 in Hc. rewrite Hpre. lia. }
           destruct (decide (l = "be")); apply HIH; reflexivity.
        -- split; [reflexivity|]. right. unfold orderSet. rewrite Hnil. lia.
      * split; [reflexivity|]. left. constructor.
        unfold isUnknown, isByteOrder.
        rewrite (bool_decide_eq_false_2 _ He), (bool_decide_eq_false_2 _ Hbo).
        reflexivity.
Qed.
End TagLoop.

(** C4. Byte-order resolution fails, and then with [ErrTagFormat], exactly
    when the annotation has a non-empty token other than [be] and [le], or
    gives a byte order twice, or gives none for a 16-, 32- or 64-bit
    unsigned integer.  A [uint32] field with an empty annotation fails the
    construction of both plans with [ErrTagFormat]; a kind that needs no
    byte order accepts the annotations [be], [le] and the empty one. *)
Theorem C4_byte_order_resolution (name tag : string) (k : Kind) :
  ((exists e, newFieldTag name tag (parseUintOptions k) = Err e) <->
     (exists l, l ∈ tokens tag /\ isUnknown l = true) \/
     (2 <= byteOrders tag)%nat \/
     (needsByteOrder k = true /\ byteOrders tag = 0%nat)) /\
  (forall e, newFieldTag name tag (parseUintOptions k) = Err e ->
     Is e ErrTagFormat = true) /\
  (exists e, newMarshaler exampleU32NoOrder = Err e /\ Is e ErrTagFormat = true) /\
  (exists e, newUnmarshaler exampleU32NoOrder = Err e /\ Is e ErrTagFormat = true) /\
  (needsByteOrder k = false ->
   tag = EmptyString \/ tag = "be" \/ tag = "le" ->
   exists t, newFieldTag name tag (parseUintOptions k) = Ok t).
Proof.
  assert (Hloop := newFieldTag_loop_spec name (Split "," tag) (mkFieldTag None)).
  assert (Hneed : forall o, parseUintOptions k = Some o -> NeedEndian o = needsByteOrder k).
  { destruct k; simpl; intros o Ho; inversion Ho; reflexivity. }
  assert (Hnone : parseUintOptions k = None -> needsByteOrder k = false).
  { destruct k; simpl; intros Ho; try reflexivity; discriminate. }
  unfold newFieldTag, byteOrders, tokens in *.
  change (orderSet (mkFieldTag None)) with 0%nat in Hloop.
  rewrite Nat.add_0_r in Hloop.
  repeat split.
  - intros [e He].
    destruct (newFieldTag_loop name (Split "," tag) (mkFieldTag None)) as [t|e0].
    + destruct Hloop as (HF & Hc & Hp).
      destruct (parseUintOptions k) as [o|] eqn:Ho; [|discriminate].
      destruct (NeedEndian o && isNil (endian t)) eqn:Hb; [|discriminate].
      apply andb_prop in Hb as [Hb1 Hb2]. right. right.
      rewrite <- (Hneed o eq_refl). split; [exact Hb1|].
      unfold orderSet in Hp. rewrite Hb2 in Hp. lia.
    + destruct Hloop as (_ & [HE|Hc]); [left|right; left; lia].
      apply Exists_exists in HE as (l & Hin & Hl). exists l. split; assumption.
  - intros Hcase.
    destruct (newFieldTag_loop name (Split "," tag) (mkFieldTag None)) as [t|e0];
      [|eexists; reflexivity].
    destruct Hloop as (HF & Hc & Hp).
    destruct Hcase as [(l & Hin & Hl)|[H2|[Hk H0]]].
    + rewrite Forall_forall in HF.
      rewrite (HF l Hin) in Hl. discriminate.
    + lia.
    + destruct (parseUintOptions k) as [o|] eqn:Ho.
      * rewrite (Hneed o eq_refl), Hk. unfold orderSet in Hp. rewrite H0 in Hp.
        destruct (isNil (endian t)); [eexists; reflexivity | discriminate].
      * rewrite (Hnone eq_refl) in Hk. discriminate.
  - intros e He.
    destruct (newFieldTag_loop name (Split "," tag) (mkFieldTag None)) as [t|e0].
    + destruct (parseUintOptions k) as [o|]; [|discriminate].
      destruct (NeedEndian o && isNil (endian t)); inversion He. reflexivity.
    + inversion He; subst. apply Hloop.
  - eexists. split; reflexivity.
  - eexists. split; reflexivity.
  - intros Hk Htag.
    destruct (parseUintOptions k) as [o|] eqn:Ho.
    + pose proof (Hneed o eq_refl) as Hn. rewrite Hk in Hn.
      destruct Htag as [-> | [-> | ->]]; simpl; rewrite Hn; eexists; reflexivity.
    + destruct Htag as [-> | [-> | ->]]; simpl; eexists; reflexivity.
Qed.

(** ** Field operations *)

Lemma newFieldTag_endian (name tag : string) (o : uintOptions) (t : fieldTag) :
  newFieldTag name tag (Some o) = Ok t ->
  NeedEndian o = true -> isNil (endian t) = false.
Proof.
  unfold newFieldTag. intros Hok Hneed.
  destruct (newFieldTag_loop _ _ _) as [t0|]; [|discriminate].
  rewrite Hneed in Hok. simpl in Hok.
  destruct (isNil (endian t0)) eqn:Hnil; [discriminate|].
  inversion Hok; subst. exact Hnil.
Qed.

Lemma parseUintOptions_good (k : Kind) (name tag : string) (o : uintOptions)
    (t : fieldTag) :
  parseUintOptions k = Some o ->
  newFieldTag name tag (Some o) = Ok t ->
  goodBitSize o t.
Proof.
  intros Ho Ht.
  destruct k; simpl in Ho; inversion Ho; subst o; split; simpl; try lia;
    intros _; try lia; exact (newFieldTag_endian _ _ _ _ Ht eq_refl).
Qed.

(** What [newFieldMarshaler] builds: the integer closure, with a size and a
    byte order that fit, or the byte-sequence closure. *)
Lemma newFieldMarshaler_inv (f : StructField) (fm : fieldMarshaler) :
  newFieldMarshaler f = Ok fm ->
  (exists o, parseUintOptions (KindOf (Type_ f)) = Some o /\
             goodBitSize o (fm_tag fm) /\
             fm_marshalFunc fm = marshalUint (Some o) (fm_tag fm)) \/
  (parseUintOptions (KindOf (Type_ f)) = None /\
   (KindOf (Type_ f) = Array \/ KindOf (Type_ f) = Slice) /\
   ElemKind (Type_ f) = Uint8 /\
   fm_marshalFunc fm = marshalBytes f).
Proof.
  unfold newFieldMarshaler, newMarshalFunc. intros H.
  destruct (newFieldTag _ _ _) as [t|] eqn:Ht; [|discriminate].
  destruct (KindOf (Type_ f)) eqn:Hk; try discriminate.
  1-4: left; eexists; split; [reflexivity|].
  1-4: inversion H; subst fm; simpl; split; [|reflexivity].
  - exact (parseUintOptions_good Uint8 _ _ _ _ eq_refl Ht).
  - exact (parseUintOptions_good Uint16 _ _ _ _ eq_refl Ht).
  - exact (parseUintOptions_good Uint32 _ _ _ _ eq_refl Ht).
  - exact (parseUintOptions_good Uint64 _ _ _ _ eq_refl Ht).
  - right. destruct (bool_decide (ElemKind (Type_ f) = Uint8)) eqn:He;
      simpl in H; [|discriminate]. apply bool_decide_eq_true in He.
    inversion H; subst fm; simpl; auto.
  - right. destruct (bool_decide (ElemKind (Type_ f) = Uint8)) eqn:He;
      simpl in H; [|discriminate]. apply bool_decide_eq_true in He.
    inversion H; subst fm; simpl; auto.
Qed.

Lemma newFieldUnmarshaler_inv (f : StructField) (fm : fieldUnmarshaler) :
  newFieldUnmarshaler f = Ok fm ->
  (exists o, parseUintOptions (KindOf (Type_ f)) = Some o /\
             goodBitSize o (fu_tag fm) /\
             fu_unmarshalFunc fm = unmarshalUint (Some o) (fu_tag fm)) \/
  (parseUintOptions (KindOf (Type_ f)) = None /\
   (KindOf (Type_ f) = Array \/ KindOf (Type_ f) = Slice) /\
   ElemKind (Type_ f) = Uint8 /\
   fu_unmarshalFunc fm = unmarshalBytes f).
Proof.
  unfold newFieldUnmarshaler, newUnmarshalFunc. intros H.
  destruct (newFieldTag _ _ _) as [t|] eqn:Ht; [|discriminate].
  destruct (KindOf (Type_ f)) eqn:Hk; try discriminate.
  1-4: left; eexists; split; [reflexivity|].
  1-4: inversion H; subst fm; simpl; split; [|reflexivity].
  - exact (parseUintOptions_good Uint8 _ _ _ _ eq_refl Ht).
  - exact (parseUintOptions_good Uint16 _ _ _ _ eq_refl Ht).
  - exact (parseUintOptions_good Uint32 _ _ _ _ eq_refl Ht).
  - exact (parseUintOptions_good Uint64 _ _ _ _ eq_refl Ht).
  - right. destruct (bool_decide (ElemKind (Type_ f) = Uint8)) eqn:He;
      simpl in H; [|discriminate]. apply bool_decide_eq_true in He.
    inversion H; subst fm; simpl; auto.
  - right. destruct (bool_decide (ElemKind (Type_ f) = Uint8)) eqn:He;
      simpl in H; [|discriminate]. apply bool_decide_eq_true in He.
    inversion H; subst fm; simpl; auto.
Qed.

Lemma putUint_good (ui : Z) (en : option ByteOrder) (bitSize : Z) (W : Writer)
    (w : wstate W) :
  (bitSize = 1 \/ bitSize = 2 \/ bitSize = 4 \/ bitSize = 8) ->
  (1 < bitSize -> isNil en = false) ->
  Z.of_nat (length (putUint_payload ui en bitSize)) = bitSize /\
  putUint ui en bitSize W w =
    let '(w', (n, err)) := Write W w (putUint_payload ui en bitSize) in
    match err with
    | Some e => (Ret (0, Some (Wrapf "write data error:%w" e)), w')
    | None =>
        if negb (n =? bitSize)
        then (Ret (0, Some (Wrapf "%w:write data len[%d] not equal to bit size[%d]"
                                  ErrWriteDataLen)), w')
        else (Ret (n, None), w')
    end.
Proof.
  intros Hsz Hen. unfold putUint, putUint_payload.
  destruct Hsz as [-> | [-> | [-> | ->]]].
  - split; [reflexivity|]. simpl. reflexivity.
  - specialize (Hen ltac:(lia)). destruct en as [o|]; [|discriminate].
    split; [destruct o; reflexivity|]. reflexivity.
  - specialize (Hen ltac:(lia)). destruct en as [o|]; [|discriminate].
    split; [destruct o; reflexivity|]. reflexivity.
  - specialize (Hen ltac:(lia)). destruct en as [o|]; [|discriminate].
    split; [destruct o; reflexivity|]. reflexivity.
Qed.

Lemma getUint_good (en : option ByteOrder) (bitSize : Z) (R : Reader)
    (r : rstate R) :
  (bitSize = 1 \/ bitSize = 2 \/ bitSize = 4 \/ bitSize = 8) ->
  (1 < bitSize -> isNil en = false) ->
  getUint en bitSize R r =
    let '(r', (b, err)) := Read R r (Z.to_nat bitSize) in
    match err with
    | Some e => (Ret (0, 0, Some (Wrapf "read data error:%w" e)), r')
    | None =>
        if negb (Z.of_nat (length b) =? bitSize)
        then (Ret (0, 0, Some (Wrapf "%w:read bit size[%d] not equal to bit size[%d]"
                                     ErrReadData)), r')
        else (Ret (getUint_value en bitSize b, bitSize, None), r')
    end.
Proof.
  intros Hsz Hen. unfold getUint, getUint_value.
  destruct Hsz as [-> | [-> | [-> | ->]]].
  - simpl. reflexivity.
  - specialize (Hen ltac:(lia)). destruct en as [o|]; [|discriminate]. reflexivity.
  - specialize (Hen ltac:(lia)). destruct en as [o|]; [|discriminate]. reflexivity.
  - specialize (Hen ltac:(lia)). destruct en as [o|]; [|discriminate]. reflexivity.
Qed.

(** A well-typed value of an integer field holds an integer, and the field
    takes as many bytes as its [BitSize] says. *)
Lemma uint_field_inv (f : StructField) (v : Value) (o : uintOptions) :
  vtype v = Type_ f ->
  has_type (vtype v) (vdata v) ->
  parseUintOptions (KindOf (Type_ f)) = Some o ->
  (exists u, vdata v = DUint u /\ 0 <= u < 2 ^ (8 * BitSize o)) /\
  fieldLen f v = Ret (BitSize o, None) /\
  (forall x, 0 <= x < 2 ^ (8 * BitSize o) -> CanAddr v = true ->
     Value_SetUint v x = Ret (mkValue (vtype v) (DUint x) (CanAddr v))).
Proof.
  intros Hty Hwt Ho. unfold fieldLen, Value_SetUint. rewrite Hty in *.
  destruct (Type_ f) as [k| |]; simpl in Ho; [|discriminate..].
  destruct k; simpl in Ho; inversion Ho; subst o; simpl in *;
    destruct (vdata v); try contradiction;
    (split; [eexists; split; [reflexivity|lia]|]); (split; [reflexivity|]);
    intros x Hx ->; simpl; unfold uint16, uint32, uint64;
    rewrite Z.mod_small by lia; reflexivity.
Qed.

(** A well-typed value of a byte-sequence field holds as many bytes as
    [Len] says. *)
Lemma bytes_field_inv (f : StructField) (v : Value) :
  vtype v = Type_ f ->
  has_type (vtype v) (vdata v) ->
  KindOf (Type_ f) = Array \/ KindOf (Type_ f) = Slice ->
  ElemKind (Type_ f) = Uint8 ->
  exists b, vdata v = DBytes b /\
            Value_Len v = Ret (Z.of_nat (length b)) /\
            fieldLen f v = Ret (Z.of_nat (length b), None) /\
            ((exists n, Type_ f = TArray n Uint8) \/ Type_ f = TSlice Uint8).
Proof.
  intros Hty Hwt Hk He. unfold fieldLen, Value_Len. rewrite Hty in *.
  destruct (Type_ f) as [k|n e|e]; simpl in *.
  - destruct Hk as [-> | ->]; contradiction.
  - subst e. destruct (vdata v) as [|b| |]; try contradiction.
    exists b. subst n. eauto 10.
  - subst e. destruct (vdata v) as [|b| |]; try contradiction.
    exists b. eauto 10.
Qed.





(** The panics of the [reflect] calls are [reflect]'s own. *)
Lemma Value_Len_panic (v : Value) (pn : panic) :
  Value_Len v = Panic pn -> pn = PanicReflect.
Proof.
  unfold Value_Len. destruct (vtype v), (vdata v); intros H; inversion H; reflexivity.
Qed.

Lemma valueByteArrayToByteSlice_panic (v : Value) (pn : panic) :
  valueByteArrayToByteSlice v = Panic pn -> pn = PanicReflect.
Proof.
  unfold valueByteArrayToByteSlice.
  destruct (Value_Len v) as [len|p] eqn:Hl.
  - destruct (len =? 0); [intros H; inversion H; reflexivity|].
    destruct (negb (CanAddr v)); [intros H; inversion H; reflexivity|].
    destruct (vdata v); intros H; inversion H; reflexivity.
  - intros H; inversion H; subst. exact (Value_Len_panic _ _ Hl).
Qed.

Lemma marshalUint_panic (o : uintOptions) (t : fieldTag) (W : Writer) (v : Value)
    (w w' : wstate W) (pn : panic) :
  goodBitSize o t ->
  marshalUint (Some o) t W v w = (Panic pn, w') -> pn = PanicReflect.
Proof.
  intros [Hsz Hen]. unfold marshalUint.
  destruct (Value_Uint v) as [ui|p] eqn:Hu.
  - destruct (putUint_good ui (endian t) (BitSize o) W w Hsz Hen) as [_ ->].
    destruct (Write W w _) as [w1 [n [e0|]]]; [discriminate|].
    destruct (negb _); discriminate.
  - unfold Value_Uint in Hu. intros H; inversion H; subst.
    destruct (vdata v); inversion Hu; reflexivity.
Qed.

Lemma marshalBytes_panic (f : StructField) (W : Writer) (v : Value)
    (w w' : wstate W) (pn : panic) :
  marshalBytes f W v w = (Panic pn, w') -> pn = PanicReflect.
Proof.
  unfold marshalBytes.
  match goal with
  | |- context [match ?s with Ret _ => _ | Panic _ => _ end] =>
      destruct s as [p|pn0] eqn:Hp
  end.
  - destruct (Write W w p) as [w1 [n [e0|]]]; [discriminate|].
    destruct (Value_Len v) as [len|pn0] eqn:Hl.
    + destruct (negb _); discriminate.
    + intros H; inversion H; subst. exact (Value_Len_panic _ _ Hl).
  - intros H; inversion H; subst.
    destruct (decide _).
    + exact (valueByteArrayToByteSlice_panic _ _ Hp).
    + unfold Value_Bytes in Hp. destruct (vdata v); inversion Hp; reflexivity.
Qed.

Lemma unmarshalUint_panic (o : uintOptions) (t : fieldTag) (R : Reader) (v v' : Value)
    (r r' : rstate R) (pn : panic) :
  goodBitSize o t ->
  unmarshalUint (Some o) t R v r = (Panic pn, r', v') -> pn = PanicReflect.
Proof.
  intros [Hsz Hen]. unfold unmarshalUint. rewrite (getUint_good _ _ R r Hsz Hen).
  destruct (Read R r _) as [r1 [b [e0|]]]; [discriminate|].
  destruct (negb _); [discriminate|].
  unfold Value_SetUint.
  destruct (negb (CanAddr v)); [intros H; inversion H; reflexivity|].
  destruct (KindOf (vtype v)); intros H; inversion H; reflexivity.
Qed.

Lemma unmarshalBytes_panic (f : StructField) (R : Reader) (v v' : Value)
    (r r' : rstate R) (pn : panic) :
  unmarshalBytes f R v r = (Panic pn, r', v') -> pn = PanicReflect.
Proof.
  unfold unmarshalBytes.
  destruct (Value_Len v) as [len|pn0] eqn:Hl.
  2:{ intros H. assert (pn0 = pn) by congruence. subst pn0.
      exact (Value_Len_panic _ _ Hl). }
  destruct (Read R r _) as [r1 [b [e0|]]]; [discriminate|].
  destruct (negb _); [discriminate|].
  match goal with
  | |- context [match ?s with Ret _ => _ | Panic _ => _ end] =>
      destruct s as [v1|pn0] eqn:Hset
  end.
  - destruct (Value_Len v1) as [len1|pn1] eqn:Hl1; [discriminate|].
    intros H. assert (pn1 = pn) by congruence. subst pn1.
    exact (Value_Len_panic _ _ Hl1).
  - intros H. assert (pn0 = pn) by congruence. subst pn0. clear H.
    destruct (decide _).
    + unfold copyToByteArray in Hset.
      destruct (valueByteArrayToByteSlice v) eqn:Hs; inversion Hset; subst.
      exact (valueByteArrayToByteSlice_panic _ _ Hs).
    + unfold Value_SetBytes in Hset.
      destruct (negb (CanAddr v)); [inversion Hset; reflexivity|].
      destruct (vtype v) as [| |[]]; inversion Hset; reflexivity.
Qed.

(** C9. An operation that [newFieldMarshaler] or [newFieldUnmarshaler] has
    built never runs into the panics of [putUint] and [getUint]: the
    closure of an integer field passes a size among 1, 2, 4 and 8 and, when
    the size is above 1, a byte order that is not nil. *)
Theorem C9_putUint_getUint_panics_unreachable (f : StructField) :
  (forall fm, newFieldMarshaler f = Ok fm ->
     (forall W v w pn w', fm_marshalFunc fm W v w = (Panic pn, w') ->
        pn <> PanicEndian /\ pn <> PanicBitSize) /\
     (forall o, parseUintOptions (KindOf (Type_ f)) = Some o ->
        fm_marshalFunc fm = marshalUint (Some o) (fm_tag fm) /\
        (BitSize o = 1 \/ BitSize o = 2 \/ BitSize o = 4 \/ BitSize o = 8) /\
        (1 < BitSize o -> endian (fm_tag fm) <> None))) /\
  (forall fu, newFieldUnmarshaler f = Ok fu ->
     (forall R v r pn r' v', fu_unmarshalFunc fu R v r = (Panic pn, r', v') ->
        pn <> PanicEndian /\ pn <> PanicBitSize) /\
     (forall o, parseUintOptions (KindOf (Type_ f)) = Some o ->
        fu_unmarshalFunc fu = unmarshalUint (Some o) (fu_tag fu) /\
        (BitSize o = 1 \/ BitSize o = 2 \/ BitSize o = 4 \/ BitSize o = 8) /\
        (1 < BitSize o -> endian (fu_tag fu) <> None))).
Proof.
  split.
  - intros fm Hfm.
    destruct (newFieldMarshaler_inv f fm Hfm) as [(o & Ho & Hg & Hf)|(Ho & _ & _ & Hf)].
    + split.
      * intros W v w pn w' Hp. rewrite Hf in Hp.
        rewrite (marshalUint_panic _ _ _ _ _ _ _ Hg Hp). split; discriminate.
      * intros o' Ho'. rewrite Ho in Ho'. inversion Ho'; subst o'.
        split; [exact Hf|]. destruct Hg as [Hsz Hen]. split; [exact Hsz|].
        intros H1 Hnil. specialize (Hen H1). rewrite Hnil in Hen. discriminate.
    + split.
      * intros W v w pn w' Hp. rewrite Hf in Hp.
        rewrite (marshalBytes_panic _ _ _ _ _ _ Hp). split; discriminate.
      * intros o' Ho'. rewrite Ho in Ho'. discriminate.
  - intros fu Hfu.
    destruct (newFieldUnmarshaler_inv f fu Hfu) as [(o & Ho & Hg & Hf)|(Ho & _ & _ & Hf)].
    + split.
      * intros R v r pn r' v' Hp. rewrite Hf in Hp.
        rewrite (unmarshalUint_panic _ _ _ _ _ _ _ _ Hg Hp). split; discriminate.
      * intros o' Ho'. rewrite Ho in Ho'. inversion Ho'; subst o'.
        split; [exact Hf|]. destruct Hg as [Hsz Hen]. split; [exact Hsz|].
        intros H1 Hnil. specialize (Hen H1). rewrite Hnil in Hen. discriminate.
    + split.
      * intros R v r pn r' v' Hp. rewrite Hf in Hp.
        rewrite (unmarshalBytes_panic _ _ _ _ _ _ _ Hp). split; discriminate.
      * intros o' Ho'. rewrite Ho in Ho'. discriminate.
Qed.

(** [putUint] and [getUint] do panic when they are handed a size outside
    of 1, 2, 4, 8, or a size above 1 without byte order: the guards are
    not dead code of the functions themselves. *)
Example putUint_panics :
  (putUint 1 None 2 BufferWriter []).1 = Panic PanicEndian /\
  (putUint 1 (Some BigEndian) 3 BufferWriter []).1 = Panic PanicBitSize /\
  (getUint None 4 BufferReader [x01; x02; x03; x04]).1 = Panic PanicEndian /\
  (getUint (Some BigEndian) 3 BufferReader [x01; x02; x03]).1 = Panic PanicBitSize.
Proof. repeat split. Qed.



(** ** Plans *)

Lemma newMarshaler_loop_plan (fields : list StructField) (i : nat) (mc0 mc : marshaler) :
  newMarshaler_loop fields i mc0 = Ok mc ->
  exists idx fms, plan_of fields i idx fms /\
    mc = mkMarshaler (m_fieldIndex mc0 ++ idx) (m_fieldMarshaler mc0 ++ fms).
Proof.
  revert i mc0. induction fields as [|f rest IH]; intros i mc0; simpl.
  - intros H; inversion H; subst. exists [], []. split; [constructor|].
    rewrite !app_nil_r. destruct mc; reflexivity.
  - destruct (bool_decide (PkgPath f = EmptyString)) eqn:Hp; simpl.
    + apply bool_decide_eq_true in Hp.
      destruct (newFieldMarshaler f) as [fm|] eqn:Hfm; [|discriminate].
      intros H. destruct (IH _ _ H) as (idx & fms & Hplan & ->). simpl.
      exists (i :: idx), (fm :: fms). split; [constructor; assumption|].
      rewrite <- !app_assoc. reflexivity.
    + apply bool_decide_eq_false in Hp.
      intros H. destruct (IH _ _ H) as (idx & fms & Hplan & ->).
      exists idx, fms. split; [constructor; assumption | reflexivity].
Qed.

Lemma newMarshaler_loop_error (fields : list StructField) (i : nat) (mc0 : marshaler) :
  match newMarshaler_loop fields i mc0 with
  | Ok _ => first_error fields = None
  | Err e => first_error fields = Some e
  end.
Proof.
  revert i mc0. induction fields as [|f rest IH]; intros i mc0; simpl; [reflexivity|].
  destruct (negb (bool_decide (PkgPath f = EmptyString))); [apply IH|].
  destruct (newFieldMarshaler f); [apply IH | reflexivity].
Qed.

Lemma marshal_loop_plan (value : StructValue) (W : Writer)
    (fields : list StructField) (i : nat) (idx : list nat) (fms : list fieldMarshaler) :
  plan_of fields i idx fms ->
  forall (mc : marshaler) (k : nat) (n : Z) (w : wstate W),
    (forall j fm, fms !! j = Some fm -> m_fieldMarshaler mc !! (k + j)%nat = Some fm) ->
    marshal_loop mc value W idx k n w = marshal_fields value W fields i n w.
Proof.
  induction 1 as [i|f rest i idx fms Hp _ IH|f rest i idx fms fm Hp Hfm _ IH];
    intros mc k n w Hmc; simpl.
  - reflexivity.
  - rewrite (bool_decide_eq_false_2 _ Hp). simpl. apply IH. exact Hmc.
  - rewrite (bool_decide_eq_true_2 _ Hp). simpl.
    pose proof (Hmc 0%nat fm eq_refl) as H0. rewrite Nat.add_0_r in H0. rewrite H0.
    destruct (FieldByIndex value i) as [fv|]; [|reflexivity].
    unfold marshalField. rewrite Hfm.
    destruct (fm_marshalFunc fm W fv w) as [[[num [err|]]|pn] w']; try reflexivity.
    apply IH. intros j fm' Hj.
    replace (S k + j)%nat with (k + S j)%nat by lia. apply Hmc. exact Hj.
Qed.

Lemma newMarshaler_marshal (typ : StructType) (mc : marshaler) (value : StructValue)
    (W : Writer) (w : wstate W) :
  newMarshaler typ = Ok mc ->
  marshaler_marshal mc value W w = marshal_fields value W typ 0 0 w.
Proof.
  intros H. destruct (newMarshaler_loop_plan _ _ _ _ H) as (idx & fms & Hplan & ->).
  unfold marshaler_marshal. simpl.
  apply (marshal_loop_plan value W typ 0 idx fms Hplan). intros j fm Hj. exact Hj.
Qed.

Lemma newUnmarshaler_loop_plan (fields : list StructField) (i : nat)
    (uc0 uc : unmarshaler) :
  newUnmarshaler_loop fields i uc0 = Ok uc ->
  exists idx fus, uplan_of fields i idx fus /\
    uc = mkUnmarshaler (u_fieldIndex uc0 ++ idx) (u_fieldUnmarshaler uc0 ++ fus).
Proof.
  revert i uc0. induction fields as [|f rest IH]; intros i uc0; simpl.
  - intros H; inversion H; subst. exists [], []. split; [constructor|].
    rewrite !app_nil_r. destruct uc; reflexivity.
  - destruct (bool_decide (PkgPath f = EmptyString)) eqn:Hp; simpl.
    + apply bool_decide_eq_true in Hp.
      destruct (newFieldUnmarshaler f) as [fu|] eqn:Hfu; [|discriminate].
      intros H. destruct (IH _ _ H) as (idx & fus & Hplan & ->). simpl.
      exists (i :: idx), (fu :: fus). split; [constructor; assumption|].
      rewrite <- !app_assoc. reflexivity.
    + apply bool_decide_eq_false in Hp.
      intros H. destruct (IH _ _ H) as (idx & fus & Hplan & ->).
      exists idx, fus. split; [constructor; assumption | reflexivity].
Qed.

Lemma unmarshal_loop_plan (typ : StructType) (R : Reader)
    (fields : list StructField) (i : nat) (idx : list nat) (fus : list fieldUnmarshaler) :
  uplan_of fields i idx fus ->
  forall (uc : unmarshaler) (k : nat) (n : Z) (r : rstate R) (fs : list data),
    (forall j fu, fus !! j = Some fu -> u_fieldUnmarshaler uc !! (k + j)%nat = Some fu) ->
    unmarshal_loop uc typ R idx k n r fs = unmarshal_fields typ R fields i n r fs.
Proof.
  induction 1 as [i|f rest i idx fus Hp _ IH|f rest i idx fus fu Hp Hfu _ IH];
    intros uc k n r fs Huc; simpl.
  - reflexivity.
  - rewrite (bool_decide_eq_false_2 _ Hp). simpl. apply IH. exact Huc.
  - rewrite (bool_decide_eq_true_2 _ Hp). simpl.
    pose proof (Huc 0%nat fu eq_refl) as H0. rewrite Nat.add_0_r in H0. rewrite H0.
    destruct (FieldByIndex _ i) as [fv|]; [|reflexivity].
    unfold unmarshalField. rewrite Hfu.
    destruct (fu_unmarshalFunc fu R fv r) as [[[[num [err|]]|pn] r'] fv']; try reflexivity.
    apply IH. intros j fu' Hj.
    replace (S k + j)%nat with (k + S j)%nat by lia. apply Huc. exact Hj.
Qed.

Lemma newUnmarshaler_unmarshal (typ : StructType) (uc : unmarshaler)
    (R : Reader) (r : rstate R) (fs : list data) :
  newUnmarshaler typ = Ok uc ->
  unmarshaler_unmarshal uc typ R r fs = unmarshal_fields typ R typ 0 0 r fs.
Proof.
  intros H. destruct (newUnmarshaler_loop_plan _ _ _ _ H) as (idx & fus & Hplan & ->).
  unfold unmarshaler_unmarshal. simpl.
  apply (unmarshal_loop_plan typ R typ 0 idx fus Hplan). intros j fu Hj. exact Hj.
Qed.

(** Both builders fail on the same fields with the same errors. *)
Lemma newFieldUnmarshaler_error (f : StructField) :
  match newFieldMarshaler f, newFieldUnmarshaler f with
  | Ok _, Ok _ => True
  | Err e1, Err e2 => e1 = e2
  | _, _ => False
  end.
Proof.
  unfold newFieldMarshaler, newFieldUnmarshaler, newMarshalFunc, newUnmarshalFunc.
  destruct (newFieldTag _ _ _); [|reflexivity].
  destruct (KindOf (Type_ f)); try reflexivity; try exact I;
    destruct (negb _); try reflexivity; exact I.
Qed.

Lemma newUnmarshaler_loop_error (fields : list StructField) (i : nat) (uc0 : unmarshaler) :
  match newUnmarshaler_loop fields i uc0 with
  | Ok _ => first_error fields = None
  | Err e => first_error fields = Some e
  end.
Proof.
  revert i uc0. induction fields as [|f rest IH]; intros i uc0; simpl; [reflexivity|].
  destruct (negb (bool_decide (PkgPath f = EmptyString))); [apply IH|].
  pose proof (newFieldUnmarshaler_error f) as He.
  destruct (newFieldMarshaler f), (newFieldUnmarshaler f); try contradiction;
    [apply IH | congruence].
Qed.

(** ** Caches *)

Lemma marshalCache_ok_empty : marshalCache_ok ∅.
Proof. intros typ m H. rewrite lookup_empty in H. discriminate. Qed.

Lemma unmarshalCache_ok_empty : unmarshalCache_ok ∅.
Proof. intros typ u H. rewrite lookup_empty in H. discriminate. Qed.

Lemma getMarshaler_spec (typ : StructType) (cache : gmap (list StructField) marshaler) :
  marshalCache_ok cache ->
  match newMarshaler typ with
  | Ok m => exists cache', getMarshaler typ cache = (Ok m, cache') /\ marshalCache_ok cache'
  | Err e => getMarshaler typ cache = (Err e, cache)
  end.
Proof.
  intros Hok. unfold getMarshaler, SafeMap.Load, SafeMap.LoadOrStore.
  unfold StructType in *.
  destruct (cache !! typ) as [c|] eqn:Hc.
  - rewrite (Hok _ _ Hc). exists cache. split; [reflexivity | exact Hok].
  - destruct (newMarshaler typ) as [m|e] eqn:Hm; [|reflexivity].
    eexists. split; [reflexivity|].
    intros typ' m' H'. destruct (decide (typ = typ')) as [<-|Hne].
    + rewrite lookup_insert_eq in H'. congruence.
    + rewrite lookup_insert_ne in H' by exact Hne. exact (Hok _ _ H').
Qed.

Lemma getUnmarshaler_spec (typ : StructType) (cache : gmap (list StructField) unmarshaler) :
  unmarshalCache_ok cache ->
  match newUnmarshaler typ with
  | Ok u => exists cache', getUnmarshaler typ cache = (Ok u, cache') /\ unmarshalCache_ok cache'
  | Err e => getUnmarshaler typ cache = (Err e, cache)
  end.
Proof.
  intros Hok. unfold getUnmarshaler, SafeMap.Load, SafeMap.LoadOrStore.
  unfold StructType in *.
  destruct (cache !! typ) as [c|] eqn:Hc.
  - rewrite (Hok _ _ Hc). exists cache. split; [reflexivity | exact Hok].
  - destruct (newUnmarshaler typ) as [u|e] eqn:Hu; [|reflexivity].
    eexists. split; [reflexivity|].
    intros typ' u' H'. destruct (decide (typ = typ')) as [<-|Hne].
    + rewrite lookup_insert_eq in H'. congruence.
    + rewrite lookup_insert_ne in H' by exact Hne. exact (Hok _ _ H').
Qed.

(** With a cache that holds built plans only, [marshal] either fails with
    the error of the builder, touching nothing, or runs the fields of the
    type in declaration order. *)
Lemma marshal_spec (value : StructValue) (W : Writer) (w : wstate W)
    (cache : gmap (list StructField) marshaler) :
  marshalCache_ok cache ->
  match first_error (stype value) with
  | Some e => marshal value W w cache = (Ret (0, Some e), w, cache)
  | None =>
      exists cache', marshalCache_ok cache' /\
        marshal value W w cache =
          ((marshal_fields value W (stype value) 0 0 w).1,
           (marshal_fields value W (stype value) 0 0 w).2, cache')
  end.
Proof.
  intros Hok. pose proof (getMarshaler_spec (stype value) cache Hok) as Hg.
  pose proof (newMarshaler_loop_error (stype value) 0 (mkMarshaler [] [])) as He.
  unfold marshal. fold (newMarshaler (stype value)) in He.
  destruct (newMarshaler (stype value)) as [m|e] eqn:Hm.
  - rewrite He. destruct Hg as (cache' & -> & Hok'). exists cache'. split; [exact Hok'|].
    rewrite (newMarshaler_marshal _ _ value W w Hm).
    destruct (marshal_fields _ _ _ _ _ _); reflexivity.
  - rewrite He, Hg. reflexivity.
Qed.

Lemma unmarshal_spec (R : Reader) (r : rstate R) (typ : StructType) (fs : list data)
    (cache : gmap (list StructField) unmarshaler) :
  unmarshalCache_ok cache ->
  match first_error typ with
  | Some e => unmarshal R r typ fs cache = (Ret (0, Some e), r, fs, cache)
  | None =>
      exists cache', unmarshalCache_ok cache' /\
        unmarshal R r typ fs cache = (unmarshal_fields typ R typ 0 0 r fs, cache')
  end.
Proof.
  intros Hok. pose proof (getUnmarshaler_spec typ cache Hok) as Hg.
  pose proof (newUnmarshaler_loop_error typ 0 (mkUnmarshaler [] [])) as He.
  unfold unmarshal. fold (newUnmarshaler typ) in He.
  destruct (newUnmarshaler typ) as [u|e] eqn:Hu.
  - rewrite He. destruct Hg as (cache' & -> & Hok'). exists cache'. split; [exact Hok'|].
    rewrite (newUnmarshaler_unmarshal _ _ R r fs Hu). reflexivity.
  - rewrite He, Hg. reflexivity.
Qed.

(** The entry points keep the caches as [getMarshaler] and [getUnmarshaler]
    fill them. *)
Lemma MarshalToWriter_cache_ok (s : iface) (W : Writer) (w : wstate W)
    (cache : gmap (list StructField) marshaler) :
  marshalCache_ok cache -> marshalCache_ok (MarshalToWriter s W w cache).2.
Proof.
  intros Hok.
  assert (Hm : forall value, marshalCache_ok (marshal value W w cache).2).
  { intros value. unfold marshal.
    pose proof (getMarshaler_spec (stype value) cache Hok) as Hg.
    destruct (newMarshaler (stype value)) as [m|e].
    - destruct Hg as (cache' & -> & Hok').
      destruct (marshaler_marshal m value W w). exact Hok'.
    - rewrite Hg. exact Hok. }
  destruct s; simpl; auto.
Qed.

Lemma UnmarshalFromReader_cache_ok (R : Reader) (r : rstate R) (s : iface)
    (cache : gmap (list StructField) unmarshaler) :
  unmarshalCache_ok cache -> unmarshalCache_ok (UnmarshalFromReader R r s cache).2.
Proof.
  intros Hok. destruct s as [typ fs|typ fs|p]; simpl; auto.
  unfold unmarshal.
  pose proof (getUnmarshaler_spec typ cache Hok) as Hg.
  destruct (newUnmarshaler typ) as [u|e].
  - destruct Hg as (cache' & -> & Hok').
    destruct (unmarshaler_unmarshal u typ R r fs) as [[res r'] fs']. exact Hok'.
  - rewrite Hg. exact Hok.
Qed.

(** ** Byte counts on failure *)

Lemma marshal_loop_error_count (mc : marshaler) (value : StructValue) (W : Writer)
    (idx : list nat) (i : nat) (n : Z) (w w' : wstate W) (m : Z) (e : error) :
  marshal_loop mc value W idx i n w = (Ret (m, Some e), w') -> m = 0.
Proof.
  revert i n w. induction idx as [|index rest IH]; intros i n w; simpl.
  - discriminate.
  - destruct (m_fieldMarshaler mc !! i) as [fm|]; [|discriminate].
    destruct (FieldByIndex value index) as [fv|]; [|discriminate].
    destruct (fm_marshalFunc fm W fv w) as [[[num [err|]]|pn] w1].
    + intros H; inversion H; reflexivity.
    + apply IH.
    + discriminate.
Qed.

Lemma unmarshal_loop_error_count (uc : unmarshaler) (typ : StructType) (R : Reader)
    (idx : list nat) (i : nat) (n : Z) (r r' : rstate R) (fs fs' : list data)
    (m : Z) (e : error) :
  unmarshal_loop uc typ R idx i n r fs = (Ret (m, Some e), r', fs') -> m = 0.
Proof.
  revert i n r fs. induction idx as [|index rest IH]; intros i n r fs; simpl.
  - discriminate.
  - destruct (u_fieldUnmarshaler uc !! i) as [fu|]; [|discriminate].
    destruct (FieldByIndex _ index) as [fv|]; [|discriminate].
    destruct (fu_unmarshalFunc fu R fv r) as [[[[num [err|]]|pn] r1] fv1].
    + intros H; inversion H; reflexivity.
    + apply IH.
    + discriminate.
Qed.

(** C10. When [MarshalToWriter] or [UnmarshalFromReader] returns an error,
    the byte count it returns is 0, whatever was moved before: with a sink
    that takes one byte per [Write], field [A] of the example record is
    written and still the count is 0; with a source of two bytes, field
    [A] is decoded into the record and still the count is 0. *)
Theorem C10_error_count_is_zero :
  (forall s W w cache n e w' cache',
     MarshalToWriter s W w cache = (Ret (n, Some e), w', cache') -> n = 0) /\
  (forall R r s cache n e r' s' cache',
     UnmarshalFromReader R r s cache = (Ret (n, Some e), r', s', cache') -> n = 0) /\
  (MarshalToWriter (StructPtr exampleAB [DUint 1; DUint 515]) (ShortWriter 1) [] ∅).1 =
    (Ret (0, Some (Wrapf "%w:write data len[%d] not equal to bit size[%d]"
                         ErrWriteDataLen)), [x01; x03]) /\
  (UnmarshalFromReader BufferReader [x01; x03] (StructPtr exampleAB [DUint 0; DUint 0]) ∅).1 =
    (Ret (0, Some (Wrapf "%w:read bit size[%d] not equal to bit size[%d]"
                         ErrReadData)), [], StructPtr exampleAB [DUint 1; DUint 0]).
Proof.
  split; [|split; [|split; reflexivity]].
  - intros s W w cache n e w' cache' H.
    assert (Hm : forall value, marshal value W w cache = (Ret (n, Some e), w', cache') -> n = 0).
    { intros value. unfold marshal.
      destruct (getMarshaler (stype value) cache) as [[m|err] c1].
      - destruct (marshaler_marshal m value W w) as [res w1] eqn:Hr.
        intros Heq; inversion Heq; subst.
        exact (marshal_loop_error_count _ _ _ _ _ _ _ _ _ _ Hr).
      - intros Heq; inversion Heq; reflexivity. }
    destruct s; simpl in H; [eauto | eauto | inversion H; reflexivity].
  - intros R r s cache n e r' s' cache' H.
    destruct s as [typ fs|typ fs|p]; simpl in H; try (inversion H; reflexivity).
    unfold unmarshal in H.
    destruct (getUnmarshaler typ cache) as [[u|err] c1].
    + destruct (unmarshaler_unmarshal u typ R r fs) as [[res r1] fs1] eqn:Hr.
      inversion H; subst.
      exact (unmarshal_loop_error_count _ _ _ _ _ _ _ _ _ _ _ _ Hr).
    + inversion H; reflexivity.
Qed.

(** ** Unsupported kinds *)

(** An error of [newFieldTag] wraps [ErrTagFormat]. *)
Lemma newFieldTag_error (name tag : string) (uo : option uintOptions) (e : error) :
  newFieldTag name tag uo = Err e -> exists fmt, e = Wrapf fmt ErrTagFormat.
Proof.
  unfold newFieldTag.
  destruct (newFieldTag_loop _ _ _) as [t0|e0] eqn:Hl.
  - destruct uo as [o|]; [|discriminate].
    destruct (_ && _); intros H; inversion H. eauto.
  - intros H; inversion H; subst e0. clear H.
    revert Hl. generalize (mkFieldTag None). generalize (Split "," tag).
    intros ls. induction ls as [|l ls IH]; intros t0; simpl; [discriminate|].
    destruct (decide (l = EmptyString)); [apply IH|].
    destruct (decide _).
    + destruct (negb _); [intros H; inversion H; eauto|].
      destruct (decide _); apply IH.
    + intros H; inversion H; eauto.
Qed.

(** Why [newFieldMarshaler] fails: the annotation does not resolve
    ([ErrTagFormat]), or it does and the kind is unsupported
    ([ErrInvalidType]). *)
Lemma newFieldMarshaler_cases (f : StructField) :
  match newFieldMarshaler f with
  | Ok _ => tag_resolves f = true /\ supported (Type_ f) = true
  | Err e =>
      (tag_resolves f = false /\ Is e ErrTagFormat = true /\ Is e ErrInvalidType = false) \/
      (tag_resolves f = true /\ supported (Type_ f) = false /\
       Is e ErrInvalidType = true /\ Is e ErrTagFormat = false)
  end.
Proof.
  unfold newFieldMarshaler, tag_resolves.
  destruct (newFieldTag _ _ _) as [t|e] eqn:Ht.
  - unfold newMarshalFunc, supported.
    destruct (KindOf (Type_ f)); simpl;
      try (split; reflexivity);
      try (right; repeat split; reflexivity);
      destruct (bool_decide (ElemKind (Type_ f) = Uint8)); simpl;
      try (split; reflexivity); right; repeat split; reflexivity.
  - left. destruct (newFieldTag_error _ _ _ _ Ht) as [fmt ->].
    repeat split; rewrite Is_Wrapf_sentinel by reflexivity; reflexivity.
Qed.





(** ** Encoding into a buffer *)

Lemma pair_fst_eq {A B : Type} (p : A * B) (a : A) : p.1 = a -> p = (a, p.2).
Proof. destruct p; simpl; intros ->; reflexivity. Defined.

(** What a field operation appends to a buffer does not depend on what the
    buffer holds. *)
Lemma marshalField_buffer (f : StructField) (fv : Value) (buf : list byte) :
  marshalField f fv BufferWriter buf =
    ((marshalField f fv BufferWriter []).1,
     buf ++ (marshalField f fv BufferWriter []).2).
Proof.
  unfold marshalField.
  destruct (newFieldMarshaler f) as [fm|e] eqn:Hfm; [|simpl; rewrite app_nil_r; reflexivity].
  destruct (newFieldMarshaler_inv f fm Hfm) as [(o & Ho & [Hsz Hen] & ->)|(Ho & Hk & He & ->)].
  - unfold marshalUint. destruct (Value_Uint fv) as [ui|pn];
      [|simpl; rewrite app_nil_r; reflexivity].
    destruct (putUint_good ui (endian (fm_tag fm)) (BitSize o) BufferWriter buf Hsz Hen)
      as [_ ->].
    destruct (putUint_good ui (endian (fm_tag fm)) (BitSize o) BufferWriter [] Hsz Hen)
      as [_ ->].
    simpl. destruct (negb _); reflexivity.
  - unfold marshalBytes.
    match goal with
    | |- context [match ?s with Ret _ => _ | Panic _ => _ end] => destruct s as [p|pn]
    end; [|simpl; rewrite app_nil_r; reflexivity].
    simpl. destruct (Value_Len fv) as [len|pn]; [|reflexivity].
    destruct (negb _); reflexivity.
Qed.

(** A field operation that succeeds on a buffer has written as many bytes
    as [fieldLen] says, and returns their number. *)
Lemma marshalField_ok_len (f : StructField) (fv : Value) (buf buf' : list byte)
    (num : Z) :
  marshalField f fv BufferWriter buf = (Ret (num, None), buf') ->
  fieldLen f fv = Ret (num, None) /\
  exists p, buf' = buf ++ p /\ Z.of_nat (length p) = num.
Proof.
  unfold marshalField.
  destruct (newFieldMarshaler f) as [fm|e] eqn:Hfm; [|discriminate].
  destruct (newFieldMarshaler_inv f fm Hfm) as [(o & Ho & [Hsz Hen] & ->)|(Ho & Hk & He & ->)].
  - unfold marshalUint. destruct (Value_Uint fv) as [ui|pn]; [|discriminate].
    destruct (putUint_good ui (endian (fm_tag fm)) (BitSize o) BufferWriter buf Hsz Hen)
      as [Hlen ->].
    simpl. rewrite Hlen, Z.eqb_refl. simpl. intros H; inversion H; subst.
    split; [|eexists; split; [reflexivity | exact Hlen]].
    unfold fieldLen. destruct (KindOf (Type_ f)); simpl in Ho; inversion Ho; reflexivity.
  - unfold marshalBytes.
    match goal with
    | |- context [match ?s with Ret _ => _ | Panic _ => _ end] => destruct s as [p|pn]
    end; [|discriminate].
    simpl. destruct (Value_Len fv) as [len|pn] eqn:Hl; [|discriminate].
    destruct (Z.of_nat (length p) =? len) eqn:Hn; simpl; [|discriminate].
    apply Z.eqb_eq in Hn. intros H; inversion H; subst.
    split; [|eexists; split; reflexivity].
    unfold fieldLen. rewrite Hl. destruct Hk as [-> | ->]; reflexivity.
Qed.


Lemma marshal_fields_len (value : StructValue) (fields : list StructField) :
  forall (i : nat) (n m : Z) (buf out : list byte) (fl : Z),
    marshal_fields value BufferWriter fields i n buf = (Ret (m, None), out) ->
    structLen_loop value fields i fl = Ret (fl + (m - n), None) /\
    Z.of_nat (length out) = Z.of_nat (length buf) + (m - n).
Proof.
  induction fields as [|f rest IH]; intros i n m buf out fl; simpl.
  - intros H; inversion H; subst. split; [f_equal; f_equal; lia | lia].
  - destruct (negb (bool_decide (PkgPath f = EmptyString))); [apply IH|].
    destruct (FieldByIndex value i) as [fv|]; [|discriminate].
    destruct (marshalField f fv BufferWriter buf) as [[[num [err|]]|pn] buf'] eqn:Hf;
      try discriminate.
    destruct (marshalField_ok_len _ _ _ _ _ Hf) as (Hlen & p & -> & Hp).
    rewrite Hlen. intros H. destruct (IH _ _ _ _ _ (fl + num) H) as [Hs Hl].
    split.
    + rewrite Hs. f_equal. f_equal. lia.
    + rewrite Hl, length_app. lia.
Qed.

(** What a successful [Marshal] has run. *)
Lemma Marshal_ok (s : iface) (cache cache' : gmap (list StructField) marshaler)
    (bs : list byte) :
  marshalCache_ok cache ->
  Marshal s cache = (Ret (Ok bs), cache') ->
  exists value m,
    value_of s = Some value /\
    first_error (stype value) = None /\
    marshal_fields value BufferWriter (stype value) 0 0 [] = (Ret (m, None), bs).
Proof.
  intros Hok. unfold Marshal.
  assert (Hv : forall value,
    match marshal value BufferWriter [] cache with
    | (Panic p, _, c) => (Panic p, c)
    | (Ret (_, Some err), _, c) => (Ret (Err err), c)
    | (Ret (_, None), bb, c) => (Ret (Ok bb), c)
    end = (Ret (Ok bs), cache') ->
    exists m, first_error (stype value) = None /\
      marshal_fields value BufferWriter (stype value) 0 0 [] = (Ret (m, None), bs)).
  { intros value. pose proof (marshal_spec value BufferWriter [] cache Hok) as Hsp.
    destruct (first_error (stype value)) as [e|].
    - rewrite Hsp. discriminate.
    - destruct Hsp as (c1 & _ & ->).
      destruct (marshal_fields value BufferWriter (stype value) 0 0 [])
        as [[[m [err|]]|pn] out]; simpl; try discriminate.
      intros H; inversion H; subst. eauto. }
  destruct s as [typ fs|typ fs|p]; simpl.
  - intros H. destruct (Hv _ H) as (m & He & Hm). eauto 10.
  - intros H. destruct (Hv _ H) as (m & He & Hm). eauto 10.
  - discriminate.
Qed.



(** C2. When [Marshal] succeeds on a record, [StructLen] succeeds on it and
    returns the number of bytes [Marshal] returned. *)
Theorem C2_length_consistency (s : iface)
    (cache cache' : gmap (list StructField) marshaler) (bs : list byte) :
  marshalCache_ok cache ->
  Marshal s cache = (Ret (Ok bs), cache') ->
  StructLen s = Ret (Z.of_nat (length bs), None).
Proof.
  intros Hok HM.
  destruct (Marshal_ok s cache cache' bs Hok HM) as (value & m & Hv & _ & Hm).
  destruct (marshal_fields_len _ _ _ _ _ _ _ 0 Hm) as [Hs Hl].
  assert (HS : StructLen s = structLen value).
  { destruct s; simpl in Hv; inversion Hv; reflexivity. }
  rewrite HS. unfold structLen. rewrite Hs. f_equal. f_equal. simpl in Hl. lia.
Qed.

Lemma C2_length_consistency_witness :
  StructLen (StructPtr testStruct ts1) = Ret (31, None).
Proof.
  refine (C2_length_consistency (StructPtr testStruct ts1) ∅
            (Marshal (StructPtr testStruct ts1) ∅).2
            [x01; x02; x03; x04; xff; x00; xff; x00; x00; xff; xff;
             x00; x00; x00; x00; xff; xff; xff; xff; xd2; x04;
             x0a; x0b; x0c; x0d; x0e; x0f; x10; x11; x12; x13]
            marshalCache_ok_empty _).
  apply pair_fst_eq. vm_compute. reflexivity.
Defined.

(** ** Fixed-width integers and their bytes *)

Lemma Z_of_byte_range (b : byte) : 0 <= Z_of_byte b < 256.
Proof.
  unfold Z_of_byte. pose proof (Byte.to_N_bounded b). lia.
Qed.

Lemma Z_of_byte_of_Z (x : Z) : Z_of_byte (byte_of_Z x) = x mod 256.
Proof.
  unfold Z_of_byte, byte_of_Z.
  pose proof (Z.mod_pos_bound x 256 ltac:(lia)) as Hx.
  destruct (Byte.of_N (Z.to_N (x mod 256))) as [b|] eqn:Hb.
  - rewrite (Byte.to_of_N _ Hb). lia.
  - apply Byte.of_N_None_iff in Hb. lia.
Qed.

Lemma lor_shiftl_add (a b k : Z) :
  0 <= k -> 0 <= a < 2 ^ k -> Z.lor a (Z.shiftl b k) = a + b * 2 ^ k.
Proof.
  intros Hk Ha.
  assert (Hland : Z.land a (Z.shiftl b k) = 0).
  { apply Z.bits_inj'. intros n Hn. rewrite Z.land_spec, Z.bits_0.
    destruct (Z.lt_ge_cases n k) as [Hlt|Hge].
    - rewrite (Z.shiftl_spec_low _ _ _ Hlt). apply andb_false_r.
    - rewrite <- (Z.mod_small a (2 ^ k)) by exact Ha.
      rewrite Z.mod_pow2_bits_high by lia. reflexivity. }
  pose proof (Z.add_lor_land a (Z.shiftl b k)) as Hadd.
  rewrite Hland, Z.add_0_r in Hadd. rewrite Hadd.
  rewrite Z.shiftl_mul_pow2 by exact Hk. reflexivity.
Qed.

(** Rewriting an expression of [encoding/binary] into sums, quotients and
    remainders, innermost [Z.lor] first. *)
Ltac lor_to_add :=
  repeat match goal with
    | |- context [Z.lor ?a (Z.shiftl ?b ?k)] =>
        lazymatch a with
        | Z.lor _ _ => fail
        | _ => idtac
        end;
        let p := eval cbv in (2 ^ k) in
        rewrite (lor_shiftl_add a b k);
        [ change (2 ^ k) with p
        | lia
        | change (2 ^ k) with p; Z.to_euclidean_division_equations; lia ]
    end.

Ltac bytes_to_arith :=
  unfold at_; cbn [nth];
  rewrite ?Z_of_byte_of_Z, ?Z.shiftr_div_pow2 by lia;
  change (2 ^ 8) with 256 in *; change (2 ^ 16) with 65536 in *;
  change (2 ^ 24) with 16777216 in *; change (2 ^ 32) with 4294967296 in *;
  change (2 ^ 40) with 1099511627776 in *; change (2 ^ 48) with 281474976710656 in *;
  change (2 ^ 56) with 72057594037927936 in *;
  change (2 ^ 64) with 18446744073709551616 in *;
  lor_to_add.

Lemma Uint16_PutUint16 (o : ByteOrder) (x : Z) :
  0 <= x < 2 ^ 16 -> binary.Uint16 o (binary.PutUint16 o x) = x.
Proof.
  intros Hx. destruct o; unfold binary.Uint16, binary.PutUint16;
    bytes_to_arith; Z.to_euclidean_division_equations; lia.
Qed.

Lemma Uint32_PutUint32 (o : ByteOrder) (x : Z) :
  0 <= x < 2 ^ 32 -> binary.Uint32 o (binary.PutUint32 o x) = x.
Proof.
  intros Hx. destruct o; unfold binary.Uint32, binary.PutUint32;
    bytes_to_arith; Z.to_euclidean_division_equations; lia.
Qed.

Lemma Uint64_PutUint64 (o : ByteOrder) (x : Z) :
  0 <= x < 2 ^ 64 -> binary.Uint64 o (binary.PutUint64 o x) = x.
Proof.
  intros Hx. destruct o; unfold binary.Uint64, binary.PutUint64;
    bytes_to_arith; Z.to_euclidean_division_equations; lia.
Qed.

(** ** [Marshal] succeeds on the records of supported types *)

(** A field of a supported type whose annotation resolves has an
    operation. *)
Lemma newFieldMarshaler_supported (f : StructField) :
  supported (Type_ f) = true -> tag_resolves f = true ->
  exists fm, newFieldMarshaler f = Ok fm.
Proof.
  intros Hs Ht. pose proof (newFieldMarshaler_cases f) as Hc.
  destruct (newFieldMarshaler f) as [fm|e]; [eauto|].
  destruct Hc as [(Ht' & _)|(_ & Hs' & _)]; congruence.
Qed.

(** On an addressable, well-typed field that is no array of length zero,
    the operation writes its bytes to a buffer and returns their number. *)
Lemma marshalField_succeeds (f : StructField) (d : data) (buf : list byte) :
  has_type (Type_ f) d ->
  (exists fm, newFieldMarshaler f = Ok fm) ->
  (forall e, Type_ f <> TArray 0 e) ->
  exists p,
    marshalField f (mkValue (Type_ f) d true) BufferWriter buf =
      (Ret (Z.of_nat (length p), None), buf ++ p).
Proof.
  intros Hd [fm Hfm] Hz. unfold marshalField. rewrite Hfm.
  destruct (newFieldMarshaler_inv f fm Hfm) as [(o & Ho & [Hsz Hen] & ->)|(Ho & Hk & He & ->)].
  - destruct (uint_field_inv f (mkValue (Type_ f) d true) o eq_refl Hd Ho)
      as ((u & Hu & _) & _ & _).
    simpl in Hu. subst d. unfold marshalUint, Value_Uint. simpl vdata. cbv iota.
    destruct (putUint_good u (endian (fm_tag fm)) (BitSize o) BufferWriter buf Hsz Hen)
      as [Hlen ->].
    exists (putUint_payload u (endian (fm_tag fm)) (BitSize o)).
    cbn [Write BufferWriter]. rewrite Hlen, Z.eqb_refl. reflexivity.
  - destruct (bytes_field_inv f (mkValue (Type_ f) d true) eq_refl Hd Hk He)
      as (b & Hb & Hlen & _ & Hshape).
    simpl in Hb. subst d. exists b. unfold marshalBytes.
    destruct Hshape as [[n Hn]|Hs].
    + rewrite decide_True by (rewrite Hn; reflexivity).
      unfold valueByteArrayToByteSlice. rewrite Hlen. simpl CanAddr. simpl vdata.
      assert (Hnz : (Z.of_nat (length b) =? 0) = false).
      { apply Z.eqb_neq. rewrite Hn in Hd. simpl in Hd. intros H0.
        apply (Hz Uint8). rewrite Hn. f_equal. lia. }
      rewrite Hnz. simpl negb. cbv iota. cbn [Write BufferWriter].
      rewrite Z.eqb_refl. reflexivity.
    + rewrite decide_False by (rewrite Hs; discriminate).
      unfold Value_Bytes. simpl vdata. cbv iota. cbn [Write BufferWriter].
      rewrite Hlen, Z.eqb_refl. reflexivity.
Qed.

Lemma marshal_fields_succeeds (typ : StructType) (fs : list data)
    (fields : list StructField) :
  has_struct_type typ fs ->
  forall (i : nat) (n : Z) (buf : list byte),
    (forall j f, fields !! j = Some f -> typ !! (i + j)%nat = Some f) ->
    (forall f, f ∈ fields -> PkgPath f = EmptyString ->
       supported (Type_ f) = true /\ tag_resolves f = true /\
       forall e, Type_ f <> TArray 0 e) ->
    exists m out,
      marshal_fields (mkStruct typ fs true) BufferWriter fields i n buf =
        (Ret (m, None), out).
Proof.
  intros Hfs. induction fields as [|f rest IH]; intros i n buf Htyp Hsup; simpl.
  - eauto.
  - assert (Htyp' : forall j f0, rest !! j = Some f0 -> typ !! (S i + j)%nat = Some f0).
    { intros j f0 Hj. replace (S i + j)%nat with (i + S j)%nat by lia.
      apply Htyp. exact Hj. }
    assert (Hsup' : forall f0, f0 ∈ rest -> PkgPath f0 = EmptyString ->
       supported (Type_ f0) = true /\ tag_resolves f0 = true /\
       forall e, Type_ f0 <> TArray 0 e).
    { intros f0 Hin. apply Hsup. right. exact Hin. }
    destruct (bool_decide (PkgPath f = EmptyString)) eqn:Hp; simpl negb; cbv iota;
      [|apply IH; assumption].
    apply bool_decide_eq_true in Hp.
    pose proof (Htyp 0%nat f eq_refl) as Hf. rewrite Nat.add_0_r in Hf.
    destruct (Forall2_lookup_l _ _ _ _ _ Hfs Hf) as (d & Hd & Hdt).
    unfold FieldByIndex. simpl stype. simpl sfields. rewrite Hf, Hd. simpl saddr.
    destruct (Hsup f (list_elem_of_here _ _) Hp) as (Hs & Ht & Hz).
    destruct (marshalField_succeeds f d buf Hdt (newFieldMarshaler_supported f Hs Ht) Hz)
      as (p & ->).
    apply IH; assumption.
Qed.

(** [Marshal] returns bytes for every well-typed record, passed by
    pointer, of a struct type whose exported fields are of supported types,
    with annotations that resolve, and none of them an array of length
    zero. *)
Lemma Marshal_succeeds (typ : StructType) (fs : list data)
    (cache : gmap (list StructField) marshaler) :
  marshalCache_ok cache ->
  has_struct_type typ fs ->
  (forall f, f ∈ typ -> PkgPath f = EmptyString ->
     supported (Type_ f) = true /\ tag_resolves f = true /\
     forall e, Type_ f <> TArray 0 e) ->
  exists bs cache',
    Marshal (StructPtr typ fs) cache = (Ret (Ok bs), cache') /\ marshalCache_ok cache'.
Proof.
  intros Hok Hfs Hsup.
  destruct (marshal_fields_succeeds typ fs typ Hfs 0 0 [] (fun j f Hj => Hj) Hsup)
    as (m & out & Hm).
  pose proof (marshal_spec (mkStruct typ fs true) BufferWriter [] cache Hok) as Hsp.
  simpl in Hsp.
  destruct (first_error typ) as [e|] eqn:He.
  - exfalso. clear Hsp Hm Hfs Hok. induction typ as [|f rest IH]; [discriminate|].
    simpl in He. destruct (bool_decide (PkgPath f = EmptyString)) eqn:Hp; simpl in He.
    + apply bool_decide_eq_true in Hp.
      destruct (Hsup f (list_elem_of_here _ _) Hp) as (Hs & Ht & _).
      destruct (newFieldMarshaler_supported f Hs Ht) as [fm Hfm]. rewrite Hfm in He.
      apply IH; [intros f0 Hin; apply Hsup; right; exact Hin|exact He].
    + apply IH; [intros f0 Hin; apply Hsup; right; exact Hin|exact He].
  - destruct Hsp as (cache' & Hok' & Hsp). exists out, cache'. split; [|exact Hok'].
    unfold Marshal, MarshalToWriter. rewrite Hsp, Hm. reflexivity.
Qed.

(** ** Decoding what was encoded *)

Lemma getUint_value_payload (en : option ByteOrder) (bitSize u : Z) :
  (bitSize = 1 \/ bitSize = 2 \/ bitSize = 4 \/ bitSize = 8) ->
  (1 < bitSize -> isNil en = false) ->
  0 <= u < 2 ^ (8 * bitSize) ->
  getUint_value en bitSize (putUint_payload u en bitSize) = u.
Proof.
  intros Hsz Hen Hu. unfold getUint_value, putUint_payload.
  destruct Hsz as [-> | [-> | [-> | ->]]]; simpl Z.eqb; cbv iota.
  - change (take _ _) with [byte_of_Z u]. unfold at_; cbn [nth].
    rewrite Z_of_byte_of_Z. apply Z.mod_small. exact Hu.
  - specialize (Hen ltac:(lia)). destruct en as [o|]; [|discriminate].
    replace (take _ _) with (binary.PutUint16 o (uint16 u)) by (destruct o; reflexivity).
    unfold uint16. rewrite (Z.mod_small u) by exact Hu.
    apply Uint16_PutUint16. exact Hu.
  - specialize (Hen ltac:(lia)). destruct en as [o|]; [|discriminate].
    replace (take _ _) with (binary.PutUint32 o (uint32 u)) by (destruct o; reflexivity).
    unfold uint32. rewrite (Z.mod_small u) by exact Hu.
    apply Uint32_PutUint32. exact Hu.
  - specialize (Hen ltac:(lia)). destruct en as [o|]; [|discriminate].
    replace (take _ _) with (binary.PutUint64 o u) by (destruct o; reflexivity).
    apply Uint64_PutUint64. exact Hu.
Qed.

(** Reading [length p] bytes from a buffer that starts with [p]. *)
Lemma BufferReader_read (p rest : list byte) :
  Read BufferReader (p ++ rest) (length p) = (rest, (p, None)).
Proof.
  simpl. destruct (p ++ rest) as [|x l] eqn:Heq.
  - apply app_eq_nil in Heq as [-> ->]. reflexivity.
  - rewrite <- Heq, drop_app_length, take_app_length. reflexivity.
Qed.

Lemma newField_tags (f : StructField) (fm : fieldMarshaler) (fu : fieldUnmarshaler) :
  newFieldMarshaler f = Ok fm -> newFieldUnmarshaler f = Ok fu ->
  fu_tag fu = fm_tag fm.
Proof.
  unfold newFieldMarshaler, newFieldUnmarshaler.
  destruct (newFieldTag _ _ _); [|discriminate].
  destruct (newMarshalFunc _ _ _); [|discriminate].
  destruct (newUnmarshalFunc _ _ _); [|discriminate].
  intros H1 H2. inversion H1; inversion H2; reflexivity.
Qed.

(** One field: decoding the bytes the field operation has appended to a
    buffer, into a destination of the same size, gives the field back and
    leaves the rest of the bytes. *)
Lemma field_roundtrip (f : StructField) (d d0 : data) (a : bool)
    (buf buf' : list byte) (num : Z) :
  has_type (Type_ f) d ->
  has_type (Type_ f) d0 ->
  same_size d d0 ->
  marshalField f (mkValue (Type_ f) d a) BufferWriter buf = (Ret (num, None), buf') ->
  exists p, buf' = buf ++ p /\
    forall rest,
      unmarshalField f (mkValue (Type_ f) d0 true) BufferReader (p ++ rest) =
        (Ret (num, None), rest, mkValue (Type_ f) d true).
Proof.
  intros Hd Hd0 Hsame. unfold marshalField, unmarshalField.
  destruct (newFieldMarshaler f) as [fm|e] eqn:Hfm; [|discriminate].
  pose proof (newFieldUnmarshaler_error f) as Hfu. rewrite Hfm in Hfu.
  destruct (newFieldUnmarshaler f) as [fu|] eqn:Hfu'; [clear Hfu|contradiction].
  pose proof (newField_tags f fm fu Hfm Hfu') as Htag.
  destruct (newFieldMarshaler_inv f fm Hfm) as [(o & Ho & [Hsz Hen] & ->)|(Ho & Hk & He & ->)];
    destruct (newFieldUnmarshaler_inv f fu Hfu') as [(o' & Ho' & _ & ->)|(Ho' & _ & _ & ->)];
    try congruence.
  - rewrite Ho in Ho'. inversion Ho'; subst o'. rewrite Htag. clear Ho' Htag.
    destruct (uint_field_inv f (mkValue (Type_ f) d a) o eq_refl Hd Ho)
      as ((u & Hu & Hrange) & _ & _).
    destruct (uint_field_inv f (mkValue (Type_ f) d0 true) o eq_refl Hd0 Ho)
      as (_ & _ & Hset).
    simpl in Hu. subst d.
    unfold marshalUint, unmarshalUint, Value_Uint. simpl vdata. cbv iota.
    destruct (putUint_good u (endian (fm_tag fm)) (BitSize o) BufferWriter buf Hsz Hen)
      as [Hlen ->].
    simpl. rewrite Hlen, Z.eqb_refl. simpl. intros H; inversion H; subst num buf'.
    eexists. split; [reflexivity|]. intros rest.
    rewrite (getUint_good _ _ BufferReader _ Hsz Hen).
    replace (Z.to_nat (BitSize o))
      with (length (putUint_payload u (endian (fm_tag fm)) (BitSize o))) by lia.
    rewrite BufferReader_read. rewrite Hlen, Z.eqb_refl. simpl negb. cbv iota.
    rewrite (getUint_value_payload _ _ _ Hsz Hen Hrange).
    rewrite (Hset u Hrange eq_refl). reflexivity.
  - clear Htag Ho'.
    destruct (bytes_field_inv f (mkValue (Type_ f) d a) eq_refl Hd Hk He)
      as (b & Hb & Hlen & _ & Hshape).
    destruct (bytes_field_inv f (mkValue (Type_ f) d0 true) eq_refl Hd0 Hk He)
      as (b0 & Hb0 & Hlen0 & _ & _).
    simpl in Hb, Hb0. subst d d0. simpl in Hsame.
    unfold marshalBytes, unmarshalBytes.
    rewrite Hlen0. rewrite <- Hsame. rewrite Nat2Z.id.
    destruct Hshape as [[n Hn]|Hs].
    + (* a byte array *)
      rewrite !decide_True by (rewrite Hn; reflexivity).
      unfold copyToByteArray, valueByteArrayToByteSlice. rewrite Hlen, Hlen0.
      rewrite <- Hsame. simpl CanAddr. simpl vdata.
      destruct (Z.of_nat (length b) =? 0); [discriminate|].
      destruct a; simpl negb; cbv iota; [|discriminate].
      cbn [Write BufferWriter]. rewrite Z.eqb_refl. simpl negb. cbv iota.
      intros H; inversion H; subst num buf'.
      exists b. split; [reflexivity|]. intros rest.
      rewrite BufferReader_read, Z.eqb_refl. simpl negb. cbv iota.
      rewrite decide_True by (rewrite Hn; reflexivity).
      replace (store (take (length b0) b) b0) with b.
      2:{ unfold store. rewrite <- Hsame, firstn_all, Hsame, skipn_all, app_nil_r.
          reflexivity. }
      unfold Value_Len. simpl vtype. rewrite Hn. rewrite Hn in Hd. simpl in Hd.
      rewrite Hd. reflexivity.
    + (* a byte slice *)
      rewrite !decide_False by (rewrite Hs; discriminate).
      unfold Value_Bytes, Value_SetBytes. simpl vdata. simpl CanAddr. simpl vtype.
      cbv iota. cbn [Write BufferWriter]. rewrite Hlen, Z.eqb_refl. simpl negb. cbv iota.
      intros H; inversion H; subst num buf'.
      exists b. split; [reflexivity|]. intros rest.
      rewrite BufferReader_read, Z.eqb_refl. simpl negb. cbv iota.
      rewrite decide_False by (rewrite Hs; discriminate).
      rewrite Hs. unfold Value_Len. simpl. reflexivity.
Qed.

Section Roundtrip.
Variable typ : StructType.
Variables fs fs0 : list data.
Variable a : bool.
Hypothesis Hfs : has_struct_type typ fs.
Hypothesis Hfs0 : has_struct_type typ fs0.
Hypothesis Hsized : presized fs fs0.

(** The fields [fields], declared from position [i] on: decoding what
    they were encoded to, into a record [fsc] that is still as [fs0]
    from position [i] on, sets the exported ones to their values in
    [fs], leaves the others, and consumes exactly these bytes. *)
Lemma fields_roundtrip (fields : list StructField) :
  forall (i : nat) (n m : Z) (buf out : list byte),
    (forall j f, fields !! j = Some f -> typ !! (i + j)%nat = Some f) ->
    marshal_fields (mkStruct typ fs a) BufferWriter fields i n buf = (Ret (m, None), out) ->
    exists p, out = buf ++ p /\
      forall (rest : list byte) (n' : Z) (fsc : list data),
        (forall j, (i <= j)%nat -> fsc !! j = fs0 !! j) ->
        exists fs',
          unmarshal_fields typ BufferReader fields i n' (p ++ rest) fsc =
            (Ret (n' + (m - n), None), rest, fs') /\
          length fs' = length fsc /\
          (forall j, (j < i)%nat -> fs' !! j = fsc !! j) /\
          (forall j f, fields !! j = Some f ->
             fs' !! (i + j)%nat =
               if exported f then fs !! (i + j)%nat else fsc !! (i + j)%nat).
Proof.
  induction fields as [|f rest' IH]; intros i n m buf out Htyp; simpl.
  - intros H; inversion H; subst. exists []. split; [rewrite app_nil_r; reflexivity|].
    intros rest n' fsc _. exists fsc. repeat split.
    + rewrite Z.sub_diag, Z.add_0_r. reflexivity.
    + intros j f Hj. inversion Hj.
  - assert (Htyp' : forall j f0, rest' !! j = Some f0 -> typ !! (S i + j)%nat = Some f0).
    { intros j f0 Hj. replace (S i + j)%nat with (i + S j)%nat by lia.
      apply Htyp. exact Hj. }
    pose proof (Htyp 0%nat f eq_refl) as Hf. rewrite Nat.add_0_r in Hf.
    destruct (bool_decide (PkgPath f = EmptyString)) eqn:Hp; simpl negb; cbv iota.
    + (* an exported field *)
      apply bool_decide_eq_true in Hp.
      unfold FieldByIndex at 1. simpl stype. simpl sfields. rewrite Hf.
      destruct (fs !! i) as [d|] eqn:Hd; [|discriminate]. simpl saddr.
      destruct (marshalField f _ BufferWriter buf) as [[[num [err|]]|pn] buf1] eqn:Hm;
        try discriminate.
      intros Hrest.
      pose proof (Forall2_lookup_lr _ _ _ _ _ _ Hfs Hf Hd) as Hdt.
      destruct (Forall2_lookup_l _ _ _ _ _ Hfs0 Hf) as (d0 & Hd0 & Hd0t).
      pose proof (Forall2_lookup_lr _ _ _ _ _ _ Hsized Hd Hd0) as Hsame.
      destruct (field_roundtrip f d d0 a buf buf1 num Hdt Hd0t Hsame Hm) as (p1 & -> & Hun).
      destruct (IH (S i) _ _ _ _ Htyp' Hrest) as (p2 & -> & Hun2).
      exists (p1 ++ p2). split; [rewrite app_assoc; reflexivity|].
      intros rest n' fsc Hfsc.
      unfold FieldByIndex. simpl stype. simpl sfields. rewrite Hf.
      rewrite (Hfsc i (Nat.le_refl i)), Hd0. simpl saddr.
      rewrite <- app_assoc, Hun. simpl vdata.
      assert (Hi : (i < length fsc)%nat).
      { apply lookup_lt_is_Some. rewrite (Hfsc i (Nat.le_refl i)), Hd0. eauto. }
      destruct (Hun2 rest (n' + num) (<[i:=d]> fsc)) as (fs' & Heq & Hlen & Hlow & Hhigh).
      { intros j Hj. rewrite list_lookup_insert_ne by lia. apply Hfsc. lia. }
      exists fs'. split.
      { rewrite Heq. replace (n' + num + (m - (n + num))) with (n' + (m - n)) by lia.
        reflexivity. }
      split; [rewrite Hlen; apply length_insert|]. split.
      * intros j Hj. rewrite (Hlow j ltac:(lia)).
        apply list_lookup_insert_ne. lia.
      * intros [|j] f0 Hj; simpl in Hj.
        -- inversion Hj; subst f0. rewrite Nat.add_0_r.
           unfold exported. rewrite (decide_True _ _ Hp).
           rewrite (Hlow i ltac:(lia)), Hd. apply list_lookup_insert_eq. exact Hi.
        -- replace (i + S j)%nat with (S i + j)%nat by lia.
           rewrite (Hhigh j f0 Hj). destruct (exported f0); [reflexivity|].
           apply list_lookup_insert_ne. lia.
    + (* a field that is not exported *)
      apply bool_decide_eq_false in Hp.
      intros Hrest.
      destruct (IH (S i) _ _ _ _ Htyp' Hrest) as (p2 & -> & Hun2).
      exists p2. split; [reflexivity|].
      intros rest n' fsc Hfsc.
      destruct (Hun2 rest n' fsc) as (fs' & Heq & Hlen & Hlow & Hhigh).
      { intros j Hj. apply Hfsc. lia. }
      exists fs'. split; [exact Heq|]. split; [exact Hlen|]. split.
      * intros j Hj. apply Hlow. lia.
      * intros [|j] f0 Hj; simpl in Hj.
        -- inversion Hj; subst f0. rewrite Nat.add_0_r.
           unfold exported. rewrite (decide_False _ _ Hp). apply Hlow. lia.
        -- replace (i + S j)%nat with (S i + j)%nat by lia.
           exact (Hhigh j f0 Hj).
Qed.
End Roundtrip.



(** ** The plan cache under concurrent calls *)

Section ConcurrentCalls.
Context {K : Type} `{Countable K} {V : Type}.
Variable build : K -> result V.

Local Abbreviation step := (Concurrent.step build).
Local Abbreviation step_call := (Concurrent.step_call build).

(** [LoadOrStore] stores only where nothing is stored. *)
Lemma LoadOrStore_published (sm : gmap K V) (key : K) (p val : V) :
  sm !! key = Some p -> SafeMap.LoadOrStore sm key val = ((p, true), sm).
Proof. unfold SafeMap.LoadOrStore. intros ->. reflexivity. Qed.

(** With a plan published for [key], a call for [key] returns it at its
    next step, whether it starts or holds a candidate of its own. *)
Lemma step_call_published (sm : gmap K V) (key : K) (p : V) (c : Concurrent.call) :
  sm !! key = Some p ->
  (forall r, c <> Concurrent.Returned r) ->
  step_call key c sm = (Concurrent.Returned (Ok p), sm).
Proof.
  intros Hp Hc. destruct c as [|m|r]; simpl.
  - unfold SafeMap.Load. rewrite Hp. reflexivity.
  - rewrite (LoadOrStore_published _ _ _ _ Hp). reflexivity.
  - destruct (Hc r eq_refl).
Qed.

(** No step replaces a published plan. *)
Lemma step_call_stable (sm sm' : gmap K V) (key key' : K) (p : V)
    (c c' : Concurrent.call) :
  step_call key c sm = (c', sm') ->
  sm !! key' = Some p -> sm' !! key' = Some p.
Proof.
  destruct c as [|m|r]; simpl.
  - unfold SafeMap.Load. destruct (sm !! key); [intros Heq; inversion Heq; auto|].
    destruct (build key); intros Heq; inversion Heq; auto.
  - unfold SafeMap.LoadOrStore. destruct (sm !! key) eqn:Hk.
    + intros Heq; inversion Heq; auto.
    + intros Heq; inversion Heq; subst. intros Hp.
      rewrite lookup_insert_ne; [exact Hp|]. intros ->. congruence.
  - intros Heq; inversion Heq; auto.
Qed.

(** What a step returns is what the cache holds afterwards. *)
Lemma step_call_returns (sm sm' : gmap K V) (key : K) (c : Concurrent.call) (v : V) :
  step_call key c sm = (Concurrent.Returned (Ok v), sm') ->
  (forall r, c <> Concurrent.Returned r) ->
  sm' !! key = Some v.
Proof.
  intros Hs Hc. destruct c as [|m|r]; simpl in Hs.
  - unfold SafeMap.Load in Hs. destruct (sm !! key) eqn:Hk.
    + inversion Hs; subst. exact Hk.
    + destruct (build key); inversion Hs.
  - unfold SafeMap.LoadOrStore in Hs. destruct (sm !! key) eqn:Hk.
    + inversion Hs; subst. exact Hk.
    + inversion Hs; subst. apply lookup_insert_eq.
  - destruct (Hc r eq_refl).
Qed.

Lemma step_stable (st st' : Concurrent.state) (key : K) (p : V) :
  step st st' -> st.2 !! key = Some p -> st'.2 !! key = Some p.
Proof.
  intros Hstep. destruct Hstep as [ts sm i key0 c c' sm' Hi Hs]. simpl.
  exact (step_call_stable _ _ _ _ _ _ _ Hs).
Qed.

Lemma steps_stable (st st' : Concurrent.state) (key : K) (p : V) :
  rtc step st st' -> st.2 !! key = Some p -> st'.2 !! key = Some p.
Proof.
  induction 1 as [|st st1 st' Hstep _ IH]; [auto|].
  intros Hp. apply IH. exact (step_stable _ _ _ _ Hstep Hp).
Qed.

(** A call that has returned stays as it is. *)
Lemma steps_returned (st st' : Concurrent.state) (i : nat) (key : K) (r : result V) :
  rtc step st st' ->
  st.1 !! i = Some (key, Concurrent.Returned r) ->
  st'.1 !! i = Some (key, Concurrent.Returned r).
Proof.
  induction 1 as [|st st1 st' Hstep _ IH]; [auto|].
  intros Hi. apply IH. destruct Hstep as [ts sm i0 key0 c c' sm' Hi0 Hs]. simpl in *.
  destruct (decide (i0 = i)) as [->|Hne].
  - rewrite Hi in Hi0. inversion Hi0; subst. simpl in Hs. inversion Hs; subst.
    apply list_lookup_insert_eq. apply lookup_lt_is_Some. eauto.
  - rewrite list_lookup_insert_ne by exact Hne. exact Hi.
Qed.

Lemma step_consistent (st st' : Concurrent.state) :
  step st st' -> Concurrent.consistent st -> Concurrent.consistent st'.
Proof.
  intros Hstep Hc. destruct Hstep as [ts sm i0 key0 c c' sm' Hi0 Hs].
  intros i key v. simpl. intros Hi.
  destruct (decide (i0 = i)) as [->|Hne].
  - rewrite list_lookup_insert_eq in Hi by (apply lookup_lt_is_Some; eauto).
    inversion Hi; subst.
    destruct c as [| m | r].
    + eapply step_call_returns; [exact Hs | discriminate].
    + eapply step_call_returns; [exact Hs | discriminate].
    + simpl in Hs. inversion Hs; subst. exact (Hc _ _ _ Hi0).
  - rewrite list_lookup_insert_ne in Hi by exact Hne.
    eapply step_call_stable; [exact Hs|]. exact (Hc _ _ _ Hi).
Qed.

Lemma steps_consistent (st st' : Concurrent.state) :
  rtc step st st' -> Concurrent.consistent st -> Concurrent.consistent st'.
Proof.
  induction 1 as [|st st1 st' Hstep _ IH]; [auto|].
  intros Hc. apply IH. exact (step_consistent _ _ Hstep Hc).
Qed.

(** Once a plan is published for [key], every call for [key] that has
    not returned yet returns that plan, whatever the interleaving. *)
Lemma steps_return_published (st st' : Concurrent.state) (key : K) (p : V)
    (i : nat) (c : Concurrent.call) (r : result V) :
  rtc step st st' ->
  st.2 !! key = Some p ->
  st.1 !! i = Some (key, c) ->
  (forall r0, c <> Concurrent.Returned r0) ->
  st'.1 !! i = Some (key, Concurrent.Returned r) ->
  r = Ok p.
Proof.
  intros Hsteps. revert c.
  induction Hsteps as [st|st st1 st' Hstep Hrest IH]; intros c Hp Hi Hc Hr.
  - rewrite Hi in Hr. inversion Hr; subst. destruct (Hc r eq_refl).
  - pose proof (step_stable _ _ _ _ Hstep Hp) as Hp1.
    destruct Hstep as [ts sm i0 key0 c0 c0' sm' Hi0 Hs]. simpl in *.
    destruct (decide (i0 = i)) as [->|Hne].
    + rewrite Hi in Hi0. inversion Hi0; subst key0 c0.
      rewrite (step_call_published _ _ _ _ Hp Hc) in Hs. inversion Hs; subst.
      assert (Hi1 : (<[i:=(key, Concurrent.Returned (Ok p))]> ts) !! i =
                    Some (key, Concurrent.Returned (Ok p))).
      { apply list_lookup_insert_eq. apply lookup_lt_is_Some. eauto. }
      pose proof (steps_returned _ _ _ _ _ Hrest Hi1) as Hr'.
      simpl in Hr'. rewrite Hr in Hr'. inversion Hr'. reflexivity.
    + apply (IH c Hp1); [|exact Hc|exact Hr].
      rewrite list_lookup_insert_ne by exact Hne. exact Hi.
Qed.
End ConcurrentCalls.

(** C3. A type has at most one plan that callers ever see.  [getMarshaler]
    and [getUnmarshaler] are a [Load] followed, on a miss, by a build and a
    [LoadOrStore]; under any interleaving of such calls, a plan that is in
    the cache for a type stays there, every call for that type that
    returns afterwards returns it (a candidate built in the meantime is
    dropped), and any two calls for a type that return a plan return the
    same one.  [LoadOrStore] on a type that has a plan stores nothing. *)
Theorem C3_one_plan_per_type :
  (forall typ cache,
     getMarshaler typ cache = Concurrent.run_call newMarshaler typ cache) /\
  (forall typ cache,
     getUnmarshaler typ cache = Concurrent.run_call newUnmarshaler typ cache) /\
  (forall (V : Type) (build : list StructField -> result V)
          (st st' : list (list StructField * Concurrent.call) * gmap (list StructField) V),
     rtc (Concurrent.step build) st st' ->
     (forall typ p, st.2 !! typ = Some p -> st'.2 !! typ = Some p) /\
     (forall typ p i c r,
        st.2 !! typ = Some p ->
        st.1 !! i = Some (typ, c) ->
        (forall r0, c <> Concurrent.Returned r0) ->
        st'.1 !! i = Some (typ, Concurrent.Returned r) ->
        r = Ok p) /\
     (Concurrent.consistent st ->
      forall i j typ v1 v2,
        st'.1 !! i = Some (typ, Concurrent.Returned (Ok v1)) ->
        st'.1 !! j = Some (typ, Concurrent.Returned (Ok v2)) ->
        v1 = v2 /\ st'.2 !! typ = Some v1)) /\
  (forall (V : Type) (sm : gmap (list StructField) V) typ (p candidate : V),
     sm !! typ = Some p ->
     SafeMap.LoadOrStore sm typ candidate = ((p, true), sm) /\
     Concurrent.step_call (fun _ => Ok candidate) typ (Concurrent.Candidate candidate) sm =
       (Concurrent.Returned (Ok p), sm)).
Proof.
  split; [|split; [|split]].
  - intros typ cache. unfold getMarshaler, Concurrent.run_call, Concurrent.step_call.
    unfold StructType in *.
    destruct (SafeMap.Load cache typ); [reflexivity|].
    destruct (newMarshaler typ); [|reflexivity].
    destruct (SafeMap.LoadOrStore cache typ a) as [[c b] sm']. reflexivity.
  - intros typ cache. unfold getUnmarshaler, Concurrent.run_call, Concurrent.step_call.
    unfold StructType in *.
    destruct (SafeMap.Load cache typ); [reflexivity|].
    destruct (newUnmarshaler typ); [|reflexivity].
    destruct (SafeMap.LoadOrStore cache typ a) as [[c b] sm']. reflexivity.
  - intros V build st st' Hsteps. split; [|split].
    + intros typ p. exact (steps_stable build st st' typ p Hsteps).
    + intros typ p i c r Hp Hi Hc Hr.
      exact (steps_return_published build st st' typ p i c r Hsteps Hp Hi Hc Hr).
    + intros Hcons i j typ v1 v2 H1 H2.
      pose proof (steps_consistent build st st' Hsteps Hcons) as Hc'.
      pose proof (Hc' _ _ _ H1) as E1. pose proof (Hc' _ _ _ H2) as E2.
      split; [congruence | exact E1].
  - intros V sm typ p candidate Hp. split.
    + exact (LoadOrStore_published sm typ p candidate Hp).
    + apply step_call_published; [exact Hp | discriminate].
Qed.

(** Two goroutines that both miss, both build, and then publish: the
    second gets the plan of the first. *)
Example race_first_publish_wins :
  let build := fun _ : list StructField => Ok 0%nat in
  let st0 : list (list StructField * Concurrent.call) * gmap (list StructField) nat :=
    ([(exampleAB, Concurrent.Candidate 1%nat); (exampleAB, Concurrent.Candidate 2%nat)], ∅) in
  exists st2,
    rtc (Concurrent.step build) st0 st2 /\
    st2.1 = [(exampleAB, Concurrent.Returned (Ok 1%nat));
             (exampleAB, Concurrent.Returned (Ok 1%nat))] /\
    st2.2 !! exampleAB = Some 1%nat.
Proof.
  intros build st0. eexists. split; [|split].
  - eapply rtc_l.
    + eapply Concurrent.step_thread with (i := 0%nat); reflexivity.
    + eapply rtc_l; [|apply rtc_refl].
      eapply Concurrent.step_thread with (i := 1%nat); [reflexivity|].
      simpl. unfold SafeMap.LoadOrStore. rewrite lookup_insert_eq. reflexivity.
  - reflexivity.
  - simpl. apply lookup_insert_eq.
Qed.

(** ** [StructLen] *)

(** A field whose kind is outside of the unsigned integers, arrays and
    slices makes [StructLen] fail with [ErrInvalidType]. *)
Lemma structLen_loop_unsupported_kind (value : StructValue) (fields : list StructField) :
  forall (i : nat) (fl : Z),
    (forall j f, fields !! j = Some f ->
       stype value !! (i + j)%nat = Some f /\
       exists d, sfields value !! (i + j)%nat = Some d /\ has_type (Type_ f) d) ->
    (exists f, f ∈ fields /\ PkgPath f = EmptyString /\
       fieldLen f (mkValue (Type_ f) DOpaque false) =
         Ret (0, Some (Wrapf "%w: field:%s type kind:%s not support" ErrInvalidType))) ->
    structLen_loop value fields i fl =
      Ret (0, Some (Wrapf "%w: field:%s type kind:%s not support" ErrInvalidType)).
Proof.
  induction fields as [|f rest IH]; intros i fl Htyp (f0 & Hin & Hexp & Hlen).
  - inversion Hin.
  - assert (Htyp' : forall j f1, rest !! j = Some f1 ->
       stype value !! (S i + j)%nat = Some f1 /\
       exists d, sfields value !! (S i + j)%nat = Some d /\ has_type (Type_ f1) d).
    { intros j f1 Hj. replace (S i + j)%nat with (i + S j)%nat by lia.
      apply Htyp. exact Hj. }
    destruct (Htyp 0%nat f eq_refl) as (Hf & d & Hd & Hdt). rewrite Nat.add_0_r in Hf, Hd.
    simpl. destruct (bool_decide (PkgPath f = EmptyString)) eqn:Hp; simpl negb; cbv iota.
    + unfold FieldByIndex. rewrite Hf, Hd.
      assert (Hcases :
        fieldLen f (mkValue (Type_ f) d (saddr value)) =
          Ret (0, Some (Wrapf "%w: field:%s type kind:%s not support" ErrInvalidType)) \/
        exists l, fieldLen f (mkValue (Type_ f) d (saddr value)) = Ret (l, None) /\
          fieldLen f (mkValue (Type_ f) DOpaque false) <>
            Ret (0, Some (Wrapf "%w: field:%s type kind:%s not support" ErrInvalidType))).
      { unfold fieldLen, Value_Len. simpl vtype. simpl vdata.
        destruct (Type_ f) as [k|n e|e]; simpl in *.
        - destruct k; try (left; reflexivity);
            try (right; eexists; (split; [reflexivity | discriminate]));
            destruct d; contradiction.
        - right. eexists; (split; [reflexivity | discriminate]).
        - destruct e; destruct d; try contradiction;
            right; eexists; (split; [reflexivity | discriminate]). }
      destruct Hcases as [-> | (l & -> & Hne)]; [reflexivity|].
      apply IH; [exact Htyp'|].
      exists f0. apply elem_of_cons in Hin as [->|Hin]; [contradiction|auto].
    + apply IH; [exact Htyp'|].
      apply bool_decide_eq_false in Hp.
      exists f0. apply elem_of_cons in Hin as [->|Hin]; [contradiction|auto].
Qed.

(** The part of C8 that holds: on a well-typed record with an exported
    field that is neither an unsigned integer of 8 to 64 bits nor an array
    nor a slice, [StructLen] returns [ErrInvalidType]. *)
Lemma StructLen_unsupported_kind (s : iface) (value : StructValue) :
  value_of s = Some value ->
  has_struct_type (stype value) (sfields value) ->
  (exists f, f ∈ stype value /\ PkgPath f = EmptyString /\
     parseUintOptions (KindOf (Type_ f)) = None /\
     KindOf (Type_ f) <> Array /\ KindOf (Type_ f) <> Slice) ->
  exists e, StructLen s = Ret (0, Some e) /\ Is e ErrInvalidType = true.
Proof.
  intros Hv Hwt (f & Hin & Hexp & Ho & Ha & Hs).
  exists (Wrapf "%w: field:%s type kind:%s not support" ErrInvalidType).
  split; [|reflexivity].
  assert (HS : StructLen s = structLen value).
  { destruct s; simpl in Hv; inversion Hv; reflexivity. }
  rewrite HS. unfold structLen. apply structLen_loop_unsupported_kind.
  - intros j f0 Hj. simpl. split; [exact Hj|].
    exact (Forall2_lookup_l _ _ _ _ _ Hwt Hj).
  - exists f. split; [exact Hin|]. split; [exact Hexp|].
    unfold fieldLen. destruct (KindOf (Type_ f)); simpl in Ho;
      try discriminate; try reflexivity; congruence.
Qed.

(** C8. [StructLen] does not look at the element type of an array or a
    slice: on [struct { A []uint32 }] holding three elements it returns
    the count 3 and no error, where [Marshal] and [Unmarshal] reject the
    type with [ErrInvalidType]. *)
Theorem C8_StructLen_ignores_element_kind :
  has_unsupported exampleSliceU32 /\
  StructLen (StructVal exampleSliceU32 [DSeq 3]) = Ret (3, None) /\
  StructLen (StructPtr exampleSliceU32 [DSeq 3]) = Ret (3, None) /\
  (Marshal (StructPtr exampleSliceU32 [DSeq 3]) ∅).1 = Ret (Err errNotSupport) /\
  (Unmarshal [] (StructPtr exampleSliceU32 [DSeq 3]) ∅).1.1 = Ret (Some errNotSupport) /\
  Is errNotSupport ErrInvalidType = true.
Proof.
  split; [|repeat split].
  exists (mkField "A" EmptyString (TSlice Uint32) EmptyString).
  split; [apply list_elem_of_here | split; reflexivity].
Qed.

(** * Further properties of the code *)

(** ** Decoding from a buffer *)

(** [bytes.Buffer.Read]: what it hands out, and when it reports [io.EOF]. *)
Lemma BufferReader_Read (buf : list byte) (k : nat) :
  Read BufferReader buf k =
    (drop k buf, (take k buf,
                  match buf, k with
                  | [], S _ => Some EOF
                  | _, _ => None
                  end)).
Proof. destruct buf, k; reflexivity. Qed.

(** An integer field of a well-typed record is of a basic type. *)
Lemma uint_field_type (f : StructField) (o : uintOptions) :
  parseUintOptions (KindOf (Type_ f)) = Some o ->
  Type_ f = TBasic (KindOf (Type_ f)) /\
  (forall x, has_type (Type_ f) (DUint (x mod 2 ^ (8 * BitSize o)))) /\
  (forall d x, Value_SetUint (mkValue (Type_ f) d true) x =
     Ret (mkValue (Type_ f) (DUint (x mod 2 ^ (8 * BitSize o))) true)).
Proof.
  intros Ho. unfold Value_SetUint. simpl CanAddr. simpl vtype.
  destruct (Type_ f) as [k| |]; simpl in Ho; [|discriminate..].
  split; [reflexivity|].
  destruct k; simpl in Ho; inversion Ho; subst o; simpl;
    (split; [intros x; apply Z.mod_pos_bound; lia | intros d x; reflexivity]).
Qed.

(** One field, decoded from a buffer: with enough bytes the field takes
    the number of bytes [fieldLen] gives, from the front; with fewer the
    operation fails with [ErrReadData], or with [io.EOF] when the buffer is
    empty, and the field stays as it was. *)
Lemma unmarshalField_buffer (f : StructField) (d0 : data) (buf : list byte) :
  has_type (Type_ f) d0 ->
  supported (Type_ f) = true -> tag_resolves f = true ->
  (forall e, Type_ f <> TArray 0 e) ->
  exists req,
    fieldLen f (mkValue (Type_ f) d0 true) = Ret (req, None) /\ 0 <= req /\
    (req <= Z.of_nat (length buf) ->
     exists d',
       unmarshalField f (mkValue (Type_ f) d0 true) BufferReader buf =
         (Ret (req, None), drop (Z.to_nat req) buf, mkValue (Type_ f) d' true) /\
       has_type (Type_ f) d' /\ same_size d0 d') /\
    (Z.of_nat (length buf) < req ->
     exists e,
       unmarshalField f (mkValue (Type_ f) d0 true) BufferReader buf =
         (Ret (0, Some e), [], mkValue (Type_ f) d0 true) /\
       (Is e ErrReadData = true \/ Is e EOF = true)).
Proof.
  intros Hd0 Hs Ht Hz.
  destruct (newFieldMarshaler_supported f Hs Ht) as [fm Hfm].
  pose proof (newFieldUnmarshaler_error f) as Hfu. rewrite Hfm in Hfu.
  destruct (newFieldUnmarshaler f) as [fu|] eqn:Hfu'; [clear Hfu|contradiction].
  unfold unmarshalField. rewrite Hfu'.
  destruct (newFieldUnmarshaler_inv f fu Hfu') as [(o & Ho & [Hsz Hen] & ->)|(Ho & Hk & He & ->)].
  - destruct (uint_field_inv f (mkValue (Type_ f) d0 true) o eq_refl Hd0 Ho)
      as ((u0 & Hu0 & _) & Hlen & _).
    destruct (uint_field_type f o Ho) as (_ & Hrange & Hset).
    simpl in Hu0. subst d0.
    exists (BitSize o). split; [exact Hlen|]. split; [lia|].
    unfold unmarshalUint. rewrite (getUint_good _ _ BufferReader buf Hsz Hen).
    rewrite BufferReader_Read.
    split.
    + intros Hge.
      assert (Hne : buf <> []) by (intros ->; simpl in Hge; lia).
      destruct buf as [|x l]; [destruct (Hne eq_refl)|].
      rewrite length_take. rewrite Nat.min_l by lia.
      rewrite Z2Nat.id, Z.eqb_refl by lia. simpl negb. cbv iota.
      rewrite Hset. eexists. split; [reflexivity|]. split; [apply Hrange | exact I].
    + intros Hlt. destruct buf as [|x l].
      * destruct (Z.to_nat (BitSize o)) eqn:Hk; [lia|]. simpl.
        eexists. split; [reflexivity|]. right. apply Is_Wrapf_inner.
      * rewrite length_take. rewrite Nat.min_r by lia.
        destruct (Z.of_nat (length (x :: l)) =? BitSize o) eqn:Hn;
          [apply Z.eqb_eq in Hn; lia|].
        simpl negb. cbv iota. rewrite drop_ge by lia.
        eexists. split; [reflexivity|]. left.
        rewrite Is_Wrapf_sentinel by reflexivity. reflexivity.
  - destruct (bytes_field_inv f (mkValue (Type_ f) d0 true) eq_refl Hd0 Hk He)
      as (b0 & Hb0 & Hlen0 & Hflen & Hshape).
    simpl in Hb0. subst d0.
    exists (Z.of_nat (length b0)). split; [exact Hflen|]. split; [lia|].
    unfold unmarshalBytes. rewrite Hlen0, Nat2Z.id, BufferReader_Read.
    split.
    + intros Hge. apply Nat2Z.inj_le in Hge.
      assert (Herr : match buf, length b0 with [], S _ => Some EOF | _, _ => None end
                     = None).
      { destruct buf, (length b0) eqn:Hl; simpl in *; try reflexivity; lia. }
      rewrite Herr. rewrite length_take, Nat.min_l by lia.
      rewrite Z.eqb_refl. simpl negb. cbv iota.
      assert (Htake : length (take (length b0) buf) = length b0)
        by (rewrite length_take; lia).
      destruct Hshape as [[n Hn]|Hsl].
      * rewrite decide_True by (rewrite Hn; reflexivity).
        unfold copyToByteArray, valueByteArrayToByteSlice. rewrite Hlen0.
        simpl CanAddr. simpl vdata.
        assert (Hnz : (Z.of_nat (length b0) =? 0) = false).
        { apply Z.eqb_neq. rewrite Hn in Hd0. simpl in Hd0. intros H0.
          apply (Hz Uint8). rewrite Hn. f_equal. lia. }
        rewrite Hnz. simpl negb. cbv iota.
        replace (store (take (length b0) (take (length b0) buf)) b0)
          with (take (length b0) buf).
        2:{ unfold store. rewrite take_take, Nat.min_id, Htake, skipn_all, app_nil_r.
            reflexivity. }
        unfold Value_Len at 1. simpl vtype. rewrite Hn.
        rewrite Hn in Hd0. simpl in Hd0. rewrite <- Hd0.
        eexists. split; [reflexivity|]. split; [simpl; lia | simpl; lia].
      * rewrite decide_False by (rewrite Hsl; discriminate).
        unfold Value_SetBytes. simpl CanAddr. simpl vtype. rewrite Hsl. simpl negb.
        cbv iota. unfold Value_Len. simpl vtype. simpl vdata. cbv iota beta. rewrite Htake.
        eexists. split; [reflexivity|]. split; [exact I | simpl; lia].
    + intros Hlt. apply Nat2Z.inj_lt in Hlt. destruct buf as [|x l].
      * destruct (length b0) eqn:Hl; [simpl in Hlt; lia|]. simpl.
        eexists. split; [reflexivity|]. right. reflexivity.
      * rewrite length_take, Nat.min_r by lia.
        destruct (Z.of_nat (length (x :: l)) =? Z.of_nat (length b0)) eqn:Hn;
          [apply Z.eqb_eq in Hn; lia|].
        simpl negb. cbv iota. rewrite drop_ge by lia.
        eexists. split; [reflexivity|]. left. reflexivity.
Qed.

Lemma same_size_refl (d : data) : same_size d d.
Proof. destruct d; simpl; auto. Qed.

Lemma same_size_trans (a b c : data) : same_size a b -> same_size b c -> same_size a c.
Proof. destruct a, b, c; simpl; try tauto; congruence. Qed.

Lemma presized_refl (fs : list data) : presized fs fs.
Proof. apply Forall_Forall2_diag, Forall_forall. intros d _. apply same_size_refl. Qed.

Lemma presized_trans (a b c : list data) : presized a b -> presized b c -> presized a c.
Proof.
  unfold presized. intros Hab. revert c.
  induction Hab as [|x y l k Hxy _ IH]; intros c Hbc; inversion Hbc; subst; constructor.
  - eapply same_size_trans; eassumption.
  - apply IH. assumption.
Qed.

(** Storing a well-typed value of the same size keeps a record well typed
    and as it was sized. *)
Lemma insert_well_typed (typ : StructType) (fs : list data) (i : nat)
    (f : StructField) (d0 d' : data) :
  has_struct_type typ fs -> typ !! i = Some f -> fs !! i = Some d0 ->
  has_type (Type_ f) d' -> same_size d0 d' ->
  has_struct_type typ (<[i:=d']> fs) /\ presized fs (<[i:=d']> fs).
Proof.
  intros Hfs Hf Hd0 Hd' Hsame. split.
  - unfold has_struct_type. rewrite <- (list_insert_id typ i f Hf).
    apply Forall2_insert; assumption.
  - unfold presized. rewrite <- (list_insert_id fs i d0 Hd0) at 1.
    apply Forall2_insert; [apply presized_refl | exact Hsame].
Qed.

(** [structLen] looks at the exported fields only, and not at whether the
    record is addressable. *)
Lemma structLen_loop_ext (typ : StructType) (fs fs' : list data) (a a' : bool)
    (fields : list StructField) :
  forall (i : nat) (fl : Z),
    (forall j f, fields !! j = Some f -> exported f = true ->
       fs !! (i + j)%nat = fs' !! (i + j)%nat) ->
    structLen_loop (mkStruct typ fs a) fields i fl =
    structLen_loop (mkStruct typ fs' a') fields i fl.
Proof.
  induction fields as [|f rest IH]; intros i fl Hext; simpl; [reflexivity|].
  assert (Hext' : forall j f0, rest !! j = Some f0 -> exported f0 = true ->
            fs !! (S i + j)%nat = fs' !! (S i + j)%nat).
  { intros j f0 Hj He. replace (S i + j)%nat with (i + S j)%nat by lia.
    apply (Hext (S j) f0); assumption. }
  destruct (bool_decide (PkgPath f = EmptyString)) eqn:Hp; simpl negb; cbv iota;
    [|apply IH; exact Hext'].
  assert (He : exported f = true).
  { unfold exported. apply bool_decide_eq_true in Hp. rewrite decide_True by exact Hp.
    reflexivity. }
  pose proof (Hext 0%nat f eq_refl He) as H0. rewrite Nat.add_0_r in H0.
  unfold FieldByIndex. simpl stype. simpl sfields. rewrite <- H0.
  destruct (typ !! i) as [f'|]; [|reflexivity].
  destruct (fs !! i) as [d|]; [|reflexivity].
  unfold fieldLen, Value_Len. simpl vtype. simpl vdata.
  destruct (KindOf (Type_ f)); try reflexivity; try (apply IH; exact Hext');
    destruct (Type_ f'); try reflexivity; try (apply IH; exact Hext');
    destruct d; try reflexivity; apply IH; exact Hext'.
Qed.

Section DecodeBuffer.
Variable typ : StructType.

(** Decoding the fields [fields], declared from position [i] on, from a
    buffer into well-typed storage [fsc]: with at least as many bytes as
    [structLen] counts for these fields, every field is decoded and
    exactly that many bytes are taken; with fewer, decoding stops with
    [ErrReadData] or [io.EOF] and the count 0. *)
Lemma unmarshal_fields_buffer (fields : list StructField) :
  forall (i : nat) (n : Z) (buf : list byte) (fsc : list data),
    (forall j f, fields !! j = Some f -> typ !! (i + j)%nat = Some f) ->
    (forall f, f ∈ fields -> PkgPath f = EmptyString ->
       supported (Type_ f) = true /\ tag_resolves f = true /\
       forall e, Type_ f <> TArray 0 e) ->
    has_struct_type typ fsc ->
    exists tot,
      0 <= tot /\
      (forall fl, structLen_loop (mkStruct typ fsc true) fields i fl = Ret (fl + tot, None)) /\
      (tot <= Z.of_nat (length buf) ->
       exists fs',
         unmarshal_fields typ BufferReader fields i n buf fsc =
           (Ret (n + tot, None), drop (Z.to_nat tot) buf, fs') /\
         has_struct_type typ fs' /\ presized fsc fs') /\
      (Z.of_nat (length buf) < tot ->
       exists e r' fs',
         unmarshal_fields typ BufferReader fields i n buf fsc = (Ret (0, Some e), r', fs') /\
         (Is e ErrReadData = true \/ Is e EOF = true) /\
         has_struct_type typ fs' /\ presized fsc fs').
Proof.
  induction fields as [|f rest IH]; intros i n buf fsc Htyp Hsup Hfsc.
  - exists 0. split; [lia|]. split; [intros fl; simpl; rewrite Z.add_0_r; reflexivity|].
    split.
    + intros _. exists fsc. simpl. rewrite Z.add_0_r.
      split; [reflexivity|]. split; [exact Hfsc | apply presized_refl].
    + simpl. lia.
  - assert (Htyp' : forall j f0, rest !! j = Some f0 -> typ !! (S i + j)%nat = Some f0).
    { intros j f0 Hj. replace (S i + j)%nat with (i + S j)%nat by lia.
      apply Htyp. exact Hj. }
    assert (Hsup' : forall f0, f0 ∈ rest -> PkgPath f0 = EmptyString ->
       supported (Type_ f0) = true /\ tag_resolves f0 = true /\
       forall e, Type_ f0 <> TArray 0 e).
    { intros f0 Hin. apply Hsup. right. exact Hin. }
    simpl.
    destruct (bool_decide (PkgPath f = EmptyString)) eqn:Hp; simpl negb; cbv iota;
      [|exact (IH (S i) n buf fsc Htyp' Hsup' Hfsc)].
    apply bool_decide_eq_true in Hp.
    pose proof (Htyp 0%nat f eq_refl) as Hf. rewrite Nat.add_0_r in Hf.
    destruct (Forall2_lookup_l _ _ _ _ _ Hfsc Hf) as (d0 & Hd0 & Hd0t).
    destruct (Hsup f (list_elem_of_here _ _) Hp) as (Hs & Ht & Hz).
    destruct (unmarshalField_buffer f d0 buf Hd0t Hs Ht Hz)
      as (req & Hlen & Hreq & Hok & Hshort).
    unfold FieldByIndex. simpl stype. simpl sfields. simpl saddr. rewrite Hf, Hd0, Hlen.
    destruct (Z_le_gt_dec req (Z.of_nat (length buf))) as [Hge|Hlt].
    + destruct (Hok Hge) as (d' & Hun & Hd't & Hsame). rewrite Hun. simpl vdata.
      destruct (insert_well_typed typ fsc i f d0 d' Hfsc Hf Hd0 Hd't Hsame)
        as [Hfsc' Hsized'].
      destruct (IH (S i) (n + req) (drop (Z.to_nat req) buf) (<[i:=d']> fsc)
                  Htyp' Hsup' Hfsc') as (tot & Htot & Hsl & Hok' & Hshort').
      assert (Hsl' : forall fl,
                structLen_loop (mkStruct typ fsc true) rest (S i) fl = Ret (fl + tot, None)).
      { intros fl. rewrite <- Hsl. apply structLen_loop_ext.
        intros j f0 _ _. symmetry. apply list_lookup_insert_ne. lia. }
      exists (req + tot). split; [lia|]. split.
      { intros fl. rewrite Hsl'. f_equal. f_equal. lia. }
      rewrite length_drop in Hok', Hshort'. split.
      * intros Hall. destruct Hok' as (fs' & Heq & Hfs' & Hp'); [lia|].
        exists fs'. rewrite Heq, drop_drop.
        replace (Z.to_nat req + Z.to_nat tot)%nat with (Z.to_nat (req + tot)) by lia.
        replace (n + req + tot) with (n + (req + tot)) by lia.
        split; [reflexivity|]. split; [exact Hfs'|].
        exact (presized_trans _ _ _ Hsized' Hp').
      * intros Hless. destruct Hshort' as (e & r' & fs' & Heq & He & Hfs' & Hp'); [lia|].
        exists e, r', fs'. rewrite Heq.
        split; [reflexivity|]. split; [exact He|]. split; [exact Hfs'|].
        exact (presized_trans _ _ _ Hsized' Hp').
    + destruct (Hshort ltac:(lia)) as (e & Hun & He). rewrite Hun. simpl vdata.
      destruct (IH (S i) n buf fsc Htyp' Hsup' Hfsc) as (tot & Htot & Hsl & _ & _).
      exists (req + tot). split; [lia|]. split.
      { intros fl. rewrite Hsl. f_equal. f_equal. lia. }
      split; [lia|]. intros _.
      exists e, [], (<[i:=d0]> fsc). split; [reflexivity|]. split; [exact He|].
      rewrite (list_insert_id fsc i d0 Hd0). split; [exact Hfsc | apply presized_refl].
Qed.
End DecodeBuffer.

Lemma codec_type_first_error (typ : StructType) :
  codec_type typ -> first_error typ = None.
Proof.
  unfold codec_type. induction typ as [|f rest IH]; intros Hc; simpl; [reflexivity|].
  assert (Hrest : first_error rest = None).
  { apply IH. intros f0 Hin. apply Hc. right. exact Hin. }
  destruct (bool_decide (PkgPath f = EmptyString)) eqn:Hp; simpl; [|exact Hrest].
  apply bool_decide_eq_true in Hp.
  destruct (Hc f (list_elem_of_here _ _) Hp) as [Hs Ht].
  destruct (newFieldMarshaler_supported f Hs Ht) as [fm ->]. exact Hrest.
Qed.

Lemma codec_fields (typ : StructType) :
  codec_type typ -> no_empty_array typ ->
  forall f, f ∈ typ -> PkgPath f = EmptyString ->
    supported (Type_ f) = true /\ tag_resolves f = true /\
    forall e, Type_ f <> TArray 0 e.
Proof.
  intros Hc Hz f Hin Hp. destruct (Hc f Hin Hp) as [Hs Ht].
  split; [exact Hs|]. split; [exact Ht|]. exact (Hz f Hin Hp).
Qed.

(** The struct of the package's test is one the codec accepts, and the
    records [ts1] and [ts2] are records of it. *)
Lemma testStruct_codec_type : codec_type testStruct.
Proof.
  intros f Hin _. unfold testStruct in Hin.
  repeat (apply elem_of_cons in Hin as [->|Hin]; [split; reflexivity|]).
  inversion Hin.
Qed.

Lemma testStruct_no_empty_array : no_empty_array testStruct.
Proof.
  intros f Hin _ e. unfold testStruct in Hin.
  repeat (apply elem_of_cons in Hin as [->|Hin]; [discriminate|]).
  inversion Hin.
Qed.

Lemma ts1_well_typed : has_struct_type testStruct ts1.
Proof. repeat constructor; simpl; lia. Qed.

Lemma ts2_well_typed : has_struct_type testStruct ts2.
Proof. repeat constructor; simpl; lia. Qed.

(** X1. Given at least as many bytes as [StructLen] counts for the
    destination, [UnmarshalFromReader] on a buffer decodes every exported
    field, returns that count, and leaves the bytes behind it in the
    buffer: [Unmarshal] returns nil whatever follows the record.  The
    record stays well typed and its byte sequences keep their lengths. *)
Theorem Unmarshal_enough_bytes (typ : StructType) (fs0 : list data)
    (data_ : list byte) (cache : gmap (list StructField) unmarshaler) :
  unmarshalCache_ok cache ->
  codec_type typ -> no_empty_array typ ->
  has_struct_type typ fs0 ->
  exists n,
    StructLen (StructPtr typ fs0) = Ret (n, None) /\ 0 <= n /\
    (n <= Z.of_nat (length data_) ->
     exists fs' cache',
       UnmarshalFromReader BufferReader data_ (StructPtr typ fs0) cache =
         (Ret (n, None), drop (Z.to_nat n) data_, StructPtr typ fs', cache') /\
       Unmarshal data_ (StructPtr typ fs0) cache =
         (Ret None, StructPtr typ fs', cache') /\
       has_struct_type typ fs' /\ presized fs0 fs').
Proof.
  intros Hok Hc Hz Hfs0.
  destruct (unmarshal_fields_buffer typ typ 0 0 data_ fs0 (fun j f Hj => Hj)
              (codec_fields typ Hc Hz) Hfs0) as (tot & Htot & Hsl & Hdec & _).
  exists tot. split; [exact (Hsl 0)|]. split; [exact Htot|].
  intros Hge. destruct (Hdec Hge) as (fs' & Heq & Hfs' & Hp).
  pose proof (unmarshal_spec BufferReader data_ typ fs0 cache Hok) as Hsp.
  rewrite (codec_type_first_error typ Hc) in Hsp. destruct Hsp as (cache' & _ & Hsp).
  exists fs', cache'. unfold Unmarshal, UnmarshalFromReader. rewrite Hsp, Heq.
  repeat split; assumption.
Qed.

Lemma Unmarshal_enough_bytes_witness :
  exists n,
    StructLen (StructPtr testStruct ts2) = Ret (n, None) /\ 0 <= n /\
    (n <= Z.of_nat (length (repeat x07 40)) ->
     exists fs' cache',
       UnmarshalFromReader BufferReader (repeat x07 40) (StructPtr testStruct ts2) ∅ =
         (Ret (n, None), drop (Z.to_nat n) (repeat x07 40), StructPtr testStruct fs', cache') /\
       Unmarshal (repeat x07 40) (StructPtr testStruct ts2) ∅ =
         (Ret None, StructPtr testStruct fs', cache') /\
       has_struct_type testStruct fs' /\ presized ts2 fs').
Proof.
  exact (Unmarshal_enough_bytes testStruct ts2 (repeat x07 40) ∅
           unmarshalCache_ok_empty testStruct_codec_type testStruct_no_empty_array
           ts2_well_typed).
Defined.



(** ** Encoding well-typed records into a buffer *)

(** One field of a supported type, written to a buffer: the operation
    panics on a byte array that is not addressable or empty; in every
    other case it appends the field's bytes and returns their number. *)
Lemma marshalField_buffer_cases (f : StructField) (d : data) (a : bool)
    (buf : list byte) :
  has_type (Type_ f) d ->
  supported (Type_ f) = true -> tag_resolves f = true ->
  if array_panics a (Type_ f)
  then marshalField f (mkValue (Type_ f) d a) BufferWriter buf = (Panic PanicReflect, buf)
  else exists p,
         marshalField f (mkValue (Type_ f) d a) BufferWriter buf =
           (Ret (Z.of_nat (length p), None), buf ++ p).
Proof.
  intros Hd Hs Ht. destruct (newFieldMarshaler_supported f Hs Ht) as [fm Hfm].
  unfold marshalField. rewrite Hfm.
  destruct (newFieldMarshaler_inv f fm Hfm) as [(o & Ho & [Hsz Hen] & ->)|(Ho & Hk & He & ->)].
  - destruct (uint_field_inv f (mkValue (Type_ f) d a) o eq_refl Hd Ho)
      as ((u & Hu & _) & _ & _).
    destruct (uint_field_type f o Ho) as (-> & _). simpl array_panics. cbv iota.
    simpl in Hu. subst d. unfold marshalUint, Value_Uint. simpl vdata. cbv iota.
    destruct (putUint_good u (endian (fm_tag fm)) (BitSize o) BufferWriter buf Hsz Hen)
      as [Hlen ->].
    exists (putUint_payload u (endian (fm_tag fm)) (BitSize o)).
    cbn [Write BufferWriter]. rewrite Hlen, Z.eqb_refl. reflexivity.
  - destruct (bytes_field_inv f (mkValue (Type_ f) d a) eq_refl Hd Hk He)
      as (b & Hb & Hlen & _ & Hshape).
    simpl in Hb. subst d. unfold marshalBytes.
    destruct Hshape as [[n Hn]|Hsl].
    + rewrite decide_True by (rewrite Hn; reflexivity).
      unfold valueByteArrayToByteSlice. rewrite Hlen. simpl CanAddr. simpl vdata.
      rewrite Hn in Hd. simpl in Hd. rewrite Hn. simpl array_panics.
      destruct (Nat.eqb_spec n 0) as [Hn0|Hn0].
      * rewrite orb_true_r. subst n. rewrite Hn0. reflexivity.
      * rewrite orb_false_r.
        destruct (Z.eqb_spec (Z.of_nat (length b)) 0) as [H0|H0]; [lia|].
        destruct a; simpl negb; cbv iota; [|reflexivity].
        exists b. cbn [Write BufferWriter]. rewrite Z.eqb_refl. reflexivity.
    + rewrite decide_False by (rewrite Hsl; discriminate).
      rewrite Hsl. simpl array_panics. cbv iota.
      unfold Value_Bytes. simpl vdata. cbv iota. cbn [Write BufferWriter].
      exists b. rewrite <- Hsl, Hlen, Z.eqb_refl. reflexivity.
Qed.

(** The fields of a well-typed record of an accepted type, written to a
    buffer: the loop panics at the first byte array that is not
    addressable or empty, and succeeds when there is none; it never
    returns an error. *)
Lemma marshal_fields_buffer_cases (typ : StructType) (fs : list data) (a : bool)
    (fields : list StructField) :
  has_struct_type typ fs ->
  forall (i : nat) (n : Z) (buf : list byte),
    (forall j f, fields !! j = Some f -> typ !! (i + j)%nat = Some f) ->
    (forall f, f ∈ fields -> PkgPath f = EmptyString ->
       supported (Type_ f) = true /\ tag_resolves f = true) ->
    ((exists f, f ∈ fields /\ PkgPath f = EmptyString /\ array_panics a (Type_ f) = true) ->
     exists out,
       marshal_fields (mkStruct typ fs a) BufferWriter fields i n buf =
         (Panic PanicReflect, out)) /\
    ((forall f, f ∈ fields -> PkgPath f = EmptyString -> array_panics a (Type_ f) = false) ->
     exists m out,
       marshal_fields (mkStruct typ fs a) BufferWriter fields i n buf =
         (Ret (m, None), out)).
Proof.
  intros Hfs. induction fields as [|f rest IH]; intros i n buf Htyp Hsup.
  - split; [intros (f & Hin & _); inversion Hin | intros _; simpl; eauto].
  - assert (Htyp' : forall j f0, rest !! j = Some f0 -> typ !! (S i + j)%nat = Some f0).
    { intros j f0 Hj. replace (S i + j)%nat with (i + S j)%nat by lia.
      apply Htyp. exact Hj. }
    assert (Hsup' : forall f0, f0 ∈ rest -> PkgPath f0 = EmptyString ->
       supported (Type_ f0) = true /\ tag_resolves f0 = true).
    { intros f0 Hin. apply Hsup. right. exact Hin. }
    simpl.
    destruct (bool_decide (PkgPath f = EmptyString)) eqn:Hp; simpl negb; cbv iota.
    + apply bool_decide_eq_true in Hp.
      pose proof (Htyp 0%nat f eq_refl) as Hf. rewrite Nat.add_0_r in Hf.
      destruct (Forall2_lookup_l _ _ _ _ _ Hfs Hf) as (d & Hd & Hdt).
      unfold FieldByIndex. simpl stype. simpl sfields. rewrite Hf, Hd. simpl saddr.
      destruct (Hsup f (list_elem_of_here _ _) Hp) as (Hs & Ht).
      pose proof (marshalField_buffer_cases f d a buf Hdt Hs Ht) as Hcase.
      destruct (array_panics a (Type_ f)) eqn:Hbad.
      * rewrite Hcase. split; [eauto|].
        intros Hnone. rewrite (Hnone f (list_elem_of_here _ _) Hp) in Hbad. discriminate.
      * destruct Hcase as (p & ->).
        destruct (IH (S i) (n + Z.of_nat (length p)) (buf ++ p) Htyp' Hsup') as [IH1 IH2].
        split.
        -- intros (f0 & Hin & Hp0 & Hbad0). apply IH1. exists f0.
           apply elem_of_cons in Hin as [->|Hin]; [congruence|auto].
        -- intros Hnone. apply IH2. intros f0 Hin. apply Hnone. right. exact Hin.
    + apply bool_decide_eq_false in Hp.
      destruct (IH (S i) n buf Htyp' Hsup') as [IH1 IH2]. split.
      * intros (f0 & Hin & Hp0 & Hbad0). apply IH1. exists f0.
        apply elem_of_cons in Hin as [->|Hin]; [congruence|auto].
      * intros Hnone. apply IH2. intros f0 Hin. apply Hnone. right. exact Hin.
Qed.

(** A type for which both builders succeed is one the codec accepts. *)
Lemma first_error_codec_type (typ : StructType) :
  first_error typ = None -> codec_type typ.
Proof.
  unfold codec_type. induction typ as [|f rest IH]; intros He f0 Hin Hp0.
  - inversion Hin.
  - simpl in He. pose proof (newFieldMarshaler_cases f) as Hc.
    apply elem_of_cons in Hin as [->|Hin].
    + rewrite (bool_decide_eq_true_2 _ Hp0) in He. simpl in He.
      destruct (newFieldMarshaler f); [tauto | discriminate].
    + apply IH; [|exact Hin|exact Hp0].
      destruct (negb (bool_decide (PkgPath f = EmptyString))); [exact He|].
      destruct (newFieldMarshaler f); [exact He | discriminate].
Qed.

(** ** [StructLen] on well-typed records *)

Lemma fieldLen_well_typed (f : StructField) (d : data) (a : bool) :
  has_type (Type_ f) d ->
  if len_kind (KindOf (Type_ f))
  then exists l, 0 <= l /\ fieldLen f (mkValue (Type_ f) d a) = Ret (l, None)
  else fieldLen f (mkValue (Type_ f) d a) = Ret (0, Some errLenNotSupport).
Proof.
  intros Hd. unfold fieldLen, Value_Len. simpl vtype. simpl vdata.
  destruct (Type_ f) as [k|n e|e]; simpl in *.
  - destruct k; simpl; try reflexivity; try (eexists; split; [|reflexivity]; lia);
      destruct d; contradiction.
  - eexists; split; [|reflexivity]; lia.
  - destruct e; destruct d; try contradiction; eexists; (split; [|reflexivity]); lia.
Qed.

Lemma structLen_loop_cases (value : StructValue) (fields : list StructField) :
  has_struct_type (stype value) (sfields value) ->
  forall (i : nat),
    (forall j f, fields !! j = Some f -> stype value !! (i + j)%nat = Some f) ->
    (exists tot, 0 <= tot /\
       forall fl, structLen_loop value fields i fl = Ret (fl + tot, None)) \/
    ((forall fl, structLen_loop value fields i fl = Ret (0, Some errLenNotSupport)) /\
     exists f, f ∈ fields /\ PkgPath f = EmptyString /\ len_kind (KindOf (Type_ f)) = false).
Proof.
  intros Hfs. induction fields as [|f rest IH]; intros i Htyp.
  - left. exists 0. split; [lia|]. intros fl. simpl. rewrite Z.add_0_r. reflexivity.
  - assert (Htyp' : forall j f0, rest !! j = Some f0 ->
              stype value !! (S i + j)%nat = Some f0).
    { intros j f0 Hj. replace (S i + j)%nat with (i + S j)%nat by lia.
      apply Htyp. exact Hj. }
    specialize (IH (S i) Htyp'). simpl.
    destruct (bool_decide (PkgPath f = EmptyString)) eqn:Hp; simpl negb; cbv iota.
    + apply bool_decide_eq_true in Hp.
      pose proof (Htyp 0%nat f eq_refl) as Hf. rewrite Nat.add_0_r in Hf.
      destruct (Forall2_lookup_l _ _ _ _ _ Hfs Hf) as (d & Hd & Hdt).
      unfold FieldByIndex. rewrite Hf, Hd.
      pose proof (fieldLen_well_typed f d (saddr value) Hdt) as Hlen.
      destruct (len_kind (KindOf (Type_ f))) eqn:Hk.
      * destruct Hlen as (l & Hl & ->).
        destruct IH as [(tot & Htot & Hsl)|(Herr & f0 & Hin & Hp0 & Hk0)].
        -- left. exists (l + tot). split; [lia|]. intros fl. rewrite Hsl.
           f_equal. f_equal. lia.
        -- right. split; [intros fl; apply Herr|].
           exists f0. split; [right; exact Hin | auto].
      * rewrite Hlen. right. split; [reflexivity|].
        exists f. split; [left | auto].
    + destruct IH as [Hok|(Herr & f0 & Hin & Hp0 & Hk0)]; [left; exact Hok|].
      right. split; [exact Herr|]. exists f0. split; [right; exact Hin | auto].
Qed.

(** X3. On a well-typed record [StructLen] does not panic: it returns a
    count that is not negative, or the count 0 with [ErrInvalidType], and
    the latter exactly when an exported field has a kind other than the
    unsigned integers of 8 to 64 bits, array and slice.  Annotations and
    element kinds play no part. *)
Theorem StructLen_well_typed (s : iface) (value : StructValue) :
  value_of s = Some value ->
  has_struct_type (stype value) (sfields value) ->
  ((exists n, 0 <= n /\ StructLen s = Ret (n, None)) /\
   forall f, f ∈ stype value -> PkgPath f = EmptyString ->
     len_kind (KindOf (Type_ f)) = true) \/
  (StructLen s = Ret (0, Some errLenNotSupport) /\
   Is errLenNotSupport ErrInvalidType = true /\
   exists f, f ∈ stype value /\ PkgPath f = EmptyString /\
     len_kind (KindOf (Type_ f)) = false).
Proof.
  intros Hv Hfs.
  assert (HS : StructLen s = structLen value).
  { destruct s; simpl in Hv; inversion Hv; reflexivity. }
  rewrite HS. unfold structLen.
  destruct (structLen_loop_cases value (stype value) Hfs 0 (fun j f Hj => Hj))
    as [(tot & Htot & Hsl)|(Herr & Hex)].
  - left. split; [exists tot; split; [exact Htot | exact (Hsl 0)]|].
    intros f Hin Hp. destruct (len_kind (KindOf (Type_ f))) eqn:Hk; [reflexivity|].
    exfalso.
    assert (Hbad : structLen_loop value (stype value) 0 0 = Ret (0, Some errLenNotSupport)).
    { apply structLen_loop_unsupported_kind.
      - intros j f0 Hj. split; [exact Hj|]. exact (Forall2_lookup_l _ _ _ _ _ Hfs Hj).
      - exists f. split; [exact Hin|]. split; [exact Hp|].
        unfold fieldLen. simpl vtype. destruct (KindOf (Type_ f)); try discriminate;
          reflexivity. }
    rewrite (Hsl 0) in Hbad. discriminate.
  - right. split; [exact (Herr 0)|]. split; [reflexivity | exact Hex].
Qed.

Lemma StructLen_well_typed_witness :
  ((exists n, 0 <= n /\ StructLen (StructVal testStruct ts1) = Ret (n, None)) /\
   forall f, f ∈ testStruct -> PkgPath f = EmptyString ->
     len_kind (KindOf (Type_ f)) = true) \/
  (StructLen (StructVal testStruct ts1) = Ret (0, Some errLenNotSupport) /\
   Is errLenNotSupport ErrInvalidType = true /\
   exists f, f ∈ testStruct /\ PkgPath f = EmptyString /\
     len_kind (KindOf (Type_ f)) = false).
Proof.
  exact (StructLen_well_typed (StructVal testStruct ts1) (mkStruct testStruct ts1 false)
           eq_refl ts1_well_typed).
Defined.




(** ** [Marshal] on well-typed records *)

(** X5. [Marshal] of a well-typed record of an accepted type panics
    inside [reflect] exactly when an exported field is a byte array that
    [valueByteArrayToByteSlice] cannot take the address of: any byte array
    when the struct is passed by value, an array of length zero in any
    case.  Otherwise it returns the bytes, as many as [StructLen] counts. *)
Theorem Marshal_panics_on_unaddressable_array (s : iface) (typ : StructType)
    (fs : list data) (a : bool) (cache : gmap (list StructField) marshaler) :
  marshalCache_ok cache ->
  value_of s = Some (mkStruct typ fs a) ->
  codec_type typ ->
  has_struct_type typ fs ->
  ((exists f, f ∈ typ /\ PkgPath f = EmptyString /\ array_panics a (Type_ f) = true) ->
   (Marshal s cache).1 = Panic PanicReflect) /\
  ((forall f, f ∈ typ -> PkgPath f = EmptyString -> array_panics a (Type_ f) = false) ->
   exists bs, (Marshal s cache).1 = Ret (Ok bs) /\
              StructLen s = Ret (Z.of_nat (length bs), None)).
Proof.
  intros Hok Hv Hc Hfs.
  destruct (marshal_fields_buffer_cases typ fs a typ Hfs 0 0 [] (fun j f Hj => Hj) Hc)
    as [Hbad Hgood].
  pose proof (marshal_spec (mkStruct typ fs a) BufferWriter [] cache Hok) as Hsp.
  simpl in Hsp. rewrite (codec_type_first_error typ Hc) in Hsp.
  destruct Hsp as (cache' & _ & Hsp).
  assert (HM : MarshalToWriter s BufferWriter [] cache =
               marshal (mkStruct typ fs a) BufferWriter [] cache).
  { destruct s; simpl in Hv; inversion Hv; reflexivity. }
  assert (HS : StructLen s = structLen (mkStruct typ fs a)).
  { destruct s; simpl in Hv; inversion Hv; reflexivity. }
  unfold Marshal. rewrite HM, Hsp. split.
  - intros Hex. destruct (Hbad Hex) as (out & ->). reflexivity.
  - intros Hall. destruct (Hgood Hall) as (m & out & Hm). rewrite Hm. simpl.
    exists out. split; [reflexivity|].
    destruct (marshal_fields_len _ _ _ _ _ _ _ 0 Hm) as [Hs Hl].
    rewrite HS. unfold structLen. simpl stype. rewrite Hs. f_equal. f_equal.
    simpl in Hl. lia.
Qed.

Lemma Marshal_panics_on_unaddressable_array_witness :
  ((exists f, f ∈ testStruct /\ PkgPath f = EmptyString /\
      array_panics false (Type_ f) = true) ->
   (Marshal (StructVal testStruct ts1) ∅).1 = Panic PanicReflect) /\
  ((forall f, f ∈ testStruct -> PkgPath f = EmptyString ->
      array_panics false (Type_ f) = false) ->
   exists bs, (Marshal (StructVal testStruct ts1) ∅).1 = Ret (Ok bs) /\
              StructLen (StructVal testStruct ts1) = Ret (Z.of_nat (length bs), None)).
Proof.
  exact (Marshal_panics_on_unaddressable_array (StructVal testStruct ts1) testStruct ts1
           false ∅ marshalCache_ok_empty eq_refl testStruct_codec_type ts1_well_typed).
Defined.

(** X6. [Marshal] writes into memory, and so the only errors it returns
    for a well-typed record are those of validation and plan construction:
    [ErrInvalidType] for an argument that is no struct, and otherwise the
    error of [newMarshaler], which is [ErrInvalidType] or [ErrTagFormat];
    the cache is then as before. *)
Theorem Marshal_errors (s : iface) (cache cache' : gmap (list StructField) marshaler)
    (e : error) :
  marshalCache_ok cache ->
  (forall value, value_of s = Some value ->
     has_struct_type (stype value) (sfields value)) ->
  Marshal s cache = (Ret (Err e), cache') ->
  cache' = cache /\
  (Is e ErrInvalidType = true \/ Is e ErrTagFormat = true) /\
  Is e ErrWriteDataLen = false /\
  match value_of s with
  | None => e = ErrInvalidType
  | Some value => newMarshaler (stype value) = Err e
  end.
Proof.
  intros Hok Hwt. unfold Marshal.
  assert (Hv : forall value, has_struct_type (stype value) (sfields value) ->
    match marshal value BufferWriter [] cache with
    | (Panic p, _, c) => (Panic p, c)
    | (Ret (_, Some err), _, c) => (Ret (Err err), c)
    | (Ret (_, None), bb, c) => (Ret (Ok bb), c)
    end = (Ret (Err e), cache') ->
    cache' = cache /\ (Is e ErrInvalidType = true \/ Is e ErrTagFormat = true) /\
    Is e ErrWriteDataLen = false /\ newMarshaler (stype value) = Err e).
  { intros value Hfs. pose proof (marshal_spec value BufferWriter [] cache Hok) as Hsp.
    pose proof (newMarshaler_loop_error (stype value) 0 (mkMarshaler [] [])) as Hm.
    fold (newMarshaler (stype value)) in Hm.
    destruct (first_error (stype value)) as [e0|] eqn:He.
    - rewrite Hsp. intros H; inversion H; subst e0 cache'. split; [reflexivity|].
      assert (Hcases : (Is e ErrInvalidType = true /\ Is e ErrTagFormat = false) \/
                       (Is e ErrTagFormat = true /\ Is e ErrInvalidType = false)).
      { clear - He. induction (stype value) as [|f rest IH]; [discriminate|].
        simpl in He. pose proof (newFieldMarshaler_cases f) as Hc.
        destruct (negb (bool_decide (PkgPath f = EmptyString))); [exact (IH He)|].
        destruct (newFieldMarshaler f) as [fm|e1]; [exact (IH He)|].
        inversion He; subst e1. tauto. }
      split; [tauto|]. split.
      + clear - He. induction (stype value) as [|f rest IH]; [discriminate|].
        simpl in He.
        destruct (negb (bool_decide (PkgPath f = EmptyString))); [exact (IH He)|].
        destruct (newFieldMarshaler f) as [fm|e1] eqn:Hf; [exact (IH He)|].
        inversion He; subst e1. unfold newFieldMarshaler, newMarshalFunc in Hf.
        destruct (newFieldTag _ _ _) as [t|e1] eqn:Ht.
        * destruct (KindOf (Type_ f)); try discriminate; inversion Hf;
            try reflexivity; destruct (negb _); inversion Hf; reflexivity.
        * inversion Hf; subst e1. destruct (newFieldTag_error _ _ _ _ Ht) as [fmt ->].
          reflexivity.
      + destruct (newMarshaler (stype value)); congruence.
    - destruct Hsp as (c1 & _ & ->). intros H. exfalso.
      destruct value as [typ fs a]. simpl in *.
      destruct (marshal_fields_buffer_cases typ fs a typ Hfs 0 0 [] (fun j f Hj => Hj)
                  (first_error_codec_type typ He)) as [Hbad Hgood].
      assert (Hdec : (exists f, f ∈ typ /\ PkgPath f = EmptyString /\
                         array_panics a (Type_ f) = true) \/
                     (forall f, f ∈ typ -> PkgPath f = EmptyString ->
                         array_panics a (Type_ f) = false)).
      { clear. induction typ as [|f rest IH].
        - right. intros f Hin. inversion Hin.
        - destruct IH as [(f0 & Hin & H1 & H2)|Hall].
          + left. exists f0. split; [right; exact Hin | auto].
          + destruct (decide (PkgPath f = EmptyString)) as [Hp|Hp].
            * destruct (array_panics a (Type_ f)) eqn:Hb.
              -- left. exists f. split; [left | auto].
              -- right. intros f0 Hin. apply elem_of_cons in Hin as [->|Hin]; auto.
            * right. intros f0 Hin. apply elem_of_cons in Hin as [->|Hin]; auto.
              intros Hp0. contradiction. }
      destruct Hdec as [Hex|Hall].
      + destruct (Hbad Hex) as (out & Hout). rewrite Hout in H. discriminate.
      + destruct (Hgood Hall) as (m & out & Hout). rewrite Hout in H. discriminate. }
  destruct s as [typ fs|typ fs|p]; simpl.
  - intros H. exact (Hv _ (Hwt _ eq_refl) H).
  - intros H. exact (Hv _ (Hwt _ eq_refl) H).
  - intros H; inversion H; subst. repeat split; auto.
Qed.

Lemma Marshal_errors_witness :
  ∅ = (∅ : gmap (list StructField) marshaler) /\
  (Is (Wrapf "%w: Endian not found" ErrTagFormat) ErrInvalidType = true \/
   Is (Wrapf "%w: Endian not found" ErrTagFormat) ErrTagFormat = true) /\
  Is (Wrapf "%w: Endian not found" ErrTagFormat) ErrWriteDataLen = false /\
  newMarshaler exampleU32NoOrder = Err (Wrapf "%w: Endian not found" ErrTagFormat).
Proof.
  refine (Marshal_errors (StructPtr exampleU32NoOrder [DUint 1]) ∅ ∅
            (Wrapf "%w: Endian not found" ErrTagFormat) marshalCache_ok_empty _ _).
  - intros value Hv. inversion Hv; subst. repeat constructor; simpl; lia.
  - reflexivity.
Defined.

(** ** Streams of records *)

(** The fields written to a buffer that already holds [buf]: the outcome
    is that of writing to an empty buffer, and the bytes follow [buf]. *)
Lemma marshal_fields_frame (value : StructValue) (fields : list StructField) :
  forall (i : nat) (n : Z) (buf : list byte),
    marshal_fields value BufferWriter fields i n buf =
      ((marshal_fields value BufferWriter fields i n []).1,
       buf ++ (marshal_fields value BufferWriter fields i n []).2).
Proof.
  induction fields as [|f rest IH]; intros i n buf; simpl.
  - rewrite app_nil_r. reflexivity.
  - destruct (negb (bool_decide (PkgPath f = EmptyString))); [apply IH|].
    destruct (FieldByIndex value i) as [fv|pn]; [|simpl; rewrite app_nil_r; reflexivity].
    rewrite (marshalField_buffer f fv buf).
    destruct (marshalField f fv BufferWriter []) as [[[num [err|]]|pn] p]; simpl;
      try reflexivity.
    rewrite (IH (S i) (n + num) (buf ++ p)), (IH (S i) (n + num) p). simpl.
    rewrite app_assoc. reflexivity.
Qed.

(** The cache after [marshal] is the cache after [getMarshaler]. *)
Lemma marshal_cache (value : StructValue) (W : Writer) (w : wstate W)
    (cache : gmap (list StructField) marshaler) :
  (marshal value W w cache).2 = (getMarshaler (stype value) cache).2.
Proof.
  unfold marshal. destruct (getMarshaler (stype value) cache) as [[m|e] c]; [|reflexivity].
  destruct (marshaler_marshal m value W w); reflexivity.
Qed.

Lemma marshal_frame (value : StructValue) (buf : list byte)
    (cache : gmap (list StructField) marshaler) :
  marshalCache_ok cache ->
  marshal value BufferWriter buf cache =
    ((marshal value BufferWriter [] cache).1.1,
     buf ++ (marshal value BufferWriter [] cache).1.2,
     (marshal value BufferWriter [] cache).2) /\
  forall n, (marshal value BufferWriter [] cache).1.1 = Ret (n, None) ->
    n = Z.of_nat (length (marshal value BufferWriter [] cache).1.2).
Proof.
  intros Hok.
  pose proof (marshal_spec value BufferWriter buf cache Hok) as H1.
  pose proof (marshal_spec value BufferWriter [] cache Hok) as H0.
  pose proof (marshal_cache value BufferWriter buf cache) as Hc1.
  pose proof (marshal_cache value BufferWriter [] cache) as Hc0.
  destruct (first_error (stype value)) as [e|].
  - rewrite H1, H0. simpl. rewrite app_nil_r. split; [reflexivity | discriminate].
  - destruct H1 as (c1 & _ & H1). destruct H0 as (c0 & _ & H0).
    rewrite H1 in Hc1. rewrite H0 in Hc0. simpl in Hc1, Hc0.
    rewrite H1, H0. simpl. rewrite marshal_fields_frame. simpl. split.
    + congruence.
    + intros n Hn.
      destruct (marshal_fields value BufferWriter (stype value) 0 0 []) as [o out] eqn:Hm.
      simpl in Hn. subst o. simpl.
      destruct (marshal_fields_len _ _ _ _ _ _ _ 0 Hm) as [_ Hl]. simpl in Hl. lia.
Qed.

(** X7. [MarshalToWriter] on a buffer that already holds bytes does what
    it does on an empty one, after those bytes: the same outcome and the
    same cache, the earlier bytes untouched and the new ones appended,
    also when it fails or panics half way.  When it succeeds, the count it
    returns is the number of bytes appended. *)
Theorem MarshalToWriter_appends (s : iface) (buf : list byte)
    (cache : gmap (list StructField) marshaler) :
  marshalCache_ok cache ->
  MarshalToWriter s BufferWriter buf cache =
    ((MarshalToWriter s BufferWriter [] cache).1.1,
     buf ++ (MarshalToWriter s BufferWriter [] cache).1.2,
     (MarshalToWriter s BufferWriter [] cache).2) /\
  forall n, (MarshalToWriter s BufferWriter [] cache).1.1 = Ret (n, None) ->
    n = Z.of_nat (length (MarshalToWriter s BufferWriter [] cache).1.2).
Proof.
  intros Hok. destruct s as [typ fs|typ fs|p]; simpl.
  - exact (marshal_frame _ buf cache Hok).
  - exact (marshal_frame _ buf cache Hok).
  - rewrite app_nil_r. split; [reflexivity | discriminate].
Qed.

Lemma MarshalToWriter_appends_witness :
  MarshalToWriter (StructPtr testStruct ts1) BufferWriter [xaa; xbb] ∅ =
    ((MarshalToWriter (StructPtr testStruct ts1) BufferWriter [] ∅).1.1,
     [xaa; xbb] ++ (MarshalToWriter (StructPtr testStruct ts1) BufferWriter [] ∅).1.2,
     (MarshalToWriter (StructPtr testStruct ts1) BufferWriter [] ∅).2) /\
  forall n, (MarshalToWriter (StructPtr testStruct ts1) BufferWriter [] ∅).1.1 = Ret (n, None) ->
    n = Z.of_nat (length (MarshalToWriter (StructPtr testStruct ts1) BufferWriter [] ∅).1.2).
Proof.
  exact (MarshalToWriter_appends (StructPtr testStruct ts1) [xaa; xbb] ∅
           marshalCache_ok_empty).
Defined.

(** X8. A record read from a stream: when the reader holds the bytes
    [Marshal] gave for a well-typed record, followed by anything,
    [UnmarshalFromReader] into a destination of the same type and sizes
    sets every exported field to the source's, returns the number of these
    bytes, and leaves exactly what followed them in the reader.  So records
    written back to back are read back one after the other. *)
Theorem UnmarshalFromReader_stream (s : iface) (value : StructValue) (fs0 : list data)
    (mcache mcache' : gmap (list StructField) marshaler)
    (ucache : gmap (list StructField) unmarshaler) (bs rest : list byte) :
  marshalCache_ok mcache ->
  unmarshalCache_ok ucache ->
  value_of s = Some value ->
  has_struct_type (stype value) (sfields value) ->
  has_struct_type (stype value) fs0 ->
  presized (sfields value) fs0 ->
  Marshal s mcache = (Ret (Ok bs), mcache') ->
  exists fs' ucache',
    UnmarshalFromReader BufferReader (bs ++ rest) (StructPtr (stype value) fs0) ucache =
      (Ret (Z.of_nat (length bs), None), rest, StructPtr (stype value) fs', ucache') /\
    (forall j f, stype value !! j = Some f ->
       fs' !! j = if exported f then sfields value !! j else fs0 !! j).
Proof.
  intros Hmc Huc Hv Hfs Hfs0 Hsized HM.
  destruct (Marshal_ok s mcache mcache' bs Hmc HM) as (value' & m & Hv' & Herr & Hm).
  rewrite Hv in Hv'. inversion Hv'; subst value'. clear Hv'.
  destruct value as [typ fs a]. simpl in *.
  destruct (fields_roundtrip typ fs fs0 a Hfs Hfs0 Hsized typ 0 0 m [] bs
              (fun j f Hj => Hj) Hm) as (p & Hp & Hun).
  simpl in Hp. subst p.
  destruct (marshal_fields_len _ _ _ _ _ _ _ 0 Hm) as [_ Hl]. simpl in Hl.
  destruct (Hun rest 0 fs0 (fun j _ => eq_refl)) as (fs' & Heq & Hlen & _ & Hfields).
  simpl in Hfields.
  pose proof (unmarshal_spec BufferReader (bs ++ rest) typ fs0 ucache Huc) as Hsp.
  rewrite Herr in Hsp. destruct Hsp as (ucache' & Huc' & Hsp).
  exists fs', ucache'. split.
  - unfold UnmarshalFromReader. rewrite Hsp, Heq.
    replace (0 + (m - 0)) with (Z.of_nat (length bs)) by lia. reflexivity.
  - intros j f Hj. exact (Hfields j f Hj).
Qed.

Lemma UnmarshalFromReader_stream_witness :
  exists fs' ucache',
    UnmarshalFromReader BufferReader
      ([x01; x02; x03; x04; xff; x00; xff; x00; x00; xff; xff;
        x00; x00; x00; x00; xff; xff; xff; xff; xd2; x04;
        x0a; x0b; x0c; x0d; x0e; x0f; x10; x11; x12; x13] ++ [x55; x66])
      (StructPtr testStruct ts2) ∅ =
      (Ret (Z.of_nat (length
              [x01; x02; x03; x04; xff; x00; xff; x00; x00; xff; xff;
               x00; x00; x00; x00; xff; xff; xff; xff; xd2; x04;
               x0a; x0b; x0c; x0d; x0e; x0f; x10; x11; x12; x13]), None),
       [x55; x66], StructPtr testStruct fs', ucache') /\
    (forall j f, testStruct !! j = Some f ->
       fs' !! j = if exported f then ts1 !! j else ts2 !! j).
Proof.
  refine (UnmarshalFromReader_stream (StructPtr testStruct ts1) (mkStruct testStruct ts1 true)
            ts2 ∅ (Marshal (StructPtr testStruct ts1) ∅).2 ∅ _ [x55; x66]
            marshalCache_ok_empty unmarshalCache_ok_empty eq_refl
            ts1_well_typed ts2_well_typed _ _).
  - repeat constructor.
  - apply pair_fst_eq. vm_compute. reflexivity.
Defined.

(** ** Fields that are not exported *)

Lemma exported_true (f : StructField) : exported f = true <-> PkgPath f = EmptyString.
Proof. unfold exported. destruct (decide _); split; congruence. Qed.

Lemma exported_false (f : StructField) : exported f = false <-> PkgPath f <> EmptyString.
Proof. unfold exported. destruct (decide _); split; congruence. Qed.

Lemma marshal_fields_ext (typ : StructType) (fs1 fs2 : list data) (a : bool)
    (W : Writer) (fields : list StructField) :
  forall (i : nat) (n : Z) (w : wstate W),
    (forall j f, fields !! j = Some f -> exported f = true ->
       fs1 !! (i + j)%nat = fs2 !! (i + j)%nat) ->
    marshal_fields (mkStruct typ fs1 a) W fields i n w =
    marshal_fields (mkStruct typ fs2 a) W fields i n w.
Proof.
  induction fields as [|f rest IH]; intros i n w Hext; simpl; [reflexivity|].
  assert (Hext' : forall j f0, rest !! j = Some f0 -> exported f0 = true ->
            fs1 !! (S i + j)%nat = fs2 !! (S i + j)%nat).
  { intros j f0 Hj He. replace (S i + j)%nat with (i + S j)%nat by lia.
    apply (Hext (S j) f0); assumption. }
  destruct (bool_decide (PkgPath f = EmptyString)) eqn:Hp; simpl negb; cbv iota;
    [|apply IH; exact Hext'].
  apply bool_decide_eq_true in Hp.
  pose proof (Hext 0%nat f eq_refl (proj2 (exported_true f) Hp)) as H0.
  rewrite Nat.add_0_r in H0.
  unfold FieldByIndex. simpl stype. simpl sfields. simpl saddr. rewrite <- H0.
  destruct (typ !! i) as [f'|]; [|reflexivity].
  destruct (fs1 !! i) as [d|]; [|reflexivity].
  destruct (marshalField f _ W w) as [[[num [err|]]|pn] w']; try reflexivity.
  apply IH. exact Hext'.
Qed.

(** X9. Fields that are not exported take no part in encoding: two
    records of one struct type that agree on the exported fields are
    encoded alike by [MarshalToWriter] on any writer, with the same bytes
    written, the same count, the same error or panic, and [StructLen]
    counts the same for both. *)
Theorem MarshalToWriter_exported_only (typ : StructType) (fs1 fs2 : list data)
    (W : Writer) (w : wstate W) (cache : gmap (list StructField) marshaler) :
  marshalCache_ok cache ->
  (forall j f, typ !! j = Some f -> exported f = true -> fs1 !! j = fs2 !! j) ->
  MarshalToWriter (StructPtr typ fs1) W w cache =
    MarshalToWriter (StructPtr typ fs2) W w cache /\
  MarshalToWriter (StructVal typ fs1) W w cache =
    MarshalToWriter (StructVal typ fs2) W w cache /\
  StructLen (StructPtr typ fs1) = StructLen (StructPtr typ fs2).
Proof.
  intros Hok Hext.
  assert (Hm : forall a, marshal (mkStruct typ fs1 a) W w cache =
                         marshal (mkStruct typ fs2 a) W w cache).
  { intros a. unfold marshal. simpl stype.
    pose proof (getMarshaler_spec typ cache Hok) as Hg.
    destruct (newMarshaler typ) as [m|e] eqn:Hnm.
    - destruct Hg as (cache' & -> & _).
      rewrite !(newMarshaler_marshal typ m _ W w Hnm). simpl stype.
      rewrite (marshal_fields_ext typ fs1 fs2 a W typ 0 0 w); [reflexivity|].
      intros j f Hj He. exact (Hext j f Hj He).
    - rewrite Hg. reflexivity. }
  split; [exact (Hm true)|]. split; [exact (Hm false)|].
  simpl. unfold structLen. simpl stype.
  apply structLen_loop_ext. intros j f Hj He. exact (Hext j f Hj He).
Qed.

Lemma MarshalToWriter_exported_only_witness :
  MarshalToWriter (StructPtr exampleHidden [DUint 1; DUint 7; DUint 515]) BufferWriter [] ∅ =
    MarshalToWriter (StructPtr exampleHidden [DUint 1; DUint 9; DUint 515]) BufferWriter [] ∅ /\
  MarshalToWriter (StructVal exampleHidden [DUint 1; DUint 7; DUint 515]) BufferWriter [] ∅ =
    MarshalToWriter (StructVal exampleHidden [DUint 1; DUint 9; DUint 515]) BufferWriter [] ∅ /\
  StructLen (StructPtr exampleHidden [DUint 1; DUint 7; DUint 515]) =
    StructLen (StructPtr exampleHidden [DUint 1; DUint 9; DUint 515]).
Proof.
  apply (MarshalToWriter_exported_only exampleHidden [DUint 1; DUint 7; DUint 515]
           [DUint 1; DUint 9; DUint 515] BufferWriter [] ∅ marshalCache_ok_empty).
  intros [|[|[|j]]] f Hj He; try reflexivity.
  inversion Hj; subst f. discriminate He.
Defined.

Lemma unmarshal_fields_unexported (typ : StructType) (R : Reader)
    (fields : list StructField) :
  forall (i : nat) (n : Z) (r : rstate R) (fs : list data),
    (forall j f, fields !! j = Some f -> typ !! (i + j)%nat = Some f) ->
    length (unmarshal_fields typ R fields i n r fs).2 = length fs /\
    (forall j, (j < i)%nat -> (unmarshal_fields typ R fields i n r fs).2 !! j = fs !! j) /\
    (forall j f, typ !! j = Some f -> exported f = false ->
       (unmarshal_fields typ R fields i n r fs).2 !! j = fs !! j).
Proof.
  induction fields as [|f rest IH]; intros i n r fs Htyp; simpl.
  - repeat split; reflexivity.
  - assert (Htyp' : forall j f0, rest !! j = Some f0 -> typ !! (S i + j)%nat = Some f0).
    { intros j f0 Hj. replace (S i + j)%nat with (i + S j)%nat by lia.
      apply Htyp. exact Hj. }
    pose proof (Htyp 0%nat f eq_refl) as Hf. rewrite Nat.add_0_r in Hf.
    destruct (bool_decide (PkgPath f = EmptyString)) eqn:Hp; simpl negb; cbv iota.
    + apply bool_decide_eq_true in Hp.
      assert (Hins : forall d,
        length (<[i:=d]> fs) = length fs /\
        (forall j, (j < i)%nat -> <[i:=d]> fs !! j = fs !! j) /\
        (forall j f0, typ !! j = Some f0 -> exported f0 = false ->
           <[i:=d]> fs !! j = fs !! j)).
      { intros d. split; [apply length_insert|]. split.
        - intros j Hj. apply list_lookup_insert_ne. lia.
        - intros j f0 Hj He. apply list_lookup_insert_ne. intros <-.
          rewrite Hf in Hj. inversion Hj; subst f0.
          apply exported_false in He. contradiction. }
      destruct (FieldByIndex _ i) as [fv|pn]; [|simpl; repeat split; reflexivity].
      destruct (unmarshalField f fv R r) as [[[[num [err|]]|pn] r'] fv'];
        try exact (Hins (vdata fv')).
      destruct (IH (S i) (n + num) r' (<[i:=vdata fv']> fs) Htyp') as (Hl & Hlow & Hun).
      destruct (Hins (vdata fv')) as (Hl0 & Hlow0 & Hun0).
      split; [congruence|]. split.
      * intros j Hj. rewrite Hlow by lia. apply Hlow0. exact Hj.
      * intros j f0 Hj He. rewrite (Hun j f0 Hj He). exact (Hun0 j f0 Hj He).
    + destruct (IH (S i) n r fs Htyp') as (Hl & Hlow & Hun).
      split; [exact Hl|]. split; [|exact Hun].
      intros j Hj. apply Hlow. lia.
Qed.

(** X10. Decoding never touches a field that is not exported: whatever
    the reader gives and however [UnmarshalFromReader] ends, with a count,
    an error or a panic, the record it leaves behind has the same struct
    type and number of fields, and every field that is not exported holds
    what it held before. *)
Theorem UnmarshalFromReader_keeps_unexported (R : Reader) (r : rstate R)
    (typ : StructType) (fs : list data) (cache : gmap (list StructField) unmarshaler) :
  unmarshalCache_ok cache ->
  exists fs',
    (UnmarshalFromReader R r (StructPtr typ fs) cache).1.2 = StructPtr typ fs' /\
    length fs' = length fs /\
    (forall j f, typ !! j = Some f -> exported f = false -> fs' !! j = fs !! j).
Proof.
  intros Hok. unfold UnmarshalFromReader.
  pose proof (unmarshal_spec R r typ fs cache Hok) as Hsp.
  destruct (first_error typ) as [e|].
  - rewrite Hsp. exists fs. repeat split; reflexivity.
  - destruct Hsp as (cache' & _ & ->).
    destruct (unmarshal_fields_unexported typ R typ 0 0 r fs (fun j f Hj => Hj))
      as (Hl & _ & Hun).
    destruct (unmarshal_fields typ R typ 0 0 r fs) as [[res r'] fs'].
    exists fs'. simpl in *. repeat split; assumption.
Qed.

Lemma UnmarshalFromReader_keeps_unexported_witness :
  exists fs',
    (UnmarshalFromReader BufferReader [x01; x02]
       (StructPtr exampleHidden [DUint 0; DUint 9; DUint 0]) ∅).1.2 =
      StructPtr exampleHidden fs' /\
    length fs' = length [DUint 0; DUint 9; DUint 0] /\
    (forall j f, exampleHidden !! j = Some f -> exported f = false ->
       fs' !! j = [DUint 0; DUint 9; DUint 0] !! j).
Proof.
  exact (UnmarshalFromReader_keeps_unexported BufferReader [x01; x02] exampleHidden
           [DUint 0; DUint 9; DUint 0] ∅ unmarshalCache_ok_empty).
Defined.

(** ** The shape of a plan *)

Lemma plan_of_shape (fields : list StructField) (i : nat) (idx : list nat)
    (fms : list fieldMarshaler) :
  plan_of fields i idx fms ->
  idx = exported_indices fields i /\
  Forall2 (fun j fm => exists f, fields !! (j - i)%nat = Some f /\ (i <= j)%nat /\
                                 PkgPath f = EmptyString /\ newFieldMarshaler f = Ok fm)
          idx fms.
Proof.
  induction 1 as [i|f rest i idx fms Hp _ [IH1 IH2]|f rest i idx fms fm Hp Hfm _ [IH1 IH2]];
    simpl.
  - split; constructor.
  - rewrite (proj2 (exported_false f) Hp). split; [exact IH1|].
    eapply Forall2_impl; [exact IH2|]. intros j fm (f0 & Hj & Hle & H1 & H2).
    exists f0. split; [|repeat split; auto; lia].
    replace (j - i)%nat with (S (j - S i)) by lia. exact Hj.
  - rewrite (proj2 (exported_true f) Hp). split; [congruence|]. constructor.
    + exists f. rewrite Nat.sub_diag. repeat split; auto.
    + eapply Forall2_impl; [exact IH2|]. intros j fm' (f0 & Hj & Hle & H1 & H2).
      exists f0. split; [|repeat split; auto; lia].
      replace (j - i)%nat with (S (j - S i)) by lia. exact Hj.
Qed.

Lemma uplan_of_shape (fields : list StructField) (i : nat) (idx : list nat)
    (fus : list fieldUnmarshaler) :
  uplan_of fields i idx fus ->
  idx = exported_indices fields i /\
  Forall2 (fun j fu => exists f, fields !! (j - i)%nat = Some f /\ (i <= j)%nat /\
                                 PkgPath f = EmptyString /\ newFieldUnmarshaler f = Ok fu)
          idx fus.
Proof.
  induction 1 as [i|f rest i idx fus Hp _ [IH1 IH2]|f rest i idx fus fu Hp Hfu _ [IH1 IH2]];
    simpl.
  - split; constructor.
  - rewrite (proj2 (exported_false f) Hp). split; [exact IH1|].
    eapply Forall2_impl; [exact IH2|]. intros j fu (f0 & Hj & Hle & H1 & H2).
    exists f0. split; [|repeat split; auto; lia].
    replace (j - i)%nat with (S (j - S i)) by lia. exact Hj.
  - rewrite (proj2 (exported_true f) Hp). split; [congruence|]. constructor.
    + exists f. rewrite Nat.sub_diag. repeat split; auto.
    + eapply Forall2_impl; [exact IH2|]. intros j fu' (f0 & Hj & Hle & H1 & H2).
      exists f0. split; [|repeat split; auto; lia].
      replace (j - i)%nat with (S (j - S i)) by lia. exact Hj.
Qed.

(** X11. [newMarshaler] and [newUnmarshaler] agree on every struct type:
    both fail, with the same error, or both give a plan.  The two plans
    list the same field indices, the positions of the exported fields in
    declaration order, and hold for each of them the operation that
    [newFieldMarshaler] or [newFieldUnmarshaler] builds for the field at
    that position: as many operations as indices. *)
Theorem builders_agree (typ : StructType) :
  match newMarshaler typ, newUnmarshaler typ with
  | Ok m, Ok u =>
      m_fieldIndex m = exported_indices typ 0 /\
      u_fieldIndex u = exported_indices typ 0 /\
      Forall2 (fun j fm => exists f, typ !! j = Some f /\ exported f = true /\
                                     newFieldMarshaler f = Ok fm)
              (m_fieldIndex m) (m_fieldMarshaler m) /\
      Forall2 (fun j fu => exists f, typ !! j = Some f /\ exported f = true /\
                                     newFieldUnmarshaler f = Ok fu)
              (u_fieldIndex u) (u_fieldUnmarshaler u)
  | Err e1, Err e2 => e1 = e2
  | _, _ => False
  end.
Proof.
  pose proof (newMarshaler_loop_error typ 0 (mkMarshaler [] [])) as Hm.
  pose proof (newUnmarshaler_loop_error typ 0 (mkUnmarshaler [] [])) as Hu.
  fold (newMarshaler typ) in Hm. fold (newUnmarshaler typ) in Hu.
  destruct (newMarshaler typ) as [m|e1] eqn:Em, (newUnmarshaler typ) as [u|e2] eqn:Eu;
    try congruence.
  destruct (newMarshaler_loop_plan _ _ _ _ Em) as (idx & fms & Hplan & ->).
  destruct (newUnmarshaler_loop_plan _ _ _ _ Eu) as (idx' & fus & Huplan & ->).
  destruct (plan_of_shape _ _ _ _ Hplan) as [-> H1].
  destruct (uplan_of_shape _ _ _ _ Huplan) as [-> H2].
  simpl. repeat split.
  - eapply Forall2_impl; [exact H1|]. intros j fm (f & Hj & _ & Hp & Hf).
    rewrite Nat.sub_0_r in Hj. exists f. rewrite exported_true. auto.
  - eapply Forall2_impl; [exact H2|]. intros j fu (f & Hj & _ & Hp & Hf).
    rewrite Nat.sub_0_r in Hj. exists f. rewrite exported_true. auto.
Qed.

(** ** Integers on the wire *)

Lemma getUint_value_payload_mod (en : option ByteOrder) (bitSize u : Z) :
  (bitSize = 1 \/ bitSize = 2 \/ bitSize = 4 \/ bitSize = 8) ->
  (1 < bitSize -> isNil en = false) ->
  0 <= u < 2 ^ 64 ->
  getUint_value en bitSize (putUint_payload u en bitSize) = u mod 2 ^ (8 * bitSize).
Proof.
  intros Hsz Hen Hu. unfold getUint_value, putUint_payload.
  destruct Hsz as [-> | [-> | [-> | ->]]]; simpl Z.eqb; cbv iota.
  - change (take _ _) with [byte_of_Z u]. unfold at_; cbn [nth].
    rewrite Z_of_byte_of_Z. reflexivity.
  - specialize (Hen ltac:(lia)). destruct en as [o|]; [|discriminate].
    replace (take _ _) with (binary.PutUint16 o (uint16 u)) by (destruct o; reflexivity).
    apply Uint16_PutUint16. apply Z.mod_pos_bound. lia.
  - specialize (Hen ltac:(lia)). destruct en as [o|]; [|discriminate].
    replace (take _ _) with (binary.PutUint32 o (uint32 u)) by (destruct o; reflexivity).
    apply Uint32_PutUint32. apply Z.mod_pos_bound. lia.
  - specialize (Hen ltac:(lia)). destruct en as [o|]; [|discriminate].
    replace (take _ _) with (binary.PutUint64 o u) by (destruct o; reflexivity).
    rewrite (Z.mod_small u) by exact Hu.
    apply Uint64_PutUint64. exact Hu.
Qed.

(** X12. [putUint] and [getUint] on a buffer, with one of the sizes 1, 2,
    4, 8 and a byte order when the size is above 1: [putUint] appends
    exactly [bitSize] bytes after what the buffer holds and returns that
    count; [getUint] on these bytes, followed by anything, takes exactly
    them and returns the [uint64] that was written cut to [8 * bitSize]
    bits, in either byte order. *)
Theorem putUint_getUint_truncates (ui : Z) (en : option ByteOrder) (bitSize : Z)
    (buf rest : list byte) :
  0 <= ui < 2 ^ 64 ->
  (bitSize = 1 \/ bitSize = 2 \/ bitSize = 4 \/ bitSize = 8) ->
  (1 < bitSize -> isNil en = false) ->
  exists p,
    Z.of_nat (length p) = bitSize /\
    putUint ui en bitSize BufferWriter buf = (Ret (bitSize, None), buf ++ p) /\
    getUint en bitSize BufferReader (p ++ rest) =
      (Ret (ui mod 2 ^ (8 * bitSize), bitSize, None), rest).
Proof.
  intros Hu Hsz Hen.
  destruct (putUint_good ui en bitSize BufferWriter buf Hsz Hen) as [Hlen Hput].
  exists (putUint_payload ui en bitSize). split; [exact Hlen|]. split.
  - rewrite Hput. cbn [Write BufferWriter]. rewrite Hlen, Z.eqb_refl. reflexivity.
  - rewrite (getUint_good en bitSize BufferReader _ Hsz Hen).
    replace (Z.to_nat bitSize) with (length (putUint_payload ui en bitSize)) by lia.
    rewrite BufferReader_read, Hlen, Z.eqb_refl. simpl negb. cbv iota.
    rewrite (getUint_value_payload_mod en bitSize ui Hsz Hen Hu). reflexivity.
Qed.

Lemma putUint_getUint_truncates_witness :
  exists p,
    Z.of_nat (length p) = 2 /\
    putUint 74565 (Some BigEndian) 2 BufferWriter [xaa] = (Ret (2, None), [xaa] ++ p) /\
    getUint (Some BigEndian) 2 BufferReader (p ++ [xbb]) =
      (Ret (74565 mod 2 ^ (8 * 2), 2, None), [xbb]).
Proof.
  apply (putUint_getUint_truncates 74565 (Some BigEndian) 2 [xaa] [xbb]).
  - lia.
  - right; left; reflexivity.
  - intros _. reflexivity.
Defined.

(** ** Counts on any writer and any reader *)

Lemma fieldLen_addr (f : StructField) (v : Value) (a : bool) :
  fieldLen f (mkValue (vtype v) (vdata v) a) = fieldLen f v.
Proof. reflexivity. Qed.

(** A field operation that reports success on a writer, whichever it is,
    reports the length [fieldLen] gives for the field. *)
Lemma marshalField_count (f : StructField) (fv : Value) (W : Writer)
    (w w' : wstate W) (num : Z) :
  marshalField f fv W w = (Ret (num, None), w') ->
  fieldLen f fv = Ret (num, None).
Proof.
  unfold marshalField.
  destruct (newFieldMarshaler f) as [fm|e] eqn:Hfm; [|discriminate].
  destruct (newFieldMarshaler_inv f fm Hfm) as [(o & Ho & [Hsz Hen] & ->)|(Ho & Hk & He & ->)].
  - unfold marshalUint. destruct (Value_Uint fv) as [ui|pn]; [|discriminate].
    destruct (putUint_good ui (endian (fm_tag fm)) (BitSize o) W w Hsz Hen) as [_ ->].
    destruct (Write W w _) as [w1 [n [e|]]]; [discriminate|].
    destruct (n =? BitSize o) eqn:Hn; simpl; [|discriminate].
    apply Z.eqb_eq in Hn. intros H; inversion H; subst.
    unfold fieldLen. destruct (KindOf (Type_ f)); simpl in Ho; inversion Ho; reflexivity.
  - unfold marshalBytes.
    match goal with
    | |- context [match ?s with Ret _ => _ | Panic _ => _ end] => destruct s as [p|pn]
    end; [|discriminate].
    destruct (Write W w p) as [w1 [n [e|]]]; [discriminate|].
    destruct (Value_Len fv) as [len|pn] eqn:Hl; [|discriminate].
    destruct (n =? len) eqn:Hn; simpl; [|discriminate].
    apply Z.eqb_eq in Hn. intros H; inversion H; subst.
    unfold fieldLen. rewrite Hl. destruct Hk as [-> | ->]; reflexivity.
Qed.

Lemma marshal_fields_count (value : StructValue) (W : Writer)
    (fields : list StructField) :
  forall (i : nat) (n m : Z) (w w' : wstate W) (fl : Z),
    marshal_fields value W fields i n w = (Ret (m, None), w') ->
    structLen_loop value fields i fl = Ret (fl + (m - n), None).
Proof.
  induction fields as [|f rest IH]; intros i n m w w' fl; simpl.
  - intros H; inversion H; subst. f_equal. f_equal. lia.
  - destruct (negb (bool_decide (PkgPath f = EmptyString))); [apply IH|].
    destruct (FieldByIndex value i) as [fv|]; [|discriminate].
    destruct (marshalField f fv W w) as [[[num [err|]]|pn] w1] eqn:Hf; try discriminate.
    rewrite (marshalField_count _ _ _ _ _ _ Hf). intros H.
    rewrite (IH _ _ _ _ _ (fl + num) H). f_equal. f_equal. lia.
Qed.

(** X13. When [MarshalToWriter] reports success on a writer, whichever
    it is, the count it returns is the length [StructLen] gives for the
    same argument. *)
Theorem MarshalToWriter_count (s : iface) (W : Writer) (w w' : wstate W)
    (cache cache' : gmap (list StructField) marshaler) (n : Z) :
  marshalCache_ok cache ->
  MarshalToWriter s W w cache = (Ret (n, None), w', cache') ->
  StructLen s = Ret (n, None).
Proof.
  intros Hok.
  assert (Hv : forall value,
    marshal value W w cache = (Ret (n, None), w', cache') ->
    structLen value = Ret (n, None)).
  { intros value. pose proof (marshal_spec value W w cache Hok) as Hsp.
    destruct (first_error (stype value)) as [e|].
    - rewrite Hsp. discriminate.
    - destruct Hsp as (c1 & _ & ->).
      destruct (marshal_fields value W (stype value) 0 0 w) as [o w1] eqn:Hm.
      simpl. intros H; inversion H; subst.
      unfold structLen. rewrite (marshal_fields_count _ _ _ _ _ _ _ _ 0 Hm).
      f_equal. f_equal. lia. }
  destruct s as [typ fs|typ fs|p]; simpl; [apply Hv | apply Hv | discriminate].
Qed.

Lemma MarshalToWriter_count_witness :
  StructLen (StructVal exampleHidden [DUint 1; DUint 7; DUint 515]) = Ret (3, None).
Proof.
  exact (MarshalToWriter_count (StructVal exampleHidden [DUint 1; DUint 7; DUint 515])
           BufferWriter [xee] [xee; x01; x02; x03] ∅
           (MarshalToWriter (StructVal exampleHidden [DUint 1; DUint 7; DUint 515])
              BufferWriter [xee] ∅).2 3 marshalCache_ok_empty
           (pair_fst_eq _ _ eq_refl)).
Defined.

(** A field operation that reports success on a reader reports the
    length [fieldLen] gives for the field, before and after. *)
Lemma unmarshalField_count (f : StructField) (fv fv' : Value) (R : Reader)
    (r r' : rstate R) (num : Z) :
  vtype fv = Type_ f ->
  unmarshalField f fv R r = (Ret (num, None), r', fv') ->
  fieldLen f fv = Ret (num, None) /\ vtype fv' = Type_ f /\
  fieldLen f fv' = Ret (num, None).
Proof.
  intros Hty. unfold unmarshalField.
  destruct (newFieldUnmarshaler f) as [fu|e] eqn:Hfu; [|discriminate].
  destruct (newFieldUnmarshaler_inv f fu Hfu) as [(o & Ho & [Hsz Hen] & ->)|(Ho & Hk & He & ->)].
  - unfold unmarshalUint. rewrite (getUint_good _ _ R r Hsz Hen).
    destruct (Read R r _) as [r1 [b [e|]]]; [discriminate|].
    destruct (negb _); [discriminate|].
    destruct (Value_SetUint fv _) as [v1|pn] eqn:Hset; [|discriminate].
    intros H; inversion H; subst.
    assert (Hlen : forall v, fieldLen f v = Ret (BitSize o, None)).
    { intros v. unfold fieldLen.
      destruct (KindOf (Type_ f)); simpl in Ho; inversion Ho; reflexivity. }
    split; [apply Hlen|]. split; [|apply Hlen].
    unfold Value_SetUint in Hset. destruct (negb (CanAddr fv)); [discriminate|].
    rewrite <- Hty. destruct (KindOf (vtype fv)); inversion Hset; reflexivity.
  - unfold unmarshalBytes.
    destruct (Value_Len fv) as [len|pn] eqn:Hl; [|discriminate].
    destruct (Read R r _) as [r1 [b [e|]]]; [discriminate|].
    destruct (Z.of_nat (length b) =? len) eqn:Hn; simpl negb; cbv iota; [|discriminate].
    apply Z.eqb_eq in Hn.
    match goal with
    | |- context [match ?s with Ret _ => _ | Panic _ => _ end] =>
        destruct s as [v1|pn] eqn:Hset
    end; [|discriminate].
    destruct (Value_Len v1) as [len'|pn] eqn:Hl'; [|discriminate].
    intros H; inversion H; subst num r1 v1. clear H.
    assert (Hv : vtype fv' = vtype fv /\ len' = len).
    { destruct (decide _) as [Ha|Ha].
      - unfold copyToByteArray in Hset.
        destruct (valueByteArrayToByteSlice fv); inversion Hset; subst fv'.
        split; [reflexivity|]. unfold Value_Len in *. simpl in Hl'.
        rewrite <- Hty in Ha.
        destruct (vtype fv); simpl in Ha; try discriminate. congruence.
      - unfold Value_SetBytes in Hset.
        destruct (negb (CanAddr fv)); [discriminate|].
        destruct (vtype fv) as [k|n e|e] eqn:Hvt; try discriminate.
        destruct e; try discriminate. inversion Hset; subst fv'.
        split; [simpl; congruence|]. unfold Value_Len in Hl'. simpl in Hl'.
        inversion Hl'. lia. }
    destruct Hv as [Hvt ->].
    unfold fieldLen. rewrite Hl, Hl'.
    split; [destruct Hk as [-> | ->]; reflexivity|].
    split; [congruence | destruct Hk as [-> | ->]; reflexivity].
Qed.

Lemma unmarshal_fields_count (typ : StructType) (R : Reader) (a : bool)
    (fields : list StructField) :
  forall (i : nat) (n m : Z) (r r' : rstate R) (fsc fs' : list data) (fl : Z),
    (forall j f, fields !! j = Some f -> typ !! (i + j)%nat = Some f) ->
    unmarshal_fields typ R fields i n r fsc = (Ret (m, None), r', fs') ->
    structLen_loop (mkStruct typ fsc a) fields i fl = Ret (fl + (m - n), None) /\
    structLen_loop (mkStruct typ fs' a) fields i fl = Ret (fl + (m - n), None).
Proof.
  induction fields as [|f rest IH]; intros i n m r r' fsc fs' fl Htyp; simpl.
  - intros H; inversion H; subst. split; f_equal; f_equal; lia.
  - assert (Htyp' : forall j f0, rest !! j = Some f0 -> typ !! (S i + j)%nat = Some f0).
    { intros j f0 Hj. replace (S i + j)%nat with (i + S j)%nat by lia.
      apply Htyp. exact Hj. }
    pose proof (Htyp 0%nat f eq_refl) as Hf. rewrite Nat.add_0_r in Hf.
    destruct (negb (bool_decide (PkgPath f = EmptyString))); [apply IH; exact Htyp'|].
    unfold FieldByIndex. simpl stype. simpl sfields. simpl saddr. rewrite Hf.
    destruct (fsc !! i) as [d|] eqn:Hd; [|discriminate].
    destruct (unmarshalField f _ R r) as [[[[num [err|]]|pn] r1] fv'] eqn:Hu;
      try discriminate.
    destruct (unmarshalField_count f (mkValue (Type_ f) d true) fv' R r r1 num eq_refl Hu)
      as (Hl & Hvt & Hl').
    intros Hrest.
    destruct (IH _ _ _ _ _ _ _ (fl + num) Htyp' Hrest) as [H1 H2].
    destruct (unmarshal_fields_unexported typ R rest (S i) (n + num) r1
                (<[i:=vdata fv']> fsc) Htyp') as (_ & Hlow & _).
    rewrite Hrest in Hlow. simpl in Hlow.
    rewrite (Hlow i (Nat.lt_succ_diag_r i)).
    rewrite list_lookup_insert_eq by (apply lookup_lt_is_Some; eauto).
    rewrite <- (fieldLen_addr f _ a) in Hl. simpl in Hl. rewrite Hl.
    rewrite <- (fieldLen_addr f fv' a), Hvt in Hl'. rewrite Hl'.
    split.
    + rewrite (structLen_loop_ext typ fsc (<[i:=vdata fv']> fsc) a a rest (S i)).
      * rewrite H1. f_equal. f_equal. lia.
      * intros j f0 _ _. symmetry. apply list_lookup_insert_ne. lia.
    + rewrite H2. f_equal. f_equal. lia.
Qed.

(** X14. When [UnmarshalFromReader] reports success on a reader,
    whichever it is, the count it returns is the length [StructLen] gives
    for the destination, as it was before the call and as it is after. *)
Theorem UnmarshalFromReader_count (R : Reader) (r r' : rstate R) (s s' : iface)
    (cache cache' : gmap (list StructField) unmarshaler) (n : Z) :
  unmarshalCache_ok cache ->
  UnmarshalFromReader R r s cache = (Ret (n, None), r', s', cache') ->
  StructLen s = Ret (n, None) /\ StructLen s' = Ret (n, None).
Proof.
  intros Hok. destruct s as [typ fs|typ fs|p]; simpl; try discriminate.
  pose proof (unmarshal_spec R r typ fs cache Hok) as Hsp.
  destruct (first_error typ) as [e|].
  - rewrite Hsp. discriminate.
  - destruct Hsp as (c1 & _ & ->).
    destruct (unmarshal_fields typ R typ 0 0 r fs) as [[o r1] fs'] eqn:Hu.
    intros H; inversion H; subst. simpl. unfold structLen. simpl stype.
    destruct (unmarshal_fields_count typ R true typ 0 0 n r r' fs fs' 0
                (fun j f Hj => Hj) Hu) as [H1 H2].
    rewrite H1, H2. split; f_equal; f_equal; lia.
Qed.

Lemma UnmarshalFromReader_count_witness :
  StructLen (StructPtr exampleHidden [DUint 0; DUint 9; DUint 0]) = Ret (3, None) /\
  StructLen (StructPtr exampleHidden [DUint 1; DUint 9; DUint 515]) = Ret (3, None).
Proof.
  exact (UnmarshalFromReader_count BufferReader [x01; x02; x03; x04] [x04]
           (StructPtr exampleHidden [DUint 0; DUint 9; DUint 0])
           (StructPtr exampleHidden [DUint 1; DUint 9; DUint 515]) ∅
           (UnmarshalFromReader BufferReader [x01; x02; x03; x04]
              (StructPtr exampleHidden [DUint 0; DUint 9; DUint 0]) ∅).2 3
           unmarshalCache_ok_empty (pair_fst_eq _ _ eq_refl)).
Defined.

(** ** Structs passed by value *)

Lemma marshalField_addr (f : StructField) (t : rtype) (d : data) (a a' : bool)
    (W : Writer) (w : wstate W) :
  KindOf (Type_ f) <> Array ->
  marshalField f (mkValue t d a) W w = marshalField f (mkValue t d a') W w.
Proof.
  intros Hk. unfold marshalField.
  destruct (newFieldMarshaler f) as [fm|e] eqn:Hfm; [|reflexivity].
  destruct (newFieldMarshaler_inv f fm Hfm) as [(o & _ & _ & ->)|(_ & _ & _ & ->)].
  - reflexivity.
  - unfold marshalBytes. rewrite !decide_False by exact Hk. reflexivity.
Qed.

Lemma marshal_fields_addr (typ : StructType) (fs : list data) (a a' : bool)
    (W : Writer) (fields : list StructField) :
  (forall f, f ∈ fields -> exported f = true -> KindOf (Type_ f) <> Array) ->
  forall (i : nat) (n : Z) (w : wstate W),
    marshal_fields (mkStruct typ fs a) W fields i n w =
    marshal_fields (mkStruct typ fs a') W fields i n w.
Proof.
  induction fields as [|f rest IH]; intros Hk i n w; simpl; [reflexivity|].
  assert (Hk' : forall f0, f0 ∈ rest -> exported f0 = true -> KindOf (Type_ f0) <> Array).
  { intros f0 Hin. apply Hk. right. exact Hin. }
  destruct (bool_decide (PkgPath f = EmptyString)) eqn:Hp; simpl negb; cbv iota;
    [|apply IH; exact Hk'].
  apply bool_decide_eq_true in Hp.
  unfold FieldByIndex. simpl stype. simpl sfields. simpl saddr.
  destruct (typ !! i) as [f'|]; [|reflexivity].
  destruct (fs !! i) as [d|]; [|reflexivity].
  rewrite (marshalField_addr f (Type_ f') d a a' W w
             (Hk f (list_elem_of_here f rest) (proj2 (exported_true f) Hp))).
  destruct (marshalField f _ W w) as [[[num [err|]]|pn] w']; try reflexivity.
  apply IH. exact Hk'.
Qed.

(** X15. A struct without exported arrays is encoded the same whether it
    is passed by value or through a pointer: [MarshalToWriter] does the
    same to any writer and returns the same.  (With an exported byte array
    the call by value panics.) *)
Theorem MarshalToWriter_by_value (typ : StructType) (fs : list data)
    (W : Writer) (w : wstate W) (cache : gmap (list StructField) marshaler) :
  marshalCache_ok cache ->
  (forall f, f ∈ typ -> exported f = true -> KindOf (Type_ f) <> Array) ->
  MarshalToWriter (StructVal typ fs) W w cache =
    MarshalToWriter (StructPtr typ fs) W w cache.
Proof.
  intros Hok Hk. simpl. unfold marshal. simpl stype.
  pose proof (getMarshaler_spec typ cache Hok) as Hg.
  destruct (newMarshaler typ) as [m|e] eqn:Hnm.
  - destruct Hg as (cache' & -> & _).
    rewrite !(newMarshaler_marshal typ m _ W w Hnm). simpl stype.
    rewrite (marshal_fields_addr typ fs false true W typ Hk). reflexivity.
  - rewrite Hg. reflexivity.
Qed.

Lemma MarshalToWriter_by_value_witness :
  MarshalToWriter (StructVal exampleHidden [DUint 1; DUint 7; DUint 515]) BufferWriter [] ∅ =
    MarshalToWriter (StructPtr exampleHidden [DUint 1; DUint 7; DUint 515]) BufferWriter [] ∅.
Proof.
  apply (MarshalToWriter_by_value exampleHidden [DUint 1; DUint 7; DUint 515]
           BufferWriter [] ∅ marshalCache_ok_empty).
  intros f Hin _.
  repeat (apply elem_of_cons in Hin as [-> | Hin]; [discriminate|]).
  inversion Hin.
Defined.

(** ** The plan caches *)

(** X16. The caches are transparent: with caches filled by the package
    itself, what [MarshalToWriter] and [UnmarshalFromReader] return, what
    they write or read and what they leave in the record do not depend on
    which plans the cache already holds. *)
Theorem caches_transparent (s : iface) (W : Writer) (w : wstate W)
    (R : Reader) (r : rstate R)
    (mc1 mc2 : gmap (list StructField) marshaler)
    (uc1 uc2 : gmap (list StructField) unmarshaler) :
  marshalCache_ok mc1 -> marshalCache_ok mc2 ->
  unmarshalCache_ok uc1 -> unmarshalCache_ok uc2 ->
  (MarshalToWriter s W w mc1).1 = (MarshalToWriter s W w mc2).1 /\
  (UnmarshalFromReader R r s uc1).1 = (UnmarshalFromReader R r s uc2).1.
Proof.
  intros Hm1 Hm2 Hu1 Hu2. split.
  - assert (Hv : forall value,
      (marshal value W w mc1).1 = (marshal value W w mc2).1).
    { intros value.
      pose proof (marshal_spec value W w mc1 Hm1) as H1.
      pose proof (marshal_spec value W w mc2 Hm2) as H2.
      destruct (first_error (stype value)).
      - rewrite H1, H2. reflexivity.
      - destruct H1 as (c1 & _ & ->). destruct H2 as (c2 & _ & ->). reflexivity. }
    destruct s; simpl; auto.
  - destruct s as [typ fs|typ fs|p]; simpl; auto.
    pose proof (unmarshal_spec R r typ fs uc1 Hu1) as H1.
    pose proof (unmarshal_spec R r typ fs uc2 Hu2) as H2.
    destruct (first_error typ).
    + rewrite H1, H2. reflexivity.
    + destruct H1 as (c1 & _ & ->). destruct H2 as (c2 & _ & ->).
      destruct (unmarshal_fields typ R typ 0 0 r fs) as [[o r'] fs']. reflexivity.
Qed.

Lemma caches_transparent_witness :
  (MarshalToWriter (StructPtr testStruct ts1) BufferWriter [] ∅).1 =
    (MarshalToWriter (StructPtr testStruct ts1) BufferWriter []
       (MarshalToWriter (StructPtr exampleAB [DUint 1; DUint 2]) BufferWriter [] ∅).2).1 /\
  (UnmarshalFromReader BufferReader [x01; x02; x03] (StructPtr testStruct ts1) ∅).1 =
    (UnmarshalFromReader BufferReader [x01; x02; x03] (StructPtr testStruct ts1)
       (UnmarshalFromReader BufferReader [x01] (StructPtr exampleAB [DUint 1; DUint 2]) ∅).2).1.
Proof.
  exact (caches_transparent (StructPtr testStruct ts1) BufferWriter [] BufferReader
           [x01; x02; x03] ∅ _ ∅ _
           marshalCache_ok_empty
           (MarshalToWriter_cache_ok _ BufferWriter [] ∅ marshalCache_ok_empty)
           unmarshalCache_ok_empty
           (UnmarshalFromReader_cache_ok BufferReader [x01] _ ∅ unmarshalCache_ok_empty)).
Defined.

(** X17. What [getMarshaler] and [getUnmarshaler] do to their cache.  A
    failure is the builder's and is never cached: the cache stays as it was
    and still has no plan for the type.  On success the cache holds the
    returned plan for the type and is otherwise as before; a plan that was
    already there is returned and the cache is not written; and a second
    call returns the same plan and leaves the cache as the first left it. *)
Theorem plans_cached (typ : StructType)
    (mcache : gmap (list StructField) marshaler)
    (ucache : gmap (list StructField) unmarshaler) :
  match getMarshaler typ mcache with
  | (Err e, cache') =>
      cache' = mcache /\ mcache !! typ = None /\ newMarshaler typ = Err e
  | (Ok m, cache') =>
      cache' !! typ = Some m /\
      (forall t, t <> typ -> cache' !! t = mcache !! t) /\
      match mcache !! typ with
      | Some m0 => m = m0 /\ cache' = mcache
      | None => newMarshaler typ = Ok m
      end /\
      getMarshaler typ cache' = (Ok m, cache')
  end /\
  match getUnmarshaler typ ucache with
  | (Err e, cache') =>
      cache' = ucache /\ ucache !! typ = None /\ newUnmarshaler typ = Err e
  | (Ok u, cache') =>
      cache' !! typ = Some u /\
      (forall t, t <> typ -> cache' !! t = ucache !! t) /\
      match ucache !! typ with
      | Some u0 => u = u0 /\ cache' = ucache
      | None => newUnmarshaler typ = Ok u
      end /\
      getUnmarshaler typ cache' = (Ok u, cache')
  end.
Proof.
  unfold getMarshaler, getUnmarshaler, SafeMap.Load, SafeMap.LoadOrStore.
  unfold StructType in *. split.
  - destruct (mcache !! typ) as [c|] eqn:Hc.
    + rewrite ?Hc. repeat split; auto.
    + destruct (newMarshaler typ) as [m|e]; [|auto].
      rewrite ?Hc, ?lookup_insert_eq. repeat split.
      intros t Ht. apply lookup_insert_ne. congruence.
  - destruct (ucache !! typ) as [c|] eqn:Hc.
    + rewrite ?Hc. repeat split; auto.
    + destruct (newUnmarshaler typ) as [u|e]; [|auto].
      rewrite ?Hc, ?lookup_insert_eq. repeat split.
      intros t Ht. apply lookup_insert_ne. congruence.
Qed.

(** ** [SafeMap] *)

(** X18. The laws of [SafeMap].  [LoadOrStore] never overwrites: it
    reports [loaded] exactly when the key was present, then returns the
    value that was there and leaves the map alone; otherwise it stores and
    returns its argument.  Either way [Load] then gives the value it
    returned, and a second [LoadOrStore], with any value, returns that
    value again.  [Store] overwrites: [Load] gives the stored value
    afterwards.  Neither touches another key, and a new map is empty. *)
Theorem SafeMap_laws {K : Type} `{Countable K} {V : Type} (sm : gmap K V)
    (key key' : K) (val val' : V) :
  SafeMap.Load (SafeMap.NewSafeMap (V := V)) key = None /\
  SafeMap.Load (SafeMap.Store sm key val) key = Some val /\
  (key' <> key ->
   SafeMap.Load (SafeMap.Store sm key val) key' = SafeMap.Load sm key') /\
  match SafeMap.LoadOrStore sm key val with
  | (actual, loaded, sm') =>
      SafeMap.Load sm' key = Some actual /\
      (loaded = true <-> SafeMap.Load sm key <> None) /\
      (loaded = true -> SafeMap.Load sm key = Some actual /\ sm' = sm) /\
      (loaded = false -> actual = val /\ sm' = SafeMap.Store sm key val) /\
      SafeMap.LoadOrStore sm' key val' = (actual, true, sm') /\
      (key' <> key -> SafeMap.Load sm' key' = SafeMap.Load sm key')
  end.
Proof.
  unfold SafeMap.Load, SafeMap.Store, SafeMap.LoadOrStore, SafeMap.NewSafeMap.
  split; [apply lookup_empty|]. split; [apply lookup_insert_eq|].
  split; [intros Hne; apply lookup_insert_ne; congruence|].
  destruct (sm !! key) as [existing|] eqn:Hk.
  - rewrite ?Hk. repeat split; auto; try congruence; try discriminate.
  - rewrite ?lookup_insert_eq. repeat split; auto; try congruence; try discriminate.
    intros Hne. apply lookup_insert_ne. congruence.
Qed.

(** ** The wire format *)










Example wire_examples :
  wire (mkField "B" EmptyString (TBasic Uint16) "be") (DUint 258) = [x01; x02] /\
  wire (mkField "B" EmptyString (TBasic Uint16) "le") (DUint 258) = [x02; x01] /\
  wire (mkField "D" EmptyString (TBasic Uint32) "be") (DUint 16909060)
    = [x01; x02; x03; x04] /\
  wire_fields exampleHidden [DUint 1; DUint 7; DUint 515] = [x01; x02; x03] /\
  wire_fields testStruct ts1 =
    [x01; x02; x03; x04; xff; x00; xff; x00; x00; xff; xff;
     x00; x00; x00; x00; xff; xff; xff; xff; xd2; x04;
     x0a; x0b; x0c; x0d; x0e; x0f; x10; x11; x12; x13].
Proof. repeat split; vm_compute; reflexivity. Qed.

(** ** No panic on well-typed records *)

(** One field of an accepted type, reached through a pointer and written
    to a writer, whichever it is: the operation returns. *)
Lemma marshalField_returns (f : StructField) (d : data) (W : Writer) (w : wstate W) :
  has_type (Type_ f) d ->
  supported (Type_ f) = true -> tag_resolves f = true ->
  (forall e, Type_ f <> TArray 0 e) ->
  exists res w', marshalField f (mkValue (Type_ f) d true) W w = (Ret res, w').
Proof.
  intros Hd Hs Ht Hz.
  destruct (newFieldMarshaler_supported f Hs Ht) as [fm Hfm].
  unfold marshalField. rewrite Hfm.
  destruct (newFieldMarshaler_inv f fm Hfm) as [(o & Ho & [Hsz Hen] & ->)|(Ho & Hk & He & ->)].
  - destruct (uint_field_inv f (mkValue (Type_ f) d true) o eq_refl Hd Ho)
      as ((u & Hu & _) & _ & _).
    simpl in Hu. subst d. unfold marshalUint, Value_Uint. simpl vdata. cbv iota.
    destruct (putUint_good u (endian (fm_tag fm)) (BitSize o) W w Hsz Hen) as [_ ->].
    destruct (Write W w _) as [w1 [n [e|]]]; [eauto|].
    destruct (negb _); eauto.
  - destruct (bytes_field_inv f (mkValue (Type_ f) d true) eq_refl Hd Hk He)
      as (b & Hb & Hlen & _ & Hshape).
    simpl in Hb. subst d. unfold marshalBytes.
    assert (Hp : (if decide (KindOf (Type_ f) = Array)
                  then valueByteArrayToByteSlice (mkValue (Type_ f) (DBytes b) true)
                  else Value_Bytes (mkValue (Type_ f) (DBytes b) true)) = Ret b).
    { destruct Hshape as [[n Hn]|Hsl].
      - rewrite decide_True by (rewrite Hn; reflexivity).
        unfold valueByteArrayToByteSlice. rewrite Hlen. simpl CanAddr. simpl vdata.
        assert (Hnz : (Z.of_nat (length b) =? 0) = false).
        { apply Z.eqb_neq. rewrite Hn in Hd. simpl in Hd. intros H0.
          apply (Hz Uint8). rewrite Hn. f_equal. lia. }
        rewrite Hnz. reflexivity.
      - rewrite decide_False by (rewrite Hsl; discriminate). reflexivity. }
    rewrite Hp. destruct (Write W w b) as [w1 [n [e|]]]; [eauto|].
    rewrite Hlen. destruct (negb _); eauto.
Qed.

(** The same for decoding: the operation returns, and the field stays
    well typed and of its size, whatever the reader hands out. *)
Lemma unmarshalField_returns (f : StructField) (d0 : data) (R : Reader) (r : rstate R) :
  has_type (Type_ f) d0 ->
  supported (Type_ f) = true -> tag_resolves f = true ->
  (forall e, Type_ f <> TArray 0 e) ->
  exists res r' d',
    unmarshalField f (mkValue (Type_ f) d0 true) R r =
      (Ret res, r', mkValue (Type_ f) d' true) /\
    has_type (Type_ f) d' /\ same_size d0 d'.
Proof.
  intros Hd0 Hs Ht Hz.
  destruct (newFieldMarshaler_supported f Hs Ht) as [fm Hfm].
  pose proof (newFieldUnmarshaler_error f) as Hfu. rewrite Hfm in Hfu.
  destruct (newFieldUnmarshaler f) as [fu|] eqn:Hfu'; [clear Hfu|contradiction].
  unfold unmarshalField. rewrite Hfu'.
  destruct (newFieldUnmarshaler_inv f fu Hfu') as [(o & Ho & [Hsz Hen] & ->)|(Ho & Hk & He & ->)].
  - destruct (uint_field_inv f (mkValue (Type_ f) d0 true) o eq_refl Hd0 Ho)
      as ((u0 & Hu0 & _) & _ & _).
    destruct (uint_field_type f o Ho) as (_ & Hrange & Hset).
    simpl in Hu0. subst d0.
    unfold unmarshalUint. rewrite (getUint_good _ _ R r Hsz Hen).
    destruct (Read R r _) as [r1 [b [e|]]]; [eexists _, _, _; (split; [reflexivity|]); split; [exact Hd0 | apply same_size_refl]|].
    destruct (negb _); [eexists _, _, _; (split; [reflexivity|]); split; [exact Hd0 | apply same_size_refl]|].
    rewrite Hset. eexists _, _, _. split; [reflexivity|]. split; [apply Hrange | exact I].
  - destruct (bytes_field_inv f (mkValue (Type_ f) d0 true) eq_refl Hd0 Hk He)
      as (b0 & Hb0 & Hlen0 & _ & Hshape).
    simpl in Hb0. subst d0.
    unfold unmarshalBytes. rewrite Hlen0.
    destruct (Read R r _) as [r1 [b [e|]]]; [eexists _, _, _; (split; [reflexivity|]); split; [exact Hd0 | apply same_size_refl]|].
    destruct (Z.of_nat (length b) =? Z.of_nat (length b0)) eqn:Hn; simpl negb; cbv iota;
      [|eexists _, _, _; (split; [reflexivity|]); split; [exact Hd0 | apply same_size_refl]].
    apply Z.eqb_eq in Hn. apply Nat2Z.inj in Hn.
    destruct Hshape as [[n Hnn]|Hsl].
    + rewrite decide_True by (rewrite Hnn; reflexivity).
      unfold copyToByteArray, valueByteArrayToByteSlice. rewrite Hlen0.
      simpl CanAddr. simpl vdata.
      assert (Hnz : (Z.of_nat (length b0) =? 0) = false).
      { apply Z.eqb_neq. rewrite Hnn in Hd0. simpl in Hd0. intros H0.
        apply (Hz Uint8). rewrite Hnn. f_equal. lia. }
      rewrite Hnz. simpl negb. cbv iota.
      replace (store (take (length b0) b) b0) with b.
      2:{ unfold store. rewrite <- Hn, firstn_all, Hn, skipn_all, app_nil_r. reflexivity. }
      unfold Value_Len at 1. simpl vtype. rewrite Hnn.
      exists (Z.of_nat n, None), r1, (DBytes b). split; [reflexivity|].
      rewrite Hnn in Hd0. simpl in Hd0 |- *. split; congruence.
    + rewrite decide_False by (rewrite Hsl; discriminate).
      unfold Value_SetBytes. simpl CanAddr. simpl vtype. rewrite Hsl. simpl negb.
      cbv iota. unfold Value_Len. simpl vtype. simpl vdata. cbv iota beta.
      eexists _, _, _. split; [reflexivity|]. split; [exact I | simpl; congruence].
Qed.

Lemma marshal_fields_returns (typ : StructType) (fs : list data) (W : Writer)
    (fields : list StructField) :
  has_struct_type typ fs ->
  forall (i : nat) (n : Z) (w : wstate W),
    (forall j f, fields !! j = Some f -> typ !! (i + j)%nat = Some f) ->
    (forall f, f ∈ fields -> PkgPath f = EmptyString ->
       supported (Type_ f) = true /\ tag_resolves f = true /\
       forall e, Type_ f <> TArray 0 e) ->
    exists res w',
      marshal_fields (mkStruct typ fs true) W fields i n w = (Ret res, w').
Proof.
  intros Hfs. induction fields as [|f rest IH]; intros i n w Htyp Hsup; simpl.
  - eauto.
  - assert (Htyp' : forall j f0, rest !! j = Some f0 -> typ !! (S i + j)%nat = Some f0).
    { intros j f0 Hj. replace (S i + j)%nat with (i + S j)%nat by lia.
      apply Htyp. exact Hj. }
    assert (Hsup' : forall f0, f0 ∈ rest -> PkgPath f0 = EmptyString ->
       supported (Type_ f0) = true /\ tag_resolves f0 = true /\
       forall e, Type_ f0 <> TArray 0 e).
    { intros f0 Hin. apply Hsup. right. exact Hin. }
    destruct (bool_decide (PkgPath f = EmptyString)) eqn:Hp; simpl negb; cbv iota;
      [|apply IH; assumption].
    apply bool_decide_eq_true in Hp.
    pose proof (Htyp 0%nat f eq_refl) as Hf. rewrite Nat.add_0_r in Hf.
    destruct (Forall2_lookup_l _ _ _ _ _ Hfs Hf) as (d & Hd & Hdt).
    unfold FieldByIndex. simpl stype. simpl sfields. rewrite Hf, Hd. simpl saddr.
    destruct (Hsup f (list_elem_of_here _ _) Hp) as (Hs & Ht & Hz).
    destruct (marshalField_returns f d W w Hdt Hs Ht Hz) as ([num [err|]] & w1 & ->).
    + eauto.
    + apply IH; assumption.
Qed.

Lemma unmarshal_fields_returns (typ : StructType) (R : Reader)
    (fields : list StructField) :
  forall (i : nat) (n : Z) (r : rstate R) (fsc : list data),
    (forall j f, fields !! j = Some f -> typ !! (i + j)%nat = Some f) ->
    (forall f, f ∈ fields -> PkgPath f = EmptyString ->
       supported (Type_ f) = true /\ tag_resolves f = true /\
       forall e, Type_ f <> TArray 0 e) ->
    has_struct_type typ fsc ->
    exists res r' fs',
      unmarshal_fields typ R fields i n r fsc = (Ret res, r', fs') /\
      has_struct_type typ fs' /\ presized fsc fs'.
Proof.
  induction fields as [|f rest IH]; intros i n r fsc Htyp Hsup Hfsc; simpl.
  - eexists _, _, _. split; [reflexivity|]. split; [exact Hfsc | apply presized_refl].
  - assert (Htyp' : forall j f0, rest !! j = Some f0 -> typ !! (S i + j)%nat = Some f0).
    { intros j f0 Hj. replace (S i + j)%nat with (i + S j)%nat by lia.
      apply Htyp. exact Hj. }
    assert (Hsup' : forall f0, f0 ∈ rest -> PkgPath f0 = EmptyString ->
       supported (Type_ f0) = true /\ tag_resolves f0 = true /\
       forall e, Type_ f0 <> TArray 0 e).
    { intros f0 Hin. apply Hsup. right. exact Hin. }
    destruct (bool_decide (PkgPath f = EmptyString)) eqn:Hp; simpl negb; cbv iota;
      [|exact (IH (S i) n r fsc Htyp' Hsup' Hfsc)].
    apply bool_decide_eq_true in Hp.
    pose proof (Htyp 0%nat f eq_refl) as Hf. rewrite Nat.add_0_r in Hf.
    destruct (Forall2_lookup_l _ _ _ _ _ Hfsc Hf) as (d0 & Hd0 & Hd0t).
    destruct (Hsup f (list_elem_of_here _ _) Hp) as (Hs & Ht & Hz).
    destruct (unmarshalField_returns f d0 R r Hd0t Hs Ht Hz)
      as ([num err] & r1 & d' & Hun & Hd't & Hsame).
    unfold FieldByIndex. simpl stype. simpl sfields. simpl saddr. rewrite Hf, Hd0, Hun.
    simpl vdata.
    destruct (insert_well_typed typ fsc i f d0 d' Hfsc Hf Hd0 Hd't Hsame)
      as [Hfsc' Hsized'].
    destruct err as [err|].
    + eexists _, _, _. split; [reflexivity|]. split; assumption.
    + destruct (IH (S i) (n + num) r1 (<[i:=d']> fsc) Htyp' Hsup' Hfsc')
        as (res & r' & fs' & Heq & Hfs' & Hp').
      exists res, r', fs'. split; [exact Heq|]. split; [exact Hfs'|].
      exact (presized_trans _ _ _ Hsized' Hp').
Qed.

(** X20. On a well-typed record of an accepted struct type without
    arrays of length zero, reached through a pointer, the codec never
    panics, whatever the writer or the reader does: [MarshalToWriter]
    returns, and [UnmarshalFromReader] returns and leaves the record well
    typed, with its byte sequences at their lengths. *)
Theorem no_panic_through_pointer (typ : StructType) (fs : list data)
    (W : Writer) (w : wstate W) (R : Reader) (r : rstate R)
    (mcache : gmap (list StructField) marshaler)
    (ucache : gmap (list StructField) unmarshaler) :
  marshalCache_ok mcache -> unmarshalCache_ok ucache ->
  codec_type typ -> no_empty_array typ ->
  has_struct_type typ fs ->
  (exists res w' mcache',
     MarshalToWriter (StructPtr typ fs) W w mcache = (Ret res, w', mcache')) /\
  (exists res r' fs' ucache',
     UnmarshalFromReader R r (StructPtr typ fs) ucache =
       (Ret res, r', StructPtr typ fs', ucache') /\
     has_struct_type typ fs' /\ presized fs fs').
Proof.
  intros Hm Hu Hc Hz Hfs. split.
  - pose proof (marshal_spec (mkStruct typ fs true) W w mcache Hm) as Hsp.
    simpl in Hsp. rewrite (codec_type_first_error typ Hc) in Hsp.
    destruct Hsp as (cache' & _ & Hsp).
    destruct (marshal_fields_returns typ fs W typ Hfs 0 0 w (fun j f Hj => Hj)
                (codec_fields typ Hc Hz)) as (res & w' & Heq).
    simpl. rewrite Hsp, Heq. eauto.
  - pose proof (unmarshal_spec R r typ fs ucache Hu) as Hsp.
    rewrite (codec_type_first_error typ Hc) in Hsp.
    destruct Hsp as (cache' & _ & Hsp).
    destruct (unmarshal_fields_returns typ R typ 0 0 r fs (fun j f Hj => Hj)
                (codec_fields typ Hc Hz) Hfs) as (res & r' & fs' & Heq & Hfs' & Hp).
    simpl. rewrite Hsp, Heq. eauto 10.
Qed.

Lemma no_panic_through_pointer_witness :
  (exists res w' mcache',
     MarshalToWriter (StructPtr testStruct ts1) (ShortWriter 1) [] ∅ =
       (Ret res, w', mcache')) /\
  (exists res r' fs' ucache',
     UnmarshalFromReader (FailingReader (IOError "closed")) []
       (StructPtr testStruct ts1) ∅ =
       (Ret res, r', StructPtr testStruct fs', ucache') /\
     has_struct_type testStruct fs' /\ presized ts1 fs').
Proof.
  exact (no_panic_through_pointer testStruct ts1 (ShortWriter 1) []
           (FailingReader (IOError "closed")) [] ∅ ∅
           marshalCache_ok_empty unmarshalCache_ok_empty
           testStruct_codec_type testStruct_no_empty_array ts1_well_typed).
Defined.

(** ** Plans and field operations *)

(** X21. Running a plan is running the field operations one by one.
    [newMarshaler] gives a plan exactly when [newFieldMarshaler] gives an
    operation for every exported field, and fails with the error of the
    first field that has none; [marshaler.marshal] with that plan does what
    [marshalField] does on the exported fields in declaration order, up to
    the first that fails.  The same holds for [newUnmarshaler],
    [unmarshaler.unmarshal] and [unmarshalField]. *)
Theorem plan_runs_field_operations (typ : StructType) (value : StructValue)
    (W : Writer) (w : wstate W) (R : Reader) (r : rstate R) (fs : list data) :
  match newMarshaler typ with
  | Ok m =>
      first_error typ = None /\
      marshaler_marshal m value W w = marshal_fields value W typ 0 0 w
  | Err e => first_error typ = Some e
  end /\
  match newUnmarshaler typ with
  | Ok u =>
      first_error typ = None /\
      unmarshaler_unmarshal u typ R r fs = unmarshal_fields typ R typ 0 0 r fs
  | Err e => first_error typ = Some e
  end.
Proof.
  pose proof (newMarshaler_loop_error typ 0 (mkMarshaler [] [])) as Hm.
  pose proof (newUnmarshaler_loop_error typ 0 (mkUnmarshaler [] [])) as Hu.
  fold (newMarshaler typ) in Hm. fold (newUnmarshaler typ) in Hu.
  split.
  - destruct (newMarshaler typ) as [m|e] eqn:Em; [|exact Hm].
    split; [exact Hm | exact (newMarshaler_marshal typ m value W w Em)].
  - destruct (newUnmarshaler typ) as [u|e] eqn:Eu; [|exact Hu].
    split; [exact Hu | exact (newUnmarshaler_unmarshal typ u R r fs Eu)].
Qed.

(** X22. The struct type is checked as a whole before a byte moves.
    When an exported field, be it the last one, has no operation,
    [MarshalToWriter] writes nothing and [UnmarshalFromReader] reads
    nothing and leaves the record as it is; both return the count 0 with
    the error of the first such field, and the caches stay as they were. *)
Theorem type_checked_before_io (typ : StructType) (fs : list data) (e : error)
    (W : Writer) (w : wstate W) (R : Reader) (r : rstate R)
    (mcache : gmap (list StructField) marshaler)
    (ucache : gmap (list StructField) unmarshaler) :
  marshalCache_ok mcache -> unmarshalCache_ok ucache ->
  first_error typ = Some e ->
  MarshalToWriter (StructPtr typ fs) W w mcache = (Ret (0, Some e), w, mcache) /\
  MarshalToWriter (StructVal typ fs) W w mcache = (Ret (0, Some e), w, mcache) /\
  UnmarshalFromReader R r (StructPtr typ fs) ucache =
    (Ret (0, Some e), r, StructPtr typ fs, ucache).
Proof.
  intros Hm Hu He.
  pose proof (marshal_spec (mkStruct typ fs true) W w mcache Hm) as H1.
  pose proof (marshal_spec (mkStruct typ fs false) W w mcache Hm) as H2.
  pose proof (unmarshal_spec R r typ fs ucache Hu) as H3.
  simpl in H1, H2. rewrite He in H1, H2, H3.
  simpl. rewrite H1, H2, H3. repeat split.
Qed.

Lemma type_checked_before_io_witness :
  MarshalToWriter
    (StructPtr (exampleAB ++ exampleSliceU32) [DUint 1; DUint 515; DSeq 2])
    BufferWriter [] ∅ = (Ret (0, Some errNotSupport), [], ∅) /\
  MarshalToWriter
    (StructVal (exampleAB ++ exampleSliceU32) [DUint 1; DUint 515; DSeq 2])
    BufferWriter [] ∅ = (Ret (0, Some errNotSupport), [], ∅) /\
  UnmarshalFromReader BufferReader [x01; x02; x03; x04]
    (StructPtr (exampleAB ++ exampleSliceU32) [DUint 1; DUint 515; DSeq 2]) ∅ =
    (Ret (0, Some errNotSupport), [x01; x02; x03; x04],
     StructPtr (exampleAB ++ exampleSliceU32) [DUint 1; DUint 515; DSeq 2], ∅).
Proof.
  exact (type_checked_before_io (exampleAB ++ exampleSliceU32)
           [DUint 1; DUint 515; DSeq 2] errNotSupport BufferWriter [] BufferReader
           [x01; x02; x03; x04] ∅ ∅ marshalCache_ok_empty unmarshalCache_ok_empty
           eq_refl).
Defined.
